(** * Researcher-twin: retrieval, deduplication and evidence-contract core

    A shallow embedding of the TypeScript sources
      - [lib/server/text.ts]         (chunker, keyword score, file names,
                                      text detection, HTML to text),
      - [lib/server/ragStore.ts]     (store file, ingestion and deletion,
                                      redundancy engine, retrieval),
      - [lib/server/agentRuntime.ts] (intent classifier, intent-aware
                                      retrieval, evidence contract),
      - [lib/config/publications.ts] (canonical publication catalog),
      - [app/api/rag/route.ts]       (names of crawled files),
    followed by theorems about the embedded functions.

    Conventions of the embedding.
    - A JavaScript string is a [string] of 8-bit characters; the model covers
      ASCII text: [toLowerCase] maps A-Z to a-z, the class \s is
      {TAB, LF, VT, FF, CR, SPACE}, \w is [A-Za-z0-9_], \d is [0-9].
    - A JavaScript number that the code uses as a count or an index is a [Z];
      a number that the code uses as a score, ratio or threshold is a
      rational [Q] (exact arithmetic stands for the IEEE double arithmetic).
    - [Set<string>] is a [gset string], [Map<string, V>] a [gmap string V].
    - A value of type [unknown] that comes from the store file is a
      [Json.t]; [undefined] is [None].
    - The array [store.chunks] holds object references: mutation of a chunk
      object is an in-place update of the array slot that holds it. *)

From Stdlib Require Import QArith Qround ZArith Ascii String.
From Stdlib.Strings Require Byte.
From stdpp Require Import gmap strings list pretty.

Open Scope Z_scope.

(* ===================================================================== *)
(** * JavaScript string primitives                                        *)
(* ===================================================================== *)

Module Js.

Definition code (c : ascii) : N := N_of_ascii c.

Definition in_range (lo hi : N) (c : ascii) : bool :=
  ((lo <=? code c) && (code c <=? hi))%N.

(** \d *)
Definition is_digit (c : ascii) : bool := in_range 48 57 c.
Definition is_upper (c : ascii) : bool := in_range 65 90 c.
Definition is_lower (c : ascii) : bool := in_range 97 122 c.
(** \w *)
Definition is_word (c : ascii) : bool :=
  is_digit c || is_upper c || is_lower c || (code c =? 95)%N.
(** \s, also the set removed by [String.prototype.trim] *)
Definition is_space (c : ascii) : bool :=
  in_range 9 13 c || (code c =? 32)%N.

Definition ascii_eqb (a b : ascii) : bool := (code a =? code b)%N.

Definition lower_char (c : ascii) : ascii :=
  if is_upper c then ascii_of_N (code c + 32) else c.

Fixpoint toLowerCase (s : string) : string :=
  match s with
  | EmptyString => EmptyString
  | String c r => String (lower_char c) (toLowerCase r)
  end.

Definition is_empty (s : string) : bool :=
  match s with EmptyString => true | _ => false end.

(** [Boolean(s)] for a string. *)
Definition truthy (s : string) : bool := negb (is_empty s).

Fixpoint trimStart (s : string) : string :=
  match s with
  | EmptyString => EmptyString
  | String c r => if is_space c then trimStart r else s
  end.

Fixpoint trimEnd (s : string) : string :=
  match s with
  | EmptyString => EmptyString
  | String c r =>
      let r' := trimEnd r in
      if is_space c && is_empty r' then EmptyString else String c r'
  end.

Definition trim (s : string) : string := trimEnd (trimStart s).

Definition len (s : string) : Z := Z.of_nat (String.length s).

(** [s.slice(a, b)] for [0 <= a] and [0 <= b] (no negative indices occur
    in the sources). *)
Definition slice (s : string) (a b : Z) : string :=
  String.substring (Z.to_nat a) (Z.to_nat (b - a)) s.

(** [s.slice(a)] *)
Fixpoint slice_from (n : nat) (s : string) : string :=
  match n, s with
  | O, _ => s
  | S n', String _ r => slice_from n' r
  | S _, EmptyString => EmptyString
  end.

Fixpoint startsWith (p s : string) : bool :=
  match p, s with
  | EmptyString, _ => true
  | String a p', String b s' => ascii_eqb a b && startsWith p' s'
  | String _ _, EmptyString => false
  end.

(** [s.indexOf(p)]: [None] stands for -1. *)
Fixpoint indexOf (p s : string) : option nat :=
  if startsWith p s then Some O
  else match s with
       | EmptyString => None
       | String _ r => S <$> indexOf p r
       end.

(** [s.includes(p)] *)
Definition includes (s p : string) : bool :=
  match indexOf p s with Some _ => true | None => false end.

(** [s.replace(/C+/g, ' ')]: every maximal run of characters of class [C]
    becomes one space. *)
Fixpoint collapse_runs (C : ascii -> bool) (in_run : bool) (s : string) : string :=
  match s with
  | EmptyString => EmptyString
  | String c r =>
      if C c then
        if in_run then collapse_runs C true r
        else String " " (collapse_runs C true r)
      else String c (collapse_runs C false r)
  end.

Definition replace_runs (C : ascii -> bool) (s : string) : string :=
  collapse_runs C false s.

(** [s.replace(/C/g, '')] *)
Fixpoint remove_chars (C : ascii -> bool) (s : string) : string :=
  match s with
  | EmptyString => EmptyString
  | String c r => if C c then remove_chars C r else String c (remove_chars C r)
  end.

(** [s.replace(/\r\n/g, '\n')] *)
Fixpoint replace_crlf (s : string) : string :=
  match s with
  | EmptyString => EmptyString
  | String c r =>
      match r with
      | String d r' =>
          if (code c =? 13)%N && (code d =? 10)%N
          then String d (replace_crlf r')
          else String c (replace_crlf r)
      | EmptyString => s
      end
  end.

(** [s.split(/C+/)]: the fields between maximal runs of class [C]; a run at
    the start or at the end of [s] yields an empty first or last field, and
    the empty string yields one empty field. [cur] is the field being read,
    reversed. *)
Fixpoint rev_string (acc : string) (s : string) : string :=
  match s with
  | EmptyString => acc
  | String c r => rev_string (String c acc) r
  end.

Fixpoint split_go (C : ascii -> bool) (in_run : bool) (cur : string) (s : string)
  : list string :=
  match s with
  | EmptyString => [rev_string EmptyString cur]
  | String c r =>
      if C c then
        if in_run then split_go C true cur r
        else rev_string EmptyString cur :: split_go C true EmptyString r
      else split_go C false (String c cur) r
  end.

Definition split_runs (C : ascii -> bool) (s : string) : list string :=
  split_go C false EmptyString s.

(** [s.split(' ')] : every single space separates. *)
Fixpoint split_char_go (sep : ascii) (cur : string) (s : string) : list string :=
  match s with
  | EmptyString => [rev_string EmptyString cur]
  | String c r =>
      if ascii_eqb c sep
      then rev_string EmptyString cur :: split_char_go sep EmptyString r
      else split_char_go sep (String c cur) r
  end.

Definition split_char (sep : ascii) (s : string) : list string :=
  split_char_go sep EmptyString s.

(** [parts.join(sep)] *)
Fixpoint join (sep : string) (parts : list string) : string :=
  match parts with
  | [] => EmptyString
  | [p] => p
  | p :: rest => p +:+ sep +:+ join sep rest
  end.

(** [s.replace(/\.[a-z0-9]{2,6}$/i, '')]: a final extension of a dot and
    two to six letters or digits is removed. The regular expression is
    anchored at the end, so the suffix after the candidate dot must consist
    of letters and digits only; the leftmost dot with such a suffix is the
    one the engine finds. *)
Definition is_alnum (c : ascii) : bool := is_digit c || is_upper c || is_lower c.

Fixpoint all_chars (C : ascii -> bool) (s : string) : bool :=
  match s with
  | EmptyString => true
  | String c r => C c && all_chars C r
  end.

Fixpoint strip_extension (s : string) : string :=
  match s with
  | EmptyString => EmptyString
  | String c r =>
      if (code c =? 46)%N && all_chars is_alnum r
         && (2 <=? String.length r)%nat && (String.length r <=? 6)%nat
      then EmptyString
      else String c (strip_extension r)
  end.

End Js.

(* ===================================================================== *)
(** * lib/server/text.ts                                                  *)
(* ===================================================================== *)

Module Text.
Import Js.

(** The loop of [chunkText]. The source loop has no bound of its own, so the
    embedding counts iterations: [None] means that [fuel] iterations did not
    reach an exit of the loop. *)
Fixpoint chunkLoop (fuel : nat) (normalized : string) (chunkSize overlap : Z)
    (start : Z) (chunks : list string) : option (list string) :=
  match fuel with
  | O => None
  | S fuel' =>
      if start <? len normalized then
        let end_ := Z.min (start + chunkSize) (len normalized) in
        let chunks' := chunks ++ [trim (slice normalized start end_)] in
        if end_ >=? len normalized then Some chunks'
        else chunkLoop fuel' normalized chunkSize overlap
               (Z.max 0 (end_ - overlap)) chunks'
      else Some chunks
  end.

Definition chunkText (fuel : nat) (text : string) (chunkSize overlap : Z)
  : option (list string) :=
  let normalized := trim (replace_crlf text) in
  if is_empty normalized then Some []
  else filter (fun c => truthy c = true) <$> chunkLoop fuel normalized chunkSize overlap 0 [].

(** [keywordScore(query, candidate)] *)
Definition keywordScore (query candidate : string) : Q :=
  let queryTerms : gset string :=
    list_to_set (filter (fun t => truthy t = true)
                   (split_runs (fun c => negb (is_word c)) (toLowerCase query))) in
  if (size queryTerms =? 0)%nat then 0%Q
  else
    let candidateTerms := split_runs (fun c => negb (is_word c)) (toLowerCase candidate) in
    let score := length (filter (fun t => t ∈ queryTerms) candidateTerms) in
    (Z.of_nat score # Pos.of_nat (Nat.max (length candidateTerms) 1))%Q.

(** [s.replace(/C/g, r)] for a character class [C] and a one-character
    replacement. *)
Fixpoint replace_chars (C : ascii -> bool) (r : ascii) (s : string) : string :=
  match s with
  | EmptyString => EmptyString
  | String c rest => String (if C c then r else c) (replace_chars C r rest)
  end.

(** The class [a-zA-Z0-9._-] *)
Definition is_file_char (c : ascii) : bool :=
  is_alnum c || (code c =? 46)%N || (code c =? 95)%N || (code c =? 45)%N.

(** [sanitizeFileName(fileName)] *)
Definition sanitizeFileName (fileName : string) : string :=
  replace_chars (fun c => negb (is_file_char c)) "_" fileName.




End Text.

(* ===================================================================== *)
(** * lib/server/text.ts: HTML to text                                    *)
(* ===================================================================== *)

Module Html.
Import Js.

(** [s.replace(/pattern/g, replacement)] as a scan from left to right:
    [pattern s] tells whether the expression matches at the start of [s]
    and how many characters the match takes (at least one for the
    expressions below); [skip] counts the characters of the last match
    that the scan has still to pass over. *)
Fixpoint replace_matches (pattern : string -> option nat) (replacement : string)
    (skip : nat) (s : string) : string :=
  match s with
  | EmptyString => EmptyString
  | String c r =>
      match skip with
      | S k => replace_matches pattern replacement k r
      | O =>
          match pattern s with
          | Some n => replacement +:+ replace_matches pattern replacement (Nat.pred n) r
          | None => String c (replace_matches pattern replacement 0 r)
          end
      end
  end.

(** [/<name[\s\S]*?<\/name>/i] at the start of [s]: the opening text, then
    as few characters as possible up to the first closing text. *)
Definition block (name : string) (s : string) : option nat :=
  let opening := "<" +:+ name in
  let closing := "</" +:+ name +:+ ">" in
  let lower := toLowerCase s in
  if startsWith opening lower then
    match indexOf closing (slice_from (String.length opening) lower) with
    | Some k => Some (String.length opening + k + String.length closing)%nat
    | None => None
    end
  else None.

(** [/<[^>]+>/] at the start of [s]: a [<], at least one character other
    than [>], and the first [>]. *)
Definition tag (s : string) : option nat :=
  match s with
  | EmptyString => None
  | String c r =>
      if ascii_eqb c "<" then
        match indexOf ">" r with
        | Some (S k) => Some (S (S (S k)))
        | _ => None
        end
      else None
  end.

(** [/text/i] at the start of [s], for a text without upper-case letters. *)
Definition literal (text : string) (s : string) : option nat :=
  if startsWith text (toLowerCase s) then Some (String.length text) else None.

Definition stripHtmlToText (html : string) : string :=
  let s := replace_matches (block "script") " " 0 html in
  let s := replace_matches (block "style") " " 0 s in
  let s := replace_matches (block "noscript") " " 0 s in
  let s := replace_matches tag " " 0 s in
  let s := replace_matches (literal "&nbsp;") " " 0 s in
  let s := replace_matches (literal "&amp;") "&" 0 s in
  let s := replace_matches (literal "&lt;") "<" 0 s in
  let s := replace_matches (literal "&gt;") ">" 0 s in
  trim (replace_runs is_space s).

(** ** Vocabulary for the theorems about [stripHtmlToText] *)

(** The text holds no character [ch]. *)
Definition lacks (ch : ascii) (s : string) : bool :=
  all_chars (fun c => negb (ascii_eqb c ch)) s.

(** The expression [/<[^>]+>/] matches nowhere in the text. *)
Fixpoint tag_free (s : string) : bool :=
  match s with
  | EmptyString => true
  | String _ r => match tag s with Some _ => false | None => tag_free r end
  end.

End Html.


(* ===================================================================== *)
(** * External collaborators and configuration                            *)
(* ===================================================================== *)

(** What the core takes from outside the repository: the SHA-1 digest of
    Node's [crypto] module, [Math.sqrt], the embedding service of
    [ollama.ts] ([None] is its "unavailable" answer) and the values of the
    environment variables ([None]: the variable is unset or empty, so the
    default of the source applies). *)
Class Services := {
  sha1_hex : string -> string;
  math_sqrt : Q -> Q;
  ollamaEmbedding : string -> option (list Q);
  RAG_DEDUP_COSINE_THRESHOLD : option Q;
  RAG_DEDUP_LEXICAL_THRESHOLD : option Q;
  RAG_DEDUP_NOVEL_SENTENCE_THRESHOLD : option Q;
  RAG_REDUNDANT_THESIS_PENALTY : option Q;
  DEFAULT_RAG_TOP_K : Z;
}.

Definition Qltb (a b : Q) : bool := negb (Qle_bool b a).

(** [a || b] on an optional string: the empty string is falsy. *)
Definition str_or (a : option string) (b : string) : string :=
  match a with
  | Some s => if Js.truthy s then s else b
  | None => b
  end.

Definition opt_truthy (a : option string) : bool :=
  match a with Some s => Js.truthy s | None => false end.

(** [a || b] where [b] may be undefined as well. *)
Definition opt_or (a b : option string) : option string :=
  if opt_truthy a then a else b.

(* ===================================================================== *)
(** * lib/server/ragStore.ts: data model                                  *)
(* ===================================================================== *)

Inductive RagSourceRole := publication | thesis | web | other.

Definition role_eqb (a b : RagSourceRole) : bool :=
  match a, b with
  | publication, publication | thesis, thesis | web, web | other, other => true
  | _, _ => false
  end.

Inductive FileType := pdf | docx | txt.
Inductive DocStatus := active | failed | deleted.
Inductive SourceType := upload | crawl.

Record RagDocumentMetadata := {
  title : option string;
  year : option string;
  venue : option string;
  chapter : option string;
  section : option string;
  subsection : option string;
  topics : option (list string);
  canonicalCitation : option string;
}.

Module Doc.
Record t := {
  id : string;
  ragId : string;
  fileName : string;
  fileType : FileType;
  status : DocStatus;
  uploadedAt : string;
  sourceType : SourceType;
  sourceRef : option string;
  documentCount : Z;
  sourceRole : RagSourceRole;
  metadata : option RagDocumentMetadata;
}.
End Doc.
Abbreviation RagDocument := Doc.t.

Module Chunk.
Record t := {
  id : string;
  ragId : string;
  documentId : string;
  text : string;
  textHash : option string;
  embedding : option (list Q);
  sourceName : string;
  chunkIndex : Z;
  sourceRole : RagSourceRole;
  paperKey : option string;
  documentTitle : option string;
  headingPath : option string;
  pageStart : option Z;
  pageEnd : option Z;
  redundantOf : option string;
  redundancyScore : option Q;
  isRedundant : option bool;
}.

(** [chunk.textHash = h] *)
Definition set_textHash (h : string) (c : t) : t :=
  {| id := id c; ragId := ragId c; documentId := documentId c; text := text c;
     textHash := Some h; embedding := embedding c; sourceName := sourceName c;
     chunkIndex := chunkIndex c; sourceRole := sourceRole c; paperKey := paperKey c;
     documentTitle := documentTitle c; headingPath := headingPath c;
     pageStart := pageStart c; pageEnd := pageEnd c;
     redundantOf := redundantOf c; redundancyScore := redundancyScore c;
     isRedundant := isRedundant c |}.

(** The three assignments to [isRedundant], [redundantOf] and
    [redundancyScore] of one chunk object. *)
Definition set_redundancy (flag : bool) (of_ : option string) (score : option Q)
    (c : t) : t :=
  {| id := id c; ragId := ragId c; documentId := documentId c; text := text c;
     textHash := textHash c; embedding := embedding c; sourceName := sourceName c;
     chunkIndex := chunkIndex c; sourceRole := sourceRole c; paperKey := paperKey c;
     documentTitle := documentTitle c; headingPath := headingPath c;
     pageStart := pageStart c; pageEnd := pageEnd c;
     redundantOf := of_; redundancyScore := score;
     isRedundant := Some flag |}.

(** [Boolean(chunk.isRedundant)] *)
Definition redundant (c : t) : bool :=
  match isRedundant c with Some b => b | None => false end.
End Chunk.
Abbreviation RagChunk := Chunk.t.

Record RagStore := {
  documents : list RagDocument;
  chunks : list RagChunk;
}.

(* ===================================================================== *)
(** * lib/server/text.ts: cosine similarity                               *)
(* ===================================================================== *)

Module Cosine.
Section WithServices.
Context `{Services}.

(** The loop [for (i = 0; i < a.length; i++)] with its three accumulators;
    it is entered only when both arrays have the same length. *)
Fixpoint accumulate (a b : list Q) (acc : Q * Q * Q) : Q * Q * Q :=
  match a, b with
  | av :: a', bv :: b' =>
      let '(dot, normA, normB) := acc in
      accumulate a' b' (dot + av * bv, normA + av * av, normB + bv * bv)%Q
  | _, _ => acc
  end.

Definition cosineSimilarity (a b : list Q) : Q :=
  if negb (length a =? length b)%nat || (length a =? 0)%nat then 0%Q
  else
    let '(dot, normA, normB) := accumulate a b (0, 0, 0)%Q in
    if Qeq_bool normA 0 || Qeq_bool normB 0 then 0%Q
    else (dot / (math_sqrt normA * math_sqrt normB))%Q.

End WithServices.
End Cosine.

(* ===================================================================== *)
(** * lib/server/ragStore.ts: similarity kernel and redundancy engine     *)
(* ===================================================================== *)

Module Rag.
Import Js.
Section WithServices.
Context `{Services}.

Definition normalizeTextForHash (text : string) : string :=
  trim (replace_runs is_space (toLowerCase text)).

Definition getTextHash (text : string) : string :=
  sha1_hex (normalizeTextForHash text).

Definition clamp01 (value : Q) : Q :=
  if Qltb value 0 then 0%Q
  else if Qltb 1 value then 1%Q
  else value.

(** The terms of [toWordFiveGrams]: split on \W+, trim, keep length > 1. *)
Definition wordTerms (text : string) : list string :=
  filter (fun item => (1 < String.length item)%nat)
    (trim <$> split_runs (fun c => negb (is_word c)) (toLowerCase text)).

Definition toWordFiveGrams (text : string) : gset string :=
  let terms := wordTerms text in
  if (length terms <? 5)%nat then
    if (0 <? length terms)%nat then {[ join " " terms ]} else ∅
  else
    list_to_set
      ((fun i => join " " (take 5 (drop i terms))) <$> seq 0 (length terms - 4)).

Definition jaccard (a b : gset string) : Q :=
  if (size a =? 0)%nat || (size b =? 0)%nat then 0%Q
  else
    let intersection := length (filter (fun item => item ∈ b) (elements a)) in
    let union := (size a + size b - intersection)%nat in
    if (union =? 0)%nat then 0%Q
    else (Z.of_nat intersection # Pos.of_nat union)%Q.

Definition lexicalOverlapScore (a b : string) : Q :=
  jaccard (toWordFiveGrams a) (toWordFiveGrams b).

Definition is_lower_alnum_or_space (c : ascii) : bool :=
  is_lower c || is_digit c || (code c =? 32)%N.

Definition normalizeSentence (text : string) : string :=
  trim (remove_chars (fun c => negb (is_lower_alnum_or_space c))
          (replace_runs is_space (toLowerCase text))).

(** [text.split(/[.!?]\s+|\n+/)]. The engine looks for the next match from
    left to right: at a character of [.!?] that is followed by white space
    the first alternative matches and takes the whole white-space run; at a
    line feed the second alternative matches and takes the run of line
    feeds. [mode] records the run being consumed. *)
Inductive SplitMode := InField | InSpaces | InNewlines.

Definition is_sentence_end (c : ascii) : bool :=
  (code c =? 46)%N || (code c =? 33)%N || (code c =? 63)%N.

Definition is_newline (c : ascii) : bool := (code c =? 10)%N.

Definition next_is_space (r : string) : bool :=
  match r with String d _ => is_space d | EmptyString => false end.

Fixpoint split_sentence_go (mode : SplitMode) (cur : string) (s : string)
  : list string :=
  match s with
  | EmptyString => [rev_string EmptyString cur]
  | String c r =>
      let continues :=
        match mode with
        | InField => false
        | InSpaces => is_space c
        | InNewlines => is_newline c
        end in
      if continues then split_sentence_go mode cur r
      else if is_sentence_end c && next_is_space r
      then rev_string EmptyString cur :: split_sentence_go InSpaces EmptyString r
      else if is_newline c
      then rev_string EmptyString cur :: split_sentence_go InNewlines EmptyString r
      else split_sentence_go InField (String c cur) r
  end.

Definition splitSentences (text : string) : list string :=
  filter (fun item => (20 <= String.length item)%nat)
    (normalizeSentence <$> split_sentence_go InField EmptyString text).

Definition novelSentenceRatio (thesisText publicationText : string) : Q :=
  let thesisSentences := splitSentences thesisText in
  if (length thesisSentences =? 0)%nat then 0%Q
  else
    let publicationSentenceSet : gset string :=
      list_to_set (splitSentences publicationText) in
    let novelCount :=
      length (filter (fun sentence => sentence ∉ publicationSentenceSet)
                thesisSentences) in
    (Z.of_nat novelCount # Pos.of_nat (length thesisSentences))%Q.

Record DedupConfig := {
  cosineThreshold : Q;
  lexicalThreshold : Q;
  novelSentenceThreshold : Q;
}.

(** [Number.parseFloat(process.env.X || default)] *)
Definition env_float (v : option Q) (dflt : Q) : Q :=
  match v with Some q => q | None => dflt end.

Definition getDedupConfig : DedupConfig :=
  {| cosineThreshold := clamp01 (env_float RAG_DEDUP_COSINE_THRESHOLD (96 # 100));
     lexicalThreshold := clamp01 (env_float RAG_DEDUP_LEXICAL_THRESHOLD (85 # 100));
     novelSentenceThreshold :=
       clamp01 (env_float RAG_DEDUP_NOVEL_SENTENCE_THRESHOLD (2 # 10)) |}.

Definition getRedundantThesisPenalty : Q :=
  clamp01 (env_float RAG_REDUNDANT_THESIS_PENALTY (8 # 100)).

(** ** annotateThesisRedundancy

    [store.chunks] is an array of object references, and the arrays
    [publicationChunks], [thesisChunks] and the buckets of [publicationByHash]
    hold references to the same objects. A reference is the position of the
    object in [store.chunks]; reading a field dereferences the current heap
    and assigning a field updates the slot in place. *)

Abbreviation Heap := (list RagChunk).

(** [store.chunks.filter(P)] as an array of references *)
Definition holds_at (P : RagChunk -> bool) (heap : Heap) (r : nat) : bool :=
  match heap !! r with Some c => P c | None => false end.

Definition refs_where (P : RagChunk -> bool) (heap : Heap) : list nat :=
  filter (fun r => holds_at P heap r = true) (seq 0 (length heap)).

Definition is_publication_of (ragId : string) (chunk : RagChunk) : bool :=
  bool_decide (Chunk.ragId chunk = ragId) && role_eqb (Chunk.sourceRole chunk) publication.

Definition is_thesis_of (ragId : string) (chunk : RagChunk) : bool :=
  bool_decide (Chunk.ragId chunk = ragId) && role_eqb (Chunk.sourceRole chunk) thesis.

(** [chunk.textHash || getTextHash(chunk.text)] *)
Definition hash_or_compute (chunk : RagChunk) : string :=
  str_or (Chunk.textHash chunk) (getTextHash (Chunk.text chunk)).

(** Body of the first loop: one publication chunk gets its hash and enters
    its bucket. *)
Definition index_publication (st : Heap * gmap string (list nat)) (r : nat)
  : Heap * gmap string (list nat) :=
  let '(heap, publicationByHash) := st in
  match heap !! r with
  | None => st
  | Some publicationChunk =>
      let hash := hash_or_compute publicationChunk in
      let heap' := <[r := Chunk.set_textHash hash publicationChunk]> heap in
      match publicationByHash !! hash with
      | Some bucket => (heap', <[hash := bucket ++ [r]]> publicationByHash)
      | None => (heap', <[hash := [r]]> publicationByHash)
      end
  end.

(** The cosine used by the near-duplicate test: the similarity of the two
    embeddings when both chunks have one, and 0 otherwise. *)
Definition pairCosine (thesisChunk publicationChunk : RagChunk) : Q :=
  match Chunk.embedding thesisChunk, Chunk.embedding publicationChunk with
  | Some a, Some b => Cosine.cosineSimilarity a b
  | _, _ => 0%Q
  end.

(** Body of the inner loop over [publicationChunks]; the state is
    [(bestMatch, bestSimilarity)]. *)
Definition consider_publication (cfg : DedupConfig) (heap : Heap)
    (thesisChunk : RagChunk) (best : option nat * Q) (r : nat) : option nat * Q :=
  match heap !! r with
  | None => best
  | Some publicationChunk =>
      let lexical := lexicalOverlapScore (Chunk.text thesisChunk) (Chunk.text publicationChunk) in
      if Qltb lexical (lexicalThreshold cfg) then best
      else
        let cosine := pairCosine thesisChunk publicationChunk in
        if Qltb cosine (cosineThreshold cfg) then best
        else
          let combined := ((cosine + lexical) / 2)%Q in
          match fst best with
          | None => (Some r, combined)
          | Some _ =>
              if Qltb (snd best) combined then (Some r, combined) else best
          end
  end.

(** Body of the second loop: one thesis chunk is reset and re-annotated. *)
Definition annotate_thesis_chunk (cfg : DedupConfig) (publicationChunks : list nat)
    (publicationByHash : gmap string (list nat)) (heap : Heap) (r : nat) : Heap :=
  match heap !! r with
  | None => heap
  | Some thesisChunk0 =>
      let hash := hash_or_compute thesisChunk0 in
      let thesisChunk :=
        Chunk.set_redundancy false None None (Chunk.set_textHash hash thesisChunk0) in
      let heap := <[r := thesisChunk]> heap in
      if (length publicationChunks =? 0)%nat then heap
      else
        let exactMatches := default [] (publicationByHash !! hash) in
        match exactMatches with
        | e :: _ =>
            match heap !! e with
            | None => heap
            | Some exactMatch =>
                let novelRatio := novelSentenceRatio (Chunk.text thesisChunk) (Chunk.text exactMatch) in
                if Qltb novelRatio (novelSentenceThreshold cfg)
                then <[r := Chunk.set_redundancy true (Some (Chunk.id exactMatch)) (Some 1%Q) thesisChunk]> heap
                else heap
            end
        | [] =>
            let '(bestMatch, bestSimilarity) :=
              foldl (consider_publication cfg heap thesisChunk) (None, 0%Q) publicationChunks in
            match bestMatch with
            | None => heap
            | Some b =>
                match heap !! b with
                | None => heap
                | Some best =>
                    let novelRatio := novelSentenceRatio (Chunk.text thesisChunk) (Chunk.text best) in
                    if Qle_bool (novelSentenceThreshold cfg) novelRatio then heap
                    else <[r := Chunk.set_redundancy true (Some (Chunk.id best)) (Some bestSimilarity) thesisChunk]> heap
                end
            end
        end
  end.

(** [annotateThesisRedundancy(store, ragId)]: the store after the call. *)
Definition annotateThesisRedundancy (store : RagStore) (ragId : string) : RagStore :=
  let cfg := getDedupConfig in
  let publicationChunks := refs_where (is_publication_of ragId) (chunks store) in
  let thesisChunks := refs_where (is_thesis_of ragId) (chunks store) in
  if (length thesisChunks =? 0)%nat then store
  else
    let '(heap, publicationByHash) :=
      foldl index_publication (chunks store, ∅) publicationChunks in
    {| documents := documents store;
       chunks := foldl (annotate_thesis_chunk cfg publicationChunks publicationByHash)
                   heap thesisChunks |}.

(** ** The engine, one chunk at a time

    The definitions below describe what one call leaves in each slot of
    [store.chunks]; the section on the redundancy engine proves that
    [annotateThesisRedundancy] computes exactly this. *)

(** The first loop on one publication chunk: the hash is stored. *)
Definition fill_hash (chunk : RagChunk) : RagChunk :=
  Chunk.set_textHash (hash_or_compute chunk) chunk.

(** A thesis chunk after the four assignments that open the second loop. *)
Definition reset_thesis (chunk : RagChunk) : RagChunk :=
  Chunk.set_redundancy false None None (fill_hash chunk).

Definition mark_redundant (against : RagChunk) (score : Q) (chunk : RagChunk)
  : RagChunk :=
  Chunk.set_redundancy true (Some (Chunk.id against)) (Some score) chunk.

(** The two tests of the near-duplicate loop that a publication chunk must
    pass, as the loop evaluates them. *)
Definition qualifies (cfg : DedupConfig) (thesisChunk publicationChunk : RagChunk)
  : bool :=
  negb (Qltb (lexicalOverlapScore (Chunk.text thesisChunk) (Chunk.text publicationChunk))
          (lexicalThreshold cfg))
  && negb (Qltb (pairCosine thesisChunk publicationChunk) (cosineThreshold cfg)).

Definition combinedSimilarity (thesisChunk publicationChunk : RagChunk) : Q :=
  ((pairCosine thesisChunk publicationChunk
    + lexicalOverlapScore (Chunk.text thesisChunk) (Chunk.text publicationChunk)) / 2)%Q.

(** The qualifying condition in the words of the specification: the lexical
    threshold is met and, only if both chunks have embeddings, the cosine
    threshold is met. *)
Definition spec_qualifies (cfg : DedupConfig) (thesisChunk publicationChunk : RagChunk)
  : Prop :=
  (lexicalThreshold cfg
   <= lexicalOverlapScore (Chunk.text thesisChunk) (Chunk.text publicationChunk))%Q
  /\ match Chunk.embedding thesisChunk, Chunk.embedding publicationChunk with
     | Some a, Some b => (cosineThreshold cfg <= Cosine.cosineSimilarity a b)%Q
     | _, _ => True
     end.

(** The slots [rs] of a heap rewritten by [G], the others untouched. *)
Definition update_slots (rs : list nat) (G : RagChunk -> RagChunk) (heap : Heap) : Heap :=
  imap (fun i chunk => if bool_decide (i ∈ rs) then G chunk else chunk) heap.

(** The final state of one thesis chunk object, given the heap [heap] in
    which the publication chunks are read. *)
Definition annotated_thesis (cfg : DedupConfig) (publicationChunks : list nat)
    (publicationByHash : gmap string (list nat)) (heap : Heap)
    (thesisChunk0 : RagChunk) : RagChunk :=
  let thesisChunk := reset_thesis thesisChunk0 in
  if (length publicationChunks =? 0)%nat then thesisChunk
  else
    match default [] (publicationByHash !! hash_or_compute thesisChunk0) with
    | e :: _ =>
        match heap !! e with
        | None => thesisChunk
        | Some exactMatch =>
            if Qltb (novelSentenceRatio (Chunk.text thesisChunk) (Chunk.text exactMatch))
                 (novelSentenceThreshold cfg)
            then mark_redundant exactMatch 1 thesisChunk
            else thesisChunk
        end
    | [] =>
        let best :=
          foldl (consider_publication cfg heap thesisChunk) (None, 0%Q) publicationChunks in
        match fst best with
        | None => thesisChunk
        | Some b =>
            match heap !! b with
            | None => thesisChunk
            | Some bestMatch =>
                if Qle_bool (novelSentenceThreshold cfg)
                     (novelSentenceRatio (Chunk.text thesisChunk) (Chunk.text bestMatch))
                then thesisChunk
                else mark_redundant bestMatch (snd best) thesisChunk
            end
        end
    end.

(** The heap part of the first loop's body. *)
Definition store_hash (heap : Heap) (r : nat) : Heap :=
  match heap !! r with
  | Some chunk => <[r := fill_hash chunk]> heap
  | None => heap
  end.

(** The bucket key of the chunk behind a reference. *)
Definition hash_at (heap : Heap) (r : nat) : option string :=
  hash_or_compute <$> heap !! r.

Definition publicationRefs (store : RagStore) (ragId : string) : list nat :=
  refs_where (is_publication_of ragId) (chunks store).

Definition thesisRefs (store : RagStore) (ragId : string) : list nat :=
  refs_where (is_thesis_of ragId) (chunks store).

(** The heap and the map [publicationByHash] after the first loop. *)
Definition hashed_heap (store : RagStore) (ragId : string) : Heap :=
  update_slots (publicationRefs store ragId) fill_hash (chunks store).

Definition buckets (store : RagStore) (ragId : string) : gmap string (list nat) :=
  snd (foldl index_publication (chunks store, ∅) (publicationRefs store ragId)).

(** What one call leaves in the slot that held [chunk]. *)
Definition annotated_chunk (store : RagStore) (ragId : string) (chunk : RagChunk)
  : RagChunk :=
  if (length (thesisRefs store ragId) =? 0)%nat then chunk
  else if is_thesis_of ragId chunk
  then annotated_thesis getDedupConfig (publicationRefs store ragId)
         (buckets store ragId) (hashed_heap store ragId) chunk
  else if is_publication_of ragId chunk then fill_hash chunk
  else chunk.

(** What the state [(bestMatch, bestSimilarity)] of the near-duplicate loop
    means after the references [seen]: no chunk seen so far qualifies, or
    the best match qualifies and no qualifying chunk seen so far has a
    larger combined similarity. *)
Definition best_so_far (cfg : DedupConfig) (heap : Heap) (thesisChunk : RagChunk)
    (seen : list nat) (best : option nat * Q) : Prop :=
  match fst best with
  | None =>
      forall e p, e ∈ seen -> heap !! e = Some p -> qualifies cfg thesisChunk p = false
  | Some b =>
      exists p, b ∈ seen /\ heap !! b = Some p
        /\ qualifies cfg thesisChunk p = true
        /\ snd best = combinedSimilarity thesisChunk p
        /\ forall e q, e ∈ seen -> heap !! e = Some q ->
             qualifies cfg thesisChunk q = true ->
             (combinedSimilarity thesisChunk q <= combinedSimilarity thesisChunk p)%Q
  end.

(** All fields of a chunk except the hash and the three redundancy fields. *)
Definition same_content (c c' : RagChunk) : Prop :=
  Chunk.id c' = Chunk.id c /\ Chunk.ragId c' = Chunk.ragId c
  /\ Chunk.documentId c' = Chunk.documentId c /\ Chunk.text c' = Chunk.text c
  /\ Chunk.embedding c' = Chunk.embedding c /\ Chunk.sourceName c' = Chunk.sourceName c
  /\ Chunk.chunkIndex c' = Chunk.chunkIndex c /\ Chunk.sourceRole c' = Chunk.sourceRole c
  /\ Chunk.paperKey c' = Chunk.paperKey c /\ Chunk.documentTitle c' = Chunk.documentTitle c
  /\ Chunk.headingPath c' = Chunk.headingPath c /\ Chunk.pageStart c' = Chunk.pageStart c
  /\ Chunk.pageEnd c' = Chunk.pageEnd c.

Definition same_redundancy (c c' : RagChunk) : Prop :=
  Chunk.isRedundant c' = Chunk.isRedundant c
  /\ Chunk.redundantOf c' = Chunk.redundantOf c
  /\ Chunk.redundancyScore c' = Chunk.redundancyScore c.

(** ** listRagDocuments and retrieveRelevantChunks

    [readStore()] is the explicit argument [store]. *)

Definition is_deleted (st : DocStatus) : bool :=
  match st with deleted => true | _ => false end.

Definition listRagDocuments (store : RagStore) (ragId : string) : list RagDocument :=
  filter (fun doc => bool_decide (Doc.ragId doc = ragId) && negb (is_deleted (Doc.status doc)) = true)
    (documents store).

Record RetrieveParams := {
  p_ragId : string;
  p_query : string;
  p_topK : option Z;
  includeSourceRoles : option (list RagSourceRole);
  includeDocumentNames : option (list string);
  excludeRedundant : option bool;
  maxChunksPerDocument : option Z;
}.

Definition role_in (roles : list RagSourceRole) (r : RagSourceRole) : bool :=
  existsb (role_eqb r) roles.

Definition name_in (names : list string) (n : string) : bool :=
  bool_decide (n ∈ (list_to_set names : gset string)).

(** The successive [candidates = candidates.filter(...)] of the source;
    an empty or missing filter list disables that filter. *)
Definition candidate (p : RetrieveParams) (chunk : RagChunk) : bool :=
  let includeSourceRoles := default [] (includeSourceRoles p) in
  let includeDocumentNames := default [] (includeDocumentNames p) in
  bool_decide (Chunk.ragId chunk = p_ragId p)
  && ((length includeSourceRoles =? 0)%nat || role_in includeSourceRoles (Chunk.sourceRole chunk))
  && ((length includeDocumentNames =? 0)%nat || name_in includeDocumentNames (Chunk.sourceName chunk))
  && (negb (default false (excludeRedundant p)) || negb (Chunk.redundant chunk)).

Definition chunkScore (query : string) (queryEmbedding : option (list Q))
    (chunk : RagChunk) : Q :=
  let score :=
    match queryEmbedding, Chunk.embedding chunk with
    | Some q, Some e => Cosine.cosineSimilarity q e
    | _, _ => Text.keywordScore query (Chunk.text chunk)
    end in
  if role_eqb (Chunk.sourceRole chunk) thesis && Chunk.redundant chunk
     && opt_truthy (Chunk.redundantOf chunk)
  then (score - getRedundantThesisPenalty)%Q
  else score.

(** [.sort((a, b) => b.score - a.score)]: the sort of the engine is stable,
    so an item moves only in front of items of strictly smaller score. *)
Fixpoint insert_ranked {A} (x : A * Q) (l : list (A * Q)) : list (A * Q) :=
  match l with
  | [] => [x]
  | y :: r => if Qltb (snd x) (snd y) then y :: insert_ranked x r else x :: l
  end.

Definition sort_ranked {A} (l : list (A * Q)) : list (A * Q) :=
  foldr insert_ranked [] l.

(** The selection loop with its [break] and [continue]. *)
Fixpoint select_capped (boundedTopK : Z) (maxChunksPerDocument : Z)
    (ranked : list (RagChunk * Q)) (selected : list RagChunk)
    (perDocumentCount : gmap string Z) : list RagChunk :=
  match ranked with
  | [] => selected
  | item :: rest =>
      if Z.of_nat (length selected) >=? boundedTopK then selected
      else
        let count := default 0 (perDocumentCount !! Chunk.documentId (fst item)) in
        if count >=? maxChunksPerDocument
        then select_capped boundedTopK maxChunksPerDocument rest selected perDocumentCount
        else select_capped boundedTopK maxChunksPerDocument rest
               (selected ++ [fst item])
               (<[Chunk.documentId (fst item) := count + 1]> perDocumentCount)
  end.

(** How many chunks of a list belong to document [d]. *)
Definition doc_count (d : string) (l : list RagChunk) : nat :=
  length (filter (fun chunk => Chunk.documentId chunk = d) l).

Definition retrieveRelevantChunks (store : RagStore) (p : RetrieveParams)
  : list RagChunk :=
  let topK := default DEFAULT_RAG_TOP_K (p_topK p) in
  let maxChunksPerDocument :=
    match maxChunksPerDocument p with
    | Some m => if 0 <? m then Some m else None
    | None => None
    end in
  let candidates := filter (fun chunk => candidate p chunk = true) (chunks store) in
  if (length candidates =? 0)%nat then []
  else
    let queryEmbedding := ollamaEmbedding (p_query p) in
    let ranked :=
      sort_ranked ((fun chunk => (chunk, chunkScore (p_query p) queryEmbedding chunk)) <$> candidates) in
    let boundedTopK := Z.max 1 topK in
    match maxChunksPerDocument with
    | None => fst <$> take (Z.to_nat boundedTopK) ranked
    | Some m => select_capped boundedTopK m ranked [] ∅
    end.

End WithServices.

(** No item of the list is followed by an item of larger score. *)
Definition best_first {A} (score : A -> Q) (l : list A) : Prop :=
  forall i j ci cj,
    (i < j)%nat -> l !! i = Some ci -> l !! j = Some cj -> (score cj <= score ci)%Q.

(** The query asks for no per-document cap: [maxChunksPerDocument] is
    missing or not positive. *)
Definition uncapped (p : RetrieveParams) : bool :=
  match maxChunksPerDocument p with
  | Some m => negb (0 <? m)
  | None => true
  end.

End Rag.

(* ===================================================================== *)
(** * lib/config/publications.ts                                          *)
(* ===================================================================== *)

Module Publications.
Import Js.

Record CanonicalPublication := {
  pub_title : string;
  pub_venue : string;
  pub_year : string;
  aliases : list string;
}.

Definition CANONICAL_PUBLICATIONS : list CanonicalPublication := [
  {| pub_title := "Improved Cross-Dataset Facial Expression Recognition by Handling Data Imbalance and Feature Confusion";
     pub_venue := "ECCVW"; pub_year := "2022";
     aliases := ["difc"; "DIFC_ECCVW_2022.pdf"] |};
  {| pub_title := "A Simple Signal for Domain Shift";
     pub_venue := "ICCVW"; pub_year := "2023";
     aliases := ["dss"; "DSS_ICCVW_2023.pdf"] |};
  {| pub_title := "PhISH-Net: Physics Inspired System for High Resolution Underwater Image Enhancement";
     pub_venue := "WACV"; pub_year := "2024";
     aliases := ["phishnet"; "PhishNet_WACV_2024.pdf"; "phish-net"] |};
  {| pub_title := "Effectiveness of Vision Language Models for Open-world Single Image Test Time Adaptation";
     pub_venue := "TMLR"; pub_year := "2025";
     aliases := ["rosita"; "ROSITA_TMLR_2025.pdf"] |};
  {| pub_title := "SANTA: Source Anchoring Network and Target Alignment for Continual Test Time Adaptation";
     pub_venue := "TMLR"; pub_year := "2023";
     aliases := ["santa"; "SANTA_TMLR_2023.pdf"] |};
  {| pub_title := "Similar Class Style Augmentation for Efficient Cross-Domain Few-Shot Learning";
     pub_venue := "CVPRW"; pub_year := "2023";
     aliases := ["ssabns"; "SSABNS_CVPRW_2023.pdf"] |};
  {| pub_title := "Segmentation Assisted Incremental Test Time Adaptation in an Open World";
     pub_venue := "BMVC"; pub_year := "2025";
     aliases := ["segassist"; "SegAssist_BMVC_2025.pdf"] |};
  {| pub_title := "pSTarC: Pseudo Source Guided Target Clustering for Fully Test-Time Adaptation";
     pub_venue := "WACV"; pub_year := "2024";
     aliases := ["pstarc"; "pSTarC_WACV_2024.pdf"] |};
  {| pub_title := "JumpStyle: A Framework for Data-Efficient Online Adaptation";
     pub_venue := "ICLRW"; pub_year := "2023";
     aliases := ["jumpstyle"] |}
].

Definition is_lower_alnum (c : ascii) : bool := is_lower c || is_digit c.

(** lower-case, [/[^a-z0-9]+/g -> ' '], trim, [/\s+/g -> ' '] *)
Definition normalizeCatalogText (value : string) : string :=
  replace_runs is_space
    (trim (replace_runs (fun c => negb (is_lower_alnum c)) (toLowerCase value))).

Definition publicationAliases (pub : CanonicalPublication) : list string :=
  filter (fun item => truthy item = true)
    (normalizeCatalogText <$> (pub_title pub :: aliases pub)).

Definition alias_matches (candidate alias : string) : bool :=
  bool_decide (candidate = alias)
  || ((6 <=? String.length alias)%nat && includes candidate alias)
  || ((6 <=? String.length candidate)%nat && includes alias candidate).

(** The three nested loops return at the first hit, candidates outermost. *)
Definition resolveCanonicalPublicationFromCandidates (candidates : list string)
  : option CanonicalPublication :=
  let normalizedCandidates :=
    filter (fun item => truthy item = true) (normalizeCatalogText <$> candidates) in
  head (candidate ← normalizedCandidates;
        publication ← CANONICAL_PUBLICATIONS;
        alias ← publicationAliases publication;
        if alias_matches candidate alias then [publication] else []).

Definition is_dash_or_underscore (c : ascii) : bool :=
  (code c =? 95)%N || (code c =? 45)%N.

(** The test of one alias in [resolveCanonicalPublicationByFileName]. *)
Definition file_alias_matches (normalizedFileName stem alias : string) : bool :=
  bool_decide (alias = normalizedFileName) || bool_decide (alias = stem)
  || ((6 <=? String.length alias)%nat
      && (includes normalizedFileName alias || includes stem alias)).

Definition resolveCanonicalPublicationByFileName (fileName : string)
  : option CanonicalPublication :=
  let normalizedFileName := normalizeCatalogText fileName in
  let stem :=
    normalizeCatalogText
      (replace_runs is_dash_or_underscore (strip_extension fileName)) in
  head (publication ← CANONICAL_PUBLICATIONS;
        alias ← publicationAliases publication;
        if file_alias_matches normalizedFileName stem alias then [publication] else []).

(** [metadata?.f] *)
Definition meta_get {A} (f : RagDocumentMetadata -> option A)
    (metadata : option RagDocumentMetadata) : option A :=
  match metadata with Some m => f m | None => None end.

(** The test [!m.title && ... && !m.topics?.length && !m.canonicalCitation]
    that both metadata normalizers end with. *)
Definition metadata_blank (m : RagDocumentMetadata) : bool :=
  negb (opt_truthy (title m)) && negb (opt_truthy (year m))
  && negb (opt_truthy (venue m)) && negb (opt_truthy (chapter m))
  && negb (opt_truthy (section m)) && negb (opt_truthy (subsection m))
  && (length (default [] (topics m)) =? 0)%nat
  && negb (opt_truthy (canonicalCitation m)).

Definition withCanonicalMetadata (fileName : string)
    (metadata : option RagDocumentMetadata) : option RagDocumentMetadata :=
  match resolveCanonicalPublicationByFileName fileName with
  | None => metadata
  | Some canonical =>
      let merged :=
        {| title := Some (str_or (meta_get title metadata) (pub_title canonical));
           year := Some (str_or (meta_get year metadata) (pub_year canonical));
           venue := Some (str_or (meta_get venue metadata) (pub_venue canonical));
           chapter := meta_get chapter metadata;
           section := meta_get section metadata;
           subsection := meta_get subsection metadata;
           topics := meta_get topics metadata;
           canonicalCitation :=
             Some (str_or (meta_get canonicalCitation metadata)
                     (pub_title canonical +:+ " (" +:+ pub_venue canonical
                      +:+ " " +:+ pub_year canonical +:+ ")")) |} in
      if metadata_blank merged then None else Some merged
  end.

(** The merged metadata of a file that resolves to the catalog entry
    [pub], when the upload brings no metadata of its own. *)
Definition canonical_metadata (pub : CanonicalPublication) : RagDocumentMetadata :=
  {| title := Some (pub_title pub);
     year := Some (pub_year pub);
     venue := Some (pub_venue pub);
     chapter := None; section := None; subsection := None; topics := None;
     canonicalCitation :=
       Some (pub_title pub +:+ " (" +:+ pub_venue pub +:+ " " +:+ pub_year pub +:+ ")") |}.

End Publications.

(* ===================================================================== *)
(** * lib/server/ragStore.ts: ingestion and deletion                      *)
(* ===================================================================== *)

Module Store.
Import Js.

(** [normalizeSourceRole(value, fallback)] on a value of the declared type
    [RagSourceRole | undefined]. *)
Definition normalizeSourceRole (value : option RagSourceRole) (fallback : RagSourceRole)
  : RagSourceRole :=
  match value with Some role => role | None => fallback end.

(** [/thesis|dissertation/i.test(fileName)] *)
Definition names_thesis (fileName : string) : bool :=
  includes (toLowerCase fileName) "thesis"
  || includes (toLowerCase fileName) "dissertation".

Definition inferSourceRole (fileName : string) (sourceType : SourceType) : RagSourceRole :=
  match sourceType with
  | crawl => web
  | upload => if names_thesis fileName then thesis else publication
  end.

(** [normalizeTextField(value)] on a value of type [string | undefined]. *)
Definition normalizeTextField (value : option string) : option string :=
  match value with
  | None => None
  | Some s =>
      let trimmed := trim s in
      if (String.length trimmed =? 0)%nat then None else Some trimmed
  end.

(** [value.map(normalizeTextField).filter(Boolean)], then the length test. *)
Definition normalizeTopics (value : option (list string)) : option (list string) :=
  match value with
  | None => None
  | Some items =>
      let normalized := omap (fun item => normalizeTextField (Some item)) items in
      if (length normalized =? 0)%nat then None else Some normalized
  end.

Definition normalizeMetadata (metadata : option RagDocumentMetadata)
  : option RagDocumentMetadata :=
  match metadata with
  | None => None
  | Some value =>
      let normalized :=
        {| title := normalizeTextField (title value);
           year := normalizeTextField (year value);
           venue := normalizeTextField (venue value);
           chapter := normalizeTextField (chapter value);
           section := normalizeTextField (section value);
           subsection := normalizeTextField (subsection value);
           topics := normalizeTopics (topics value);
           canonicalCitation := normalizeTextField (canonicalCitation value) |} in
      if Publications.metadata_blank normalized then None else Some normalized
  end.

(** lower-case, drop a final extension, [/[^a-z0-9]+/g -> ' '], trim,
    [/\s+/g -> ' '] *)
Definition normalizePaperKey (input : string) : string :=
  replace_runs is_space
    (trim (replace_runs (fun c => negb (Publications.is_lower_alnum c))
             (strip_extension (toLowerCase input)))).

Definition resolvePaperKey (fileName : string) (metadata : option RagDocumentMetadata)
  : option string :=
  let base := str_or (Publications.meta_get title metadata) fileName in
  let key := normalizePaperKey base in
  if (String.length key =? 0)%nat then None else Some key.

(** An environment variable that is read through [Number.parseInt(v, 10)]:
    unset or empty (falsy); set to a text from which [parseInt] reads no
    finite number; set to a text from which it reads the integer [z]. *)
Inductive EnvInt := Unset | NotANumber | Int (z : Z).

Record ChunkingEnv := {
  RAG_CHUNK_SIZE_THESIS : EnvInt;
  RAG_CHUNK_SIZE_PUBLICATION : EnvInt;
  RAG_CHUNK_SIZE : EnvInt;
  RAG_CHUNK_OVERLAP_THESIS : EnvInt;
  RAG_CHUNK_OVERLAP_PUBLICATION : EnvInt;
  RAG_CHUNK_OVERLAP : EnvInt;
}.

(** [a || b] on two environment variables *)
Definition env_or (a b : EnvInt) : EnvInt :=
  match a with Unset => b | _ => a end.

(** [Number.parseInt(v || String(dflt), 10)]: [None] is NaN. *)
Definition parse_or (v : EnvInt) (dflt : Z) : option Z :=
  match v with
  | Unset => Some dflt
  | NotANumber => None
  | Int z => Some z
  end.

Definition getChunkingConfig (env : ChunkingEnv) (sourceRole : RagSourceRole) : Z * Z :=
  let defaultChunkSize :=
    match sourceRole with thesis => 1200 | publication => 900 | _ => 900 end in
  let defaultOverlap :=
    match sourceRole with thesis => 180 | publication => 140 | _ => 150 end in
  let sizeEnv :=
    match sourceRole with
    | thesis => env_or (RAG_CHUNK_SIZE_THESIS env) (RAG_CHUNK_SIZE env)
    | publication => env_or (RAG_CHUNK_SIZE_PUBLICATION env) (RAG_CHUNK_SIZE env)
    | _ => RAG_CHUNK_SIZE env
    end in
  let overlapEnv :=
    match sourceRole with
    | thesis => env_or (RAG_CHUNK_OVERLAP_THESIS env) (RAG_CHUNK_OVERLAP env)
    | publication => env_or (RAG_CHUNK_OVERLAP_PUBLICATION env) (RAG_CHUNK_OVERLAP env)
    | _ => RAG_CHUNK_OVERLAP env
    end in
  let chunkSize := parse_or sizeEnv defaultChunkSize in
  let overlap := parse_or overlapEnv defaultOverlap in
  (match chunkSize with
   | Some n => if 0 <? n then n else defaultChunkSize
   | None => defaultChunkSize
   end,
   match overlap with
   | Some n => if 0 <=? n then n else defaultOverlap
   | None => defaultOverlap
   end).

(** What ingestion draws from the platform: the identifiers returned by
    [crypto.randomUUID()], first the one of the document and then one for
    each chunk in order, and the time stamp [new Date().toISOString()]. *)
Record Fresh := {
  documentUUID : string;
  chunkUUID : nat -> string;
  timestamp : string;
}.

Record IngestParams := {
  i_ragId : string;
  i_fileName : string;
  i_fileType : FileType;
  i_text : string;
  i_sourceType : SourceType;
  i_sourceRef : option string;
  i_sourceRole : option RagSourceRole;
  i_metadata : option RagDocumentMetadata;
}.

(** [{ ...doc, status }] *)
Definition set_status (st : DocStatus) (doc : RagDocument) : RagDocument :=
  {| Doc.id := Doc.id doc; Doc.ragId := Doc.ragId doc; Doc.fileName := Doc.fileName doc;
     Doc.fileType := Doc.fileType doc; Doc.status := st;
     Doc.uploadedAt := Doc.uploadedAt doc; Doc.sourceType := Doc.sourceType doc;
     Doc.sourceRef := Doc.sourceRef doc; Doc.documentCount := Doc.documentCount doc;
     Doc.sourceRole := Doc.sourceRole doc; Doc.metadata := Doc.metadata doc |}.

(** [doc.ragId === ragId && doc.fileName === fileName] *)
Definition same_file (ragId fileName : string) (doc : RagDocument) : bool :=
  bool_decide (Doc.ragId doc = ragId) && bool_decide (Doc.fileName doc = fileName).

Section WithServices.
Context `{Services}.

(** The chunk object pushed by one iteration of the ingestion loop. *)
Definition new_chunk (p : IngestParams) (fresh : Fresh) (finalSourceRole : RagSourceRole)
    (paperKey : option string) (finalMetadata : option RagDocumentMetadata)
    (chunkIndex : nat) (chunk : string) : RagChunk :=
  {| Chunk.id := chunkUUID fresh chunkIndex; Chunk.ragId := i_ragId p;
     Chunk.documentId := documentUUID fresh; Chunk.text := chunk;
     Chunk.textHash := Some (Rag.getTextHash chunk);
     Chunk.embedding := ollamaEmbedding chunk;
     Chunk.sourceName := i_fileName p; Chunk.chunkIndex := Z.of_nat chunkIndex;
     Chunk.sourceRole := finalSourceRole; Chunk.paperKey := paperKey;
     Chunk.documentTitle := Publications.meta_get title finalMetadata;
     Chunk.headingPath := None; Chunk.pageStart := None; Chunk.pageEnd := None;
     Chunk.redundantOf := None; Chunk.redundancyScore := None;
     Chunk.isRedundant := Some false |}.

(** [ingestRagDocument(params)]: the store that is written and the document
    that is returned. [readStore()] is the argument [store], and
    [textChunks] is the array [chunks] of the source; [None] means that the
    chunker did not return within [fuel] iterations. *)
Definition ingestRagDocument (fuel : nat) (env : ChunkingEnv) (fresh : Fresh)
    (store : RagStore) (p : IngestParams) : option (RagStore * RagDocument) :=
  let inferredSourceRole := inferSourceRole (i_fileName p) (i_sourceType p) in
  let finalSourceRole := normalizeSourceRole (i_sourceRole p) inferredSourceRole in
  let finalMetadata := normalizeMetadata (i_metadata p) in
  let paperKey := resolvePaperKey (i_fileName p) finalMetadata in
  let '(chunkSize, overlap) := getChunkingConfig env finalSourceRole in
  match Text.chunkText fuel (i_text p) chunkSize overlap with
  | None => None
  | Some textChunks =>
      let ragChunks :=
        imap (new_chunk p fresh finalSourceRole paperKey finalMetadata) textChunks in
      let document :=
        {| Doc.id := documentUUID fresh; Doc.ragId := i_ragId p;
           Doc.fileName := i_fileName p; Doc.fileType := i_fileType p;
           Doc.status := if (0 <? length textChunks)%nat then active else failed;
           Doc.uploadedAt := timestamp fresh; Doc.sourceType := i_sourceType p;
           Doc.sourceRef := i_sourceRef p;
           Doc.documentCount := Z.of_nat (length textChunks);
           Doc.sourceRole := finalSourceRole; Doc.metadata := finalMetadata |} in
      let replacedDocIds : gset string :=
        list_to_set
          (Doc.id <$> filter (fun doc => same_file (i_ragId p) (i_fileName p) doc = true)
                        (documents store)) in
      let store1 :=
        {| documents :=
             filter (fun doc => same_file (i_ragId p) (i_fileName p) doc = false)
               (documents store) ++ [document];
           chunks :=
             filter (fun chunk => Chunk.documentId chunk ∉ replacedDocIds) (chunks store)
             ++ ragChunks |} in
      Some (Rag.annotateThesisRedundancy store1 (i_ragId p), document)
  end.

End WithServices.

(** ** Vocabulary for the ingestion theorems *)

(** The role under which a file is ingested. *)
Definition final_role (p : IngestParams) : RagSourceRole :=
  normalizeSourceRole (i_sourceRole p) (inferSourceRole (i_fileName p) (i_sourceType p)).

(** The configured window advances: the overlap is smaller than the chunk
    size. *)
Definition advancing (env : ChunkingEnv) (sourceRole : RagSourceRole) : bool :=
  snd (getChunkingConfig env sourceRole) <? fst (getChunkingConfig env sourceRole).

(** No chunking variable is set. *)
Definition unset_env : ChunkingEnv :=
  {| RAG_CHUNK_SIZE_THESIS := Unset; RAG_CHUNK_SIZE_PUBLICATION := Unset;
     RAG_CHUNK_SIZE := Unset; RAG_CHUNK_OVERLAP_THESIS := Unset;
     RAG_CHUNK_OVERLAP_PUBLICATION := Unset; RAG_CHUNK_OVERLAP := Unset |}.

(** The set [replacedDocIds] of an ingestion, and the stored chunks that the
    ingestion keeps. *)
Definition replaced_ids (store : RagStore) (p : IngestParams) : gset string :=
  list_to_set
    (Doc.id <$> filter (fun doc => same_file (i_ragId p) (i_fileName p) doc = true)
                  (documents store)).

Definition kept_chunks (store : RagStore) (p : IngestParams) : list RagChunk :=
  filter (fun chunk => Chunk.documentId chunk ∉ replaced_ids store p) (chunks store).

(** [deleteRagDocuments(ragId, documentNames)]: the store that is written
    and the number that is returned. *)
Definition deleteRagDocuments (store : RagStore) (ragId : string)
    (documentNames : list string) : RagStore * nat :=
  let names : gset string := list_to_set documentNames in
  let docIdsToDelete :=
    Doc.id <$> filter (fun doc => Doc.ragId doc = ragId /\ Doc.fileName doc ∈ names)
                 (documents store) in
  let docIdSet : gset string := list_to_set docIdsToDelete in
  ({| documents :=
        (fun doc => if bool_decide (Doc.id doc ∈ docIdSet)
                    then set_status deleted doc else doc) <$> documents store;
      chunks := filter (fun chunk => Chunk.documentId chunk ∉ docIdSet) (chunks store) |},
   length docIdsToDelete).

End Store.

(* ===================================================================== *)
(** * lib/server/ragStore.ts: reading and writing the store file          *)
(* ===================================================================== *)

(** A value as [JSON.parse] returns it. [Inf] is a number literal beyond the
    range of a double, which is read as an infinity. *)
Module Json.

#[local] Set Warnings "-register-all".
Inductive t :=
| Null
| Bool (b : bool)
| Num (q : Q)
| Inf
| Str (s : string)
| Arr (items : list t)
| Obj (fields : list (string * t)).

(** The last binding of a key: in the text of an object a later duplicate
    of a key overrides an earlier one. *)
Fixpoint lookup_last (key : string) (fields : list (string * t)) : option t :=
  match fields with
  | [] => None
  | (k, v) :: rest =>
      if String.eqb key k
      then Some (default v (lookup_last key rest))
      else lookup_last key rest
  end.

(** [value.key] for the property names that the store reads; an array or a
    primitive value has none of them. *)
Definition get (key : string) (value : t) : option t :=
  match value with Obj fields => lookup_last key fields | _ => None end.

(** [raw && typeof raw === 'object'] *)
Definition is_object (value : t) : bool :=
  match value with Arr _ | Obj _ => true | _ => false end.

(** What [JSON.parse(JSON.stringify(o))] returns for an object [o] with the
    listed properties: a property whose value is [undefined] is left out. *)
Definition object (properties : list (string * option t)) : t :=
  Obj (omap (fun '(k, v) => pair k <$> v) properties).

End Json.

(** [Number.parseInt(s, 10)] and [Number.parseFloat(s)]; [None] stands for
    a result that is NaN or infinite. *)
Class Numbers := {
  parseInt10 : string -> option Z;
  parseFloat : string -> option Q;
}.

Module StoreFile.
Import Js.

Definition as_string (value : option Json.t) : option string :=
  match value with Some (Json.Str s) => Some s | _ => None end.

(** [normalizeTextField(value)] on a value of type [unknown]. *)
Definition normalizeTextField (value : option Json.t) : option string :=
  Store.normalizeTextField (as_string value).

Definition normalizeTopics (value : option Json.t) : option (list string) :=
  match value with
  | Some (Json.Arr items) =>
      let normalized := omap (fun item => normalizeTextField (Some item)) items in
      if (length normalized =? 0)%nat then None else Some normalized
  | _ => None
  end.

Definition normalizeMetadata (metadata : option Json.t) : option RagDocumentMetadata :=
  match metadata with
  | None => None
  | Some value =>
      if negb (Json.is_object value) then None
      else
        let normalized :=
          {| title := normalizeTextField (Json.get "title" value);
             year := normalizeTextField (Json.get "year" value);
             venue := normalizeTextField (Json.get "venue" value);
             chapter := normalizeTextField (Json.get "chapter" value);
             section := normalizeTextField (Json.get "section" value);
             subsection := normalizeTextField (Json.get "subsection" value);
             topics := normalizeTopics (Json.get "topics" value);
             canonicalCitation := normalizeTextField (Json.get "canonicalCitation" value) |} in
        if Publications.metadata_blank normalized then None else Some normalized
  end.

(** The four strings that are source roles. *)
Definition as_role (value : option Json.t) : option RagSourceRole :=
  match as_string value with
  | Some s =>
      if String.eqb s "publication" then Some publication
      else if String.eqb s "thesis" then Some thesis
      else if String.eqb s "web" then Some web
      else if String.eqb s "other" then Some other
      else None
  | None => None
  end.

(** [normalizeSourceRole(value, fallback)] on a value of type [unknown]. *)
Definition normalizeSourceRole (value : option Json.t) (fallback : RagSourceRole)
  : RagSourceRole :=
  Store.normalizeSourceRole (as_role value) fallback.

Definition as_fileType (value : option Json.t) : FileType :=
  match as_string value with
  | Some s =>
      if String.eqb s "pdf" then pdf
      else if String.eqb s "docx" then docx
      else if String.eqb s "txt" then txt
      else txt
  | None => txt
  end.

Definition as_status (value : option Json.t) : DocStatus :=
  match as_string value with
  | Some s =>
      if String.eqb s "active" then active
      else if String.eqb s "failed" then failed
      else if String.eqb s "deleted" then deleted
      else failed
  | None => failed
  end.

Definition as_sourceType (value : option Json.t) : SourceType :=
  match as_string value with
  | Some s => if String.eqb s "crawl" then crawl else upload
  | None => upload
  end.

(** [sourceDoc?.metadata] *)
Definition doc_metadata (sourceDoc : option RagDocument) : option RagDocumentMetadata :=
  match sourceDoc with Some doc => Doc.metadata doc | None => None end.

(** [new Date(0).toISOString()] *)
Definition epoch : string := "1970-01-01T00:00:00.000Z".

Section WithServices.
Context `{Services} `{Numbers}.

Definition parseInteger (value : option Json.t) : option Z :=
  match value with
  | Some (Json.Num q) => Some (Qfloor q)
  | Some (Json.Str s) => parseInt10 s
  | _ => None
  end.

Definition parseNumber (value : option Json.t) : option Q :=
  match value with
  | Some (Json.Num q) => Some q
  | Some (Json.Str s) => parseFloat s
  | _ => None
  end.

Definition normalizeDocument (raw : Json.t) : option RagDocument :=
  if negb (Json.is_object raw) then None
  else
    let id := normalizeTextField (Json.get "id" raw) in
    let ragId := normalizeTextField (Json.get "ragId" raw) in
    let fileName := normalizeTextField (Json.get "fileName" raw) in
    let fileType := as_fileType (Json.get "fileType" raw) in
    let status := as_status (Json.get "status" raw) in
    let uploadedAt := str_or (normalizeTextField (Json.get "uploadedAt" raw)) epoch in
    let sourceType := as_sourceType (Json.get "sourceType" raw) in
    let sourceRef := normalizeTextField (Json.get "sourceRef" raw) in
    let documentCount := default 0 (parseInteger (Json.get "documentCount" raw)) in
    match id, ragId, fileName with
    | Some id, Some ragId, Some fileName =>
        let inferredRole := Store.inferSourceRole fileName sourceType in
        Some {| Doc.id := id; Doc.ragId := ragId; Doc.fileName := fileName;
                Doc.fileType := fileType; Doc.status := status;
                Doc.uploadedAt := uploadedAt; Doc.sourceType := sourceType;
                Doc.sourceRef := sourceRef; Doc.documentCount := documentCount;
                Doc.sourceRole :=
                  normalizeSourceRole (Json.get "sourceRole" raw) inferredRole;
                Doc.metadata := normalizeMetadata (Json.get "metadata" raw) |}
    | _, _, _ => None
    end.

Definition normalizeChunk (raw : Json.t) (documentsById : gmap string RagDocument)
  : option RagChunk :=
  if negb (Json.is_object raw) then None
  else
    let id := normalizeTextField (Json.get "id" raw) in
    let ragId := normalizeTextField (Json.get "ragId" raw) in
    let documentId := normalizeTextField (Json.get "documentId" raw) in
    let text := normalizeTextField (Json.get "text" raw) in
    let sourceName := normalizeTextField (Json.get "sourceName" raw) in
    match id, ragId, documentId, text, sourceName with
    | Some id, Some ragId, Some documentId, Some text, Some sourceName =>
        let sourceDoc := documentsById !! documentId in
        let sourceRole :=
          normalizeSourceRole (Json.get "sourceRole" raw)
            (match sourceDoc with Some doc => Doc.sourceRole doc | None => other end) in
        let chunkIndex := default 0 (parseInteger (Json.get "chunkIndex" raw)) in
        let paperKey :=
          opt_or (normalizeTextField (Json.get "paperKey" raw))
            (Store.resolvePaperKey sourceName (doc_metadata sourceDoc)) in
        let documentTitle :=
          opt_or (normalizeTextField (Json.get "documentTitle" raw))
            (Publications.meta_get title (doc_metadata sourceDoc)) in
        let pageStart := parseInteger (Json.get "pageStart" raw) in
        let pageEnd := parseInteger (Json.get "pageEnd" raw) in
        let redundantOf := normalizeTextField (Json.get "redundantOf" raw) in
        let redundancyScore := parseNumber (Json.get "redundancyScore" raw) in
        let isRedundant :=
          match Json.get "isRedundant" raw with Some (Json.Bool b) => b | _ => false end in
        let headingPath := normalizeTextField (Json.get "headingPath" raw) in
        let textHash :=
          str_or (normalizeTextField (Json.get "textHash" raw)) (Rag.getTextHash text) in
        let embedding :=
          match Json.get "embedding" raw with
          | Some (Json.Arr items) => Some (omap (fun item => parseNumber (Some item)) items)
          | _ => None
          end in
        Some {| Chunk.id := id; Chunk.ragId := ragId; Chunk.documentId := documentId;
                Chunk.text := text; Chunk.textHash := Some textHash;
                Chunk.embedding :=
                  match embedding with
                  | Some e => if (0 <? length e)%nat then Some e else None
                  | None => None
                  end;
                Chunk.sourceName := sourceName; Chunk.chunkIndex := chunkIndex;
                Chunk.sourceRole := sourceRole; Chunk.paperKey := paperKey;
                Chunk.documentTitle := documentTitle; Chunk.headingPath := headingPath;
                Chunk.pageStart := pageStart; Chunk.pageEnd := pageEnd;
                Chunk.redundantOf := redundantOf;
                Chunk.redundancyScore := redundancyScore;
                Chunk.isRedundant := Some isRedundant |}
    | _, _, _, _, _ => None
    end.

(** [new Map(documents.map(doc => [doc.id, doc]))]: of two documents with
    the same id the later one stays. *)
Definition by_id (documents : list RagDocument) : gmap string RagDocument :=
  foldl (fun m doc => <[Doc.id doc := doc]> m) ∅ documents.

(** [Array.isArray(value) ? value : []] *)
Definition rows (value : option Json.t) : list Json.t :=
  match value with Some (Json.Arr items) => items | _ => [] end.

(** [readStore()] on the value [rawStore] that [readJsonFile] returns: the
    parsed file, or the empty store when the file is missing or is no JSON
    text. [None] is the TypeError of [rawStore.documents] for [null]. *)
Definition readStore (rawStore : Json.t) : option RagStore :=
  match rawStore with
  | Json.Null => None
  | _ =>
      let documents := omap normalizeDocument (rows (Json.get "documents" rawStore)) in
      let docById := by_id documents in
      let chunks :=
        omap (fun item => normalizeChunk item docById)
          (rows (Json.get "chunks" rawStore)) in
      Some {| documents := documents; chunks := chunks |}
  end.

End WithServices.

(** ** The file that [writeStore] leaves *)

Definition role_name (role : RagSourceRole) : string :=
  match role with
  | publication => "publication" | thesis => "thesis" | web => "web" | other => "other"
  end.

Definition fileType_name (fileType : FileType) : string :=
  match fileType with pdf => "pdf" | docx => "docx" | txt => "txt" end.

Definition status_name (status : DocStatus) : string :=
  match status with active => "active" | failed => "failed" | deleted => "deleted" end.

Definition sourceType_name (sourceType : SourceType) : string :=
  match sourceType with upload => "upload" | crawl => "crawl" end.

Definition json_of_metadata (m : RagDocumentMetadata) : Json.t :=
  Json.object
    [("title", Json.Str <$> title m); ("year", Json.Str <$> year m);
     ("venue", Json.Str <$> venue m); ("chapter", Json.Str <$> chapter m);
     ("section", Json.Str <$> section m); ("subsection", Json.Str <$> subsection m);
     ("topics", (fun items => Json.Arr (Json.Str <$> items)) <$> topics m);
     ("canonicalCitation", Json.Str <$> canonicalCitation m)].

Definition json_of_document (doc : RagDocument) : Json.t :=
  Json.object
    [("id", Some (Json.Str (Doc.id doc)));
     ("ragId", Some (Json.Str (Doc.ragId doc)));
     ("fileName", Some (Json.Str (Doc.fileName doc)));
     ("fileType", Some (Json.Str (fileType_name (Doc.fileType doc))));
     ("status", Some (Json.Str (status_name (Doc.status doc))));
     ("uploadedAt", Some (Json.Str (Doc.uploadedAt doc)));
     ("sourceType", Some (Json.Str (sourceType_name (Doc.sourceType doc))));
     ("sourceRef", Json.Str <$> Doc.sourceRef doc);
     ("documentCount", Some (Json.Num (inject_Z (Doc.documentCount doc))));
     ("sourceRole", Some (Json.Str (role_name (Doc.sourceRole doc))));
     ("metadata", json_of_metadata <$> Doc.metadata doc)].

Definition json_of_chunk (chunk : RagChunk) : Json.t :=
  Json.object
    [("id", Some (Json.Str (Chunk.id chunk)));
     ("ragId", Some (Json.Str (Chunk.ragId chunk)));
     ("documentId", Some (Json.Str (Chunk.documentId chunk)));
     ("text", Some (Json.Str (Chunk.text chunk)));
     ("textHash", Json.Str <$> Chunk.textHash chunk);
     ("embedding", (fun e => Json.Arr (Json.Num <$> e)) <$> Chunk.embedding chunk);
     ("sourceName", Some (Json.Str (Chunk.sourceName chunk)));
     ("chunkIndex", Some (Json.Num (inject_Z (Chunk.chunkIndex chunk))));
     ("sourceRole", Some (Json.Str (role_name (Chunk.sourceRole chunk))));
     ("paperKey", Json.Str <$> Chunk.paperKey chunk);
     ("documentTitle", Json.Str <$> Chunk.documentTitle chunk);
     ("headingPath", Json.Str <$> Chunk.headingPath chunk);
     ("pageStart", (fun n => Json.Num (inject_Z n)) <$> Chunk.pageStart chunk);
     ("pageEnd", (fun n => Json.Num (inject_Z n)) <$> Chunk.pageEnd chunk);
     ("redundantOf", Json.Str <$> Chunk.redundantOf chunk);
     ("redundancyScore", Json.Num <$> Chunk.redundancyScore chunk);
     ("isRedundant", Json.Bool <$> Chunk.isRedundant chunk)].

(** [writeStore(store)] followed by [readJsonFile]: the value that
    [JSON.parse] returns for the text [JSON.stringify(store, null, 2)]. *)
Definition writeStore (store : RagStore) : Json.t :=
  Json.object
    [("documents", Some (Json.Arr (json_of_document <$> documents store)));
     ("chunks", Some (Json.Arr (json_of_chunk <$> chunks store)))].

(** ** Vocabulary for the theorems about the store file *)

(** A string field that is not empty and has no white space at either end. *)
Definition trimmed (s : string) : Prop := s <> "" /\ trim s = s.

End StoreFile.

(* ===================================================================== *)
(** * app/api/rag/route.ts: names of crawled files                        *)
(* ===================================================================== *)

Module Route.
Import Js.

(** The parts of a [URL] object that the route reads. *)
Record Url := {
  hostname : string;
  pathname : string;
  search : string;
}.

(** The parameter [ext: 'txt' | 'pdf']. *)
Inductive Ext := ext_txt | ext_pdf.

Definition ext_name (ext : Ext) : string :=
  match ext with ext_txt => "txt" | ext_pdf => "pdf" end.

(** [ToInt32]: the value modulo 2^32 in the range from -2^31 to 2^31 - 1. *)
Definition to_int32 (z : Z) : Z := (z + 2 ^ 31) mod 2 ^ 32 - 2 ^ 31.

(** One round of the loop of [hashSuffix]:
    [hash = ((hash << 5) - hash) + code; hash |= 0]. *)
Definition hash_step (hash : Z) (c : ascii) : Z :=
  to_int32 (to_int32 (Z.shiftl (to_int32 hash) 5) - hash + Z.of_N (code c)).

Fixpoint hash_loop (hash : Z) (input : string) : Z :=
  match input with
  | EmptyString => hash
  | String c rest => hash_loop (hash_step hash c) rest
  end.

(** The digits of [n.toString(36)]: 0-9 and a-z. *)
Definition digit36 (d : Z) : ascii :=
  if d <? 10 then ascii_of_N (Z.to_N (48 + d)) else ascii_of_N (Z.to_N (87 + d)).

Fixpoint toString36_go (fuel : nat) (n : Z) (acc : string) : string :=
  match fuel with
  | O => acc
  | S fuel' =>
      let acc' := String (digit36 (n mod 36)) acc in
      if n <? 36 then acc' else toString36_go fuel' (n / 36) acc'
  end.

(** [n.toString(36)] for an integer [n >= 0]; a number has no more digits
    than bits. *)
Definition toString36 (n : Z) : string :=
  toString36_go (S (Z.to_nat (Z.log2 n))) n EmptyString.

Definition hashSuffix (input : string) : string :=
  let hash := hash_loop 0 input in
  slice (toString36 (Z.abs hash)) 0 7.

(** The class [a-zA-Z0-9/_-] *)
Definition is_path_char (c : ascii) : bool :=
  is_alnum c || (code c =? 47)%N || (code c =? 95)%N || (code c =? 45)%N.

Definition is_underscore (c : ascii) : bool := (code c =? 95)%N.

(** [s.replace(/^_+/, '')] and [s.replace(/_+$/, '')], the two
    alternatives of [/^_+|_+$/g]. *)
Fixpoint strip_leading (s : string) : string :=
  match s with
  | EmptyString => EmptyString
  | String c r => if is_underscore c then strip_leading r else s
  end.

Fixpoint strip_trailing (s : string) : string :=
  match s with
  | EmptyString => EmptyString
  | String c r =>
      let r' := strip_trailing r in
      if is_underscore c && is_empty r' then EmptyString else String c r'
  end.

(** [/\.[a-z0-9]{2,5}$/i] matches at the start of [s]. *)
Definition extension_here (s : string) : bool :=
  match s with
  | EmptyString => false
  | String c r =>
      (code c =? 46)%N && all_chars is_alnum r
      && (2 <=? String.length r)%nat && (String.length r <=? 5)%nat
  end.

(** [/\.[a-z0-9]{2,5}$/i.test(s)] *)
Fixpoint has_extension (s : string) : bool :=
  extension_here s
  || match s with
     | EmptyString => false
     | String _ r => has_extension r
     end.

(** [s.replace(/(\.[a-z0-9]{2,5})$/i, inserted + '$1')]: the text
    [inserted] is put in front of the extension, at the leftmost place
    where the expression matches. *)
Fixpoint insert_before_extension (inserted : string) (s : string) : string :=
  if extension_here s then inserted +:+ s
  else match s with
       | EmptyString => EmptyString
       | String c r => String c (insert_before_extension inserted r)
       end.

Definition urlToFileName (url : Url) (ext : Ext) : string :=
  let stem :=
    strip_trailing
      (strip_leading
         (Text.replace_chars (fun c => (code c =? 47)%N) "_"
            (Text.replace_chars (fun c => negb (is_path_char c)) "_"
               (hostname url
                +:+ (if String.eqb (pathname url) "/" then "" else pathname url))))) in
  let stem := if truthy stem then stem else "crawled_page" in
  let withExt := if has_extension stem then stem else stem +:+ "." +:+ ext_name ext in
  if negb (truthy (search url)) then withExt
  else insert_before_extension ("_" +:+ hashSuffix (search url)) withExt.

End Route.

(* ===================================================================== *)
(** * lib/server/agentRuntime.ts: intent classifier                       *)
(* ===================================================================== *)

Module Agent.
Import Js.

Inductive RagIntent :=
| paper_specific
| paper_compare
| technical_cross_paper
| research_overview
| future_directions.

Definition intent_name (i : RagIntent) : string :=
  match i with
  | paper_specific => "paper_specific"
  | paper_compare => "paper_compare"
  | technical_cross_paper => "technical_cross_paper"
  | research_overview => "research_overview"
  | future_directions => "future_directions"
  end.

Definition FUTURE_INTENT_TERMS : list string :=
  ["future"; "future directions"; "open problem"; "open problems"; "next step";
   "next steps"; "roadmap"; "limitation"; "limitations"].

Definition OVERVIEW_INTENT_TERMS : list string :=
  ["overall"; "big picture"; "summary"; "journey"; "evolution";
   "problem definition"; "research theme"; "how your work evolved"].

Definition COMPARE_TERMS : list string :=
  ["compare"; "comparison"; "versus"; "vs"; "difference"; "different";
   "better than"; "tradeoff"; "trade-off"].

Definition PAPER_SIGNAL_TERMS : list string :=
  ["paper"; "publication"; "wacv"; "cvpr"; "cvprw"; "iccv"; "iccvw"; "eccv";
   "eccvw"; "tmlr"; "bmvc"; "iclr"; "result"; "results"; "ablation"; "table";
   "metric"; "accuracy"; "miou"; "f1"; "auc"; "dataset"].


Definition normalizeMatchText (value : string) : string :=
  replace_runs is_space
    (trim (replace_runs (fun c => negb (Publications.is_lower_alnum c)) (toLowerCase value))).

Definition tokenizeNormalized (value : string) : list string :=
  filter (fun item => (1 < String.length item)%nat)
    (trim <$> split_char " " (normalizeMatchText value)).

Definition hasAnyTerm (query : string) (terms : list string) : bool :=
  existsb (fun term => includes query term) terms.

Definition is_underscore_or_dash (c : ascii) : bool :=
  (code c =? 95)%N || (code c =? 45)%N.

Definition meta_field (f : RagDocumentMetadata -> option string) (doc : RagDocument)
  : option string :=
  match Doc.metadata doc with Some m => f m | None => None end.

Definition getDocumentAliases (doc : RagDocument) : list string :=
  let fileStem := replace_runs is_underscore_or_dash (strip_extension (Doc.fileName doc)) in
  let aliases : gset string :=
    {[ normalizeMatchText fileStem ]}
    ∪ (if opt_truthy (meta_field title doc)
       then {[ normalizeMatchText (str_or (meta_field title doc) "") ]} else ∅)
    ∪ (if opt_truthy (meta_field canonicalCitation doc)
       then {[ normalizeMatchText (str_or (meta_field canonicalCitation doc) "") ]} else ∅) in
  filter (fun a => truthy a = true) (elements aliases).

Definition Qmax (a b : Q) : Q := if Qltb a b then b else a.

(** Body of the loop over the aliases of one document. *)
Definition score_alias (queryNorm : string) (queryTokens : gset string)
    (bestScore : Q) (alias : string) : Q :=
  if is_empty alias then bestScore
  else if includes queryNorm alias && (6 <=? String.length alias)%nat
  then Qmax bestScore 3
  else
    let aliasTokens :=
      filter (fun token => (2 < String.length token)%nat) (tokenizeNormalized alias) in
    if (length aliasTokens =? 0)%nat then bestScore
    else
      let overlap := length (filter (fun token => token ∈ queryTokens) aliasTokens) in
      let ratio := (Z.of_nat overlap # Pos.of_nat (length aliasTokens))%Q in
      if (2 <=? length aliasTokens)%nat && Qle_bool (6 # 10) ratio
      then Qmax bestScore (2 + ratio)
      else if (length aliasTokens =? 1)%nat && Qle_bool 1 ratio
      then Qmax bestScore (125 # 100)
      else bestScore.

Definition scoreDocumentMention (queryNorm : string) (queryTokens : gset string)
    (doc : RagDocument) : Q :=
  let aliases := getDocumentAliases doc in
  if (length aliases =? 0)%nat then 0%Q
  else foldl (score_alias queryNorm queryTokens) 0%Q aliases.

Definition findMentionedDocuments (query : string) (documents : list RagDocument)
  : list RagDocument :=
  let queryNorm := normalizeMatchText query in
  let queryTokens : gset string := list_to_set (tokenizeNormalized queryNorm) in
  let scored :=
    Rag.sort_ranked
      (filter (fun item => Qltb 0 (snd item) = true)
         ((fun doc => (doc, scoreDocumentMention queryNorm queryTokens doc)) <$> documents)) in
  fst <$> scored.

Definition is_publication_doc (doc : RagDocument) : bool :=
  role_eqb (Doc.sourceRole doc) publication.

(** [mentionedDocuments.filter(doc => doc.sourceRole === 'publication')] *)
Definition publicationMentions (mentionedDocuments : list RagDocument)
  : list RagDocument :=
  filter (fun doc => is_publication_doc doc = true) mentionedDocuments.

Definition detectIntent (query : string) (mentionedDocuments : list RagDocument)
  : RagIntent :=
  let queryNorm := normalizeMatchText query in
  let hasFutureSignals := hasAnyTerm queryNorm FUTURE_INTENT_TERMS in
  let hasOverviewSignals := hasAnyTerm queryNorm OVERVIEW_INTENT_TERMS in
  let hasCompareSignals := hasAnyTerm queryNorm COMPARE_TERMS in
  let paperMentions := publicationMentions mentionedDocuments in
  let hasPaperSignals :=
    (0 <? length paperMentions)%nat || hasAnyTerm queryNorm PAPER_SIGNAL_TERMS in
  if (hasCompareSignals && (1 <=? length paperMentions)%nat)
     || (2 <=? length paperMentions)%nat
  then paper_compare
  else if hasFutureSignals then future_directions
  else if hasOverviewSignals then research_overview
  else if (length paperMentions =? 1)%nat && hasPaperSignals then paper_specific
  else technical_cross_paper.

Definition getIntentMix (intent : RagIntent) : Q * Q :=
  match intent with
  | paper_specific => (1, 0)%Q
  | paper_compare => (1, 0)%Q
  | technical_cross_paper => (75 # 100, 25 # 100)%Q
  | research_overview => (4 # 10, 6 # 10)%Q
  | future_directions => (3 # 10, 7 # 10)%Q
  end.

(* --------------------------------------------------------------------- *)
(** ** Intent-aware retrieval                                            *)
(* --------------------------------------------------------------------- *)

Record IntentContext := {
  intent : RagIntent;
  ctx_chunks : list RagChunk;
  mentionedDocuments : list RagDocument;
  targetDocumentNames : list string;
  retrievalNotes : list string;
}.

(** The loop of [mergeUniqueChunks] with its set [seen]. *)
Fixpoint merge_unique_go (seen : gset string) (chunks : list RagChunk) : list RagChunk :=
  match chunks with
  | [] => []
  | chunk :: rest =>
      if bool_decide (Chunk.id chunk ∈ seen) then merge_unique_go seen rest
      else chunk :: merge_unique_go ({[ Chunk.id chunk ]} ∪ seen) rest
  end.

Definition mergeUniqueChunks (chunks : list RagChunk) : list RagChunk :=
  merge_unique_go ∅ chunks.

(** The loop of [capChunksPerDocument] with its map [counts]. *)
Fixpoint cap_go (maxPerDocument : Z) (counts : gmap string Z) (chunks : list RagChunk)
  : list RagChunk :=
  match chunks with
  | [] => []
  | chunk :: rest =>
      let current := default 0 (counts !! Chunk.documentId chunk) in
      if current >=? maxPerDocument then cap_go maxPerDocument counts rest
      else chunk :: cap_go maxPerDocument
                      (<[Chunk.documentId chunk := current + 1]> counts) rest
  end.

Definition capChunksPerDocument (chunks : list RagChunk) (maxPerDocument : Z)
  : list RagChunk :=
  if maxPerDocument <=? 0 then chunks else cap_go maxPerDocument ∅ chunks.

(** The [while] loop of [interleaveChunks]; every iteration that does not
    leave the loop removes an element of [p] or of [s], so
    [length p + length s + 1] iterations reach the exit. *)
Fixpoint interleave_go (fuel : nat) (topK : Z) (p s merged : list RagChunk)
  : list RagChunk :=
  match fuel with
  | O => merged
  | S fuel' =>
      if (Z.of_nat (length merged) <? topK)
         && ((0 <? length p)%nat || (0 <? length s)%nat)
      then
        let '(merged1, p1) :=
          match p with x :: p' => (merged ++ [x], p') | [] => (merged, p) end in
        if Z.of_nat (length merged1) >=? topK then merged1
        else
          let '(merged2, s1) :=
            match s with y :: s' => (merged1 ++ [y], s') | [] => (merged1, s) end in
          interleave_go fuel' topK p1 s1 merged2
      else merged
  end.

Definition interleaveChunks (primary secondary : list RagChunk) (topK : Z)
  : list RagChunk :=
  interleave_go (S (length primary + length secondary)) topK primary secondary [].

(** [Math.round] on a rational: the nearest integer, halves upwards. *)
Definition math_round (q : Q) : Z := Qfloor (q + (1 # 2)).

(** Two lists taken in turns, the first list first; when one list is used
    up the rest of the other follows. *)
Fixpoint alternate {A} (p s : list A) : list A :=
  match p, s with
  | x :: p', y :: s' => x :: y :: alternate p' s'
  | [], _ => s
  | _, [] => p
  end.

Section WithServices.
Context `{Services}.

Definition mk_params (ragId query : string) (topK : Z)
    (roles : option (list RagSourceRole)) (names : option (list string))
    (excl : bool) (cap : option Z) : Rag.RetrieveParams :=
  {| Rag.p_ragId := ragId; Rag.p_query := query; Rag.p_topK := Some topK;
     Rag.includeSourceRoles := roles; Rag.includeDocumentNames := names;
     Rag.excludeRedundant := Some excl; Rag.maxChunksPerDocument := cap |}.

(** The strict query of the [paper_specific] branch. *)
Definition strict_query (store : RagStore) (ragId query : string) (topK : Z)
    (targetName : string) : list RagChunk :=
  Rag.retrieveRelevantChunks store
    (mk_params ragId query (Z.max 2 topK) (Some [publication]) (Some [targetName])
       true (Some (Z.max 2 (Z.min 4 topK)))).

(** The seeding loop of the [paper_compare] branch. *)
Definition seed_chunks (store : RagStore) (ragId query : string)
    (targetDocumentNames : list string) : list RagChunk :=
  documentName ← targetDocumentNames;
  match Rag.retrieveRelevantChunks store
          (mk_params ragId query 1 (Some [publication]) (Some [documentName])
             true (Some 1)) with
  | seed0 :: _ => [seed0]
  | [] => []
  end.

Definition compare_merged (store : RagStore) (ragId query : string) (topK : Z)
    (targetDocumentNames : list string) : list RagChunk :=
  let seededChunks := seed_chunks store ragId query targetDocumentNames in
  let additional :=
    Rag.retrieveRelevantChunks store
      (mk_params ragId query (Z.max topK (topK - Z.of_nat (length seededChunks)))
         (Some [publication]) (Some targetDocumentNames) true (Some 2)) in
  take (Z.to_nat topK)
    (capChunksPerDocument (mergeUniqueChunks (seededChunks ++ additional)) 2).

Definition is_overview_or_future (i : RagIntent) : bool :=
  match i with research_overview | future_directions => true | _ => false end.

Definition is_technical (i : RagIntent) : bool :=
  match i with technical_cross_paper => true | _ => false end.

Definition is_compare (i : RagIntent) : bool :=
  match i with paper_compare => true | _ => false end.

Definition is_paper_specific (i : RagIntent) : bool :=
  match i with paper_specific => true | _ => false end.

(** The two targets of the mixed path, after all the adjustments. *)
Definition mix_targets (intent : RagIntent) (topK : Z)
    (hasPublicationDocs hasThesisDocs : bool) : Z * Z :=
  let mix := getIntentMix intent in
  let publicationTarget :=
    if hasPublicationDocs then math_round (inject_Z topK * fst mix) else 0 in
  let thesisTarget := if hasThesisDocs then topK - publicationTarget else 0 in
  let '(publicationTarget, thesisTarget) :=
    if is_overview_or_future intent && hasPublicationDocs
    then (Z.max 1 publicationTarget,
          if hasThesisDocs then Z.max 0 (topK - Z.max 1 publicationTarget) else 0)
    else (publicationTarget, thesisTarget) in
  let '(publicationTarget, thesisTarget) :=
    if is_technical intent && hasPublicationDocs
    then (Z.max 1 publicationTarget,
          if hasThesisDocs then Z.max 0 (topK - Z.max 1 publicationTarget) else 0)
    else (publicationTarget, thesisTarget) in
  let publicationTarget := if hasPublicationDocs then publicationTarget else 0 in
  let thesisTarget := if hasThesisDocs then thesisTarget else 0 in
  (publicationTarget, thesisTarget).

(** The mixed path up to and including the backfill: [combined]. *)
Definition mixed_combined (store : RagStore) (ragId query : string) (topK : Z)
    (intent : RagIntent) (targetDocumentNames : list string)
    (publicationTarget thesisTarget : Z) : list RagChunk :=
  let thesisExcludeRedundant := negb (is_overview_or_future intent) in
  let publicationChunks :=
    if 0 <? publicationTarget then
      Rag.retrieveRelevantChunks store
        (mk_params ragId query publicationTarget (Some [publication])
           (if is_compare intent && (0 <? length targetDocumentNames)%nat
            then Some targetDocumentNames else None)
           true (Some 2))
    else [] in
  let thesisChunks :=
    if 0 <? thesisTarget then
      Rag.retrieveRelevantChunks store
        (mk_params ragId query thesisTarget (Some [thesis]) None
           thesisExcludeRedundant (Some 2))
    else [] in
  let preferThesisFirst := is_overview_or_future intent in
  let combined :=
    if preferThesisFirst
    then interleaveChunks thesisChunks publicationChunks topK
    else interleaveChunks publicationChunks thesisChunks topK in
  let combined := capChunksPerDocument (mergeUniqueChunks combined) 2 in
  if Z.of_nat (length combined) <? topK then
    let backfill :=
      Rag.retrieveRelevantChunks store
        (mk_params ragId query (topK * 2) (Some [publication; thesis]) None
           false (Some 2)) in
    capChunksPerDocument (mergeUniqueChunks (combined ++ backfill)) 2
  else combined.

(** The last rung: no role filter, no name filter, no per-document cap. *)
Definition unfiltered_fallback (store : RagStore) (ragId query : string) (topK : Z)
  : list RagChunk :=
  Rag.retrieveRelevantChunks store
    (mk_params ragId query topK None None false None).

(** The body of the [paper_specific] branch: both of its returns. *)
Definition strict_context (store : RagStore) (ragId query : string) (topK : Z)
    (intent : RagIntent) (mentionedDocuments : list RagDocument)
    (targetName : string) : IntentContext :=
  let strictChunks := strict_query store ragId query topK targetName in
  if (0 <? length strictChunks)%nat then
    {| intent := intent;
       ctx_chunks := take (Z.to_nat (Z.max 2 topK)) strictChunks;
       mentionedDocuments := mentionedDocuments;
       targetDocumentNames := [targetName];
       retrievalNotes := ["paper_specific hard filter applied: " +:+ targetName] |}
  else
    {| intent := intent;
       ctx_chunks := [];
       mentionedDocuments := mentionedDocuments;
       targetDocumentNames := [targetName];
       retrievalNotes :=
         ["paper_specific hard filter had no results for " +:+ targetName] |}.

(** The rest of the function: the [paper_compare] branch, the mixed path
    with its backfill, and the unfiltered fallback. *)
Definition ladder_context (store : RagStore) (ragId query : string) (topK : Z)
    (intent : RagIntent) (mentionedDocuments : list RagDocument)
    (targetDocumentNames : list string) (hasPublicationDocs hasThesisDocs : bool)
  : IntentContext :=
  let merged :=
    if is_compare intent && (0 <? length targetDocumentNames)%nat
    then compare_merged store ragId query topK targetDocumentNames
    else [] in
  if (0 <? length merged)%nat then
    {| intent := intent;
       ctx_chunks := merged;
       mentionedDocuments := mentionedDocuments;
       targetDocumentNames := targetDocumentNames;
       retrievalNotes :=
         ["paper_compare targeted papers: " +:+ join ", " targetDocumentNames] |}
  else
    let '(publicationTarget, thesisTarget) :=
      mix_targets intent topK hasPublicationDocs hasThesisDocs in
    let combined :=
      mixed_combined store ragId query topK intent targetDocumentNames
        publicationTarget thesisTarget in
    let finalChunks := take (Z.to_nat topK) combined in
    if (0 <? length finalChunks)%nat then
      {| intent := intent;
         ctx_chunks := finalChunks;
         mentionedDocuments := mentionedDocuments;
         targetDocumentNames := targetDocumentNames;
         retrievalNotes :=
           ["intent=" +:+ intent_name intent
            +:+ " mix publication=" +:+ pretty publicationTarget
            +:+ " thesis=" +:+ pretty thesisTarget
            +:+ " topK=" +:+ pretty topK] |}
    else
      {| intent := intent;
         ctx_chunks := unfiltered_fallback store ragId query topK;
         mentionedDocuments := mentionedDocuments;
         targetDocumentNames := targetDocumentNames;
         retrievalNotes :=
           ["intent=" +:+ intent_name intent +:+ " fallback=unfiltered"] |}.

Definition retrieveIntentContext (store : RagStore) (ragId query : string)
    (params_topK : Z) : IntentContext :=
  let topK := Z.max 1 params_topK in
  let documents := Rag.listRagDocuments store ragId in
  let mentionedDocuments := findMentionedDocuments query documents in
  let intent := detectIntent query mentionedDocuments in
  let publicationTargets := take 4 (publicationMentions mentionedDocuments) in
  let targetDocumentNames := Doc.fileName <$> publicationTargets in
  let hasPublicationDocs := existsb is_publication_doc documents in
  let hasThesisDocs :=
    existsb (fun doc => role_eqb (Doc.sourceRole doc) thesis) documents in
  (* [intent === 'paper_specific' && targetDocumentNames.length > 0], with
     [targetName = targetDocumentNames[0]] *)
  match (if is_paper_specific intent then targetDocumentNames else []) with
  | targetName :: _ =>
      strict_context store ragId query topK intent mentionedDocuments targetName
  | [] =>
      ladder_context store ragId query topK intent mentionedDocuments
        targetDocumentNames hasPublicationDocs hasThesisDocs
  end.

(** The namespace holds a chunk of publication or thesis role. *)
Definition has_primary_chunk (store : RagStore) (ragId : string) : Prop :=
  exists c, c ∈ chunks store /\ Chunk.ragId c = ragId
            /\ (Chunk.sourceRole c = publication \/ Chunk.sourceRole c = thesis).

(** The rungs of the ladder, as they determine the returned chunks. *)
Inductive Rung (store : RagStore) (ragId query : string) (topK : Z)
    (ctx : IntentContext) : Prop :=
| rung_strict X rest :
    intent ctx = paper_specific ->
    publicationMentions (mentionedDocuments ctx) = X :: rest ->
    targetDocumentNames ctx = [Doc.fileName X] ->
    ctx_chunks ctx
    = take (Z.to_nat (Z.max 2 topK)) (strict_query store ragId query topK (Doc.fileName X)) ->
    Rung store ragId query topK ctx
| rung_compare names :
    (intent ctx = paper_specific -> publicationMentions (mentionedDocuments ctx) = []) ->
    ctx_chunks ctx = compare_merged store ragId query topK names ->
    Rung store ragId query topK ctx
| rung_mixed it names pt tt :
    (intent ctx = paper_specific -> publicationMentions (mentionedDocuments ctx) = []) ->
    ctx_chunks ctx
    = take (Z.to_nat topK) (mixed_combined store ragId query topK it names pt tt) ->
    Rung store ragId query topK ctx
| rung_fallback it names pt tt :
    (intent ctx = paper_specific -> publicationMentions (mentionedDocuments ctx) = []) ->
    take (Z.to_nat topK) (mixed_combined store ragId query topK it names pt tt) = [] ->
    ctx_chunks ctx = unfiltered_fallback store ragId query topK ->
    Rung store ragId query topK ctx.

End WithServices.

(* --------------------------------------------------------------------- *)
(** ** Evidence references                                               *)
(* --------------------------------------------------------------------- *)

Inductive EvidenceSourceLabel := PAPER | THESIS | THESIS_REDUNDANT | WEB | SOURCE.

Definition label_text (l : EvidenceSourceLabel) : string :=
  match l with
  | PAPER => "PAPER"
  | THESIS => "THESIS"
  | THESIS_REDUNDANT => "THESIS-REDUNDANT"
  | WEB => "WEB"
  | SOURCE => "SOURCE"
  end.

Definition label_eqb (a b : EvidenceSourceLabel) : bool :=
  match a, b with
  | PAPER, PAPER | THESIS, THESIS | THESIS_REDUNDANT, THESIS_REDUNDANT
  | WEB, WEB | SOURCE, SOURCE => true
  | _, _ => false
  end.

Record EvidenceReference := {
  marker : string;
  sourceLabel : EvidenceSourceLabel;
  ref_sourceName : string;
  ref_title : string;
  ref_venue : string;
  ref_year : string;
  chunkId : string;
}.

Definition chunkSourceLabel (chunk : RagChunk) : string :=
  if role_eqb (Chunk.sourceRole chunk) publication then "PAPER"
  else if role_eqb (Chunk.sourceRole chunk) thesis && Chunk.redundant chunk
          && opt_truthy (Chunk.redundantOf chunk)
  then "THESIS-REDUNDANT"
  else if role_eqb (Chunk.sourceRole chunk) thesis then "THESIS"
  else if role_eqb (Chunk.sourceRole chunk) web then "WEB"
  else "SOURCE".

Definition asEvidenceSourceLabel (label : string) : EvidenceSourceLabel :=
  if bool_decide (label = "PAPER") then PAPER
  else if bool_decide (label = "THESIS") then THESIS
  else if bool_decide (label = "THESIS-REDUNDANT") then THESIS_REDUNDANT
  else if bool_decide (label = "WEB") then WEB
  else SOURCE.

Definition markerPrefixForSource (label : EvidenceSourceLabel) : string :=
  match label with
  | PAPER => "P"
  | THESIS => "T"
  | THESIS_REDUNDANT => "TR"
  | WEB => "W"
  | SOURCE => "S"
  end.

(** [new Map(documents.map(doc => [doc.id, doc]))]: a later document with
    the same id replaces an earlier one. *)
Definition documents_by_id (documents : list RagDocument) : gmap string RagDocument :=
  foldl (fun m doc => <[Doc.id doc := doc]> m) ∅ documents.

(** [a || b || c] on optional strings, ending in a string. *)
Definition first_truthy (cands : list (option string)) (last : string) : string :=
  foldr str_or last cands.

Definition resolveChunkCitationFields (chunk : RagChunk) (label : EvidenceSourceLabel)
    (documentsById : gmap string RagDocument) : string * string * string * string :=
  let sourceDoc := documentsById !! Chunk.documentId chunk in
  let docField (f : RagDocumentMetadata -> option string) : option string :=
    match sourceDoc with Some d => meta_field f d | None => None end in
  let docFileName := Doc.fileName <$> sourceDoc in
  let sourceName := str_or docFileName (Chunk.sourceName chunk) in
  let plainTitle :=
    first_truthy [docField title; Chunk.documentTitle chunk] (Chunk.sourceName chunk) in
  match label with
  | PAPER =>
      let canonical :=
        Publications.resolveCanonicalPublicationFromCandidates
          [str_or (docField title) ""; str_or (docField canonicalCitation) "";
           str_or docFileName ""; Chunk.sourceName chunk;
           str_or (Chunk.documentTitle chunk) ""; str_or (Chunk.paperKey chunk) ""] in
      (sourceName,
       first_truthy [Publications.pub_title <$> canonical; docField title;
                     Chunk.documentTitle chunk] (Chunk.sourceName chunk),
       first_truthy [Publications.pub_venue <$> canonical; docField venue] "N/A",
       first_truthy [Publications.pub_year <$> canonical; docField year] "N/A")
  | THESIS | THESIS_REDUNDANT =>
      (sourceName, plainTitle, str_or (docField venue) "N/A", str_or (docField year) "N/A")
  | WEB =>
      (sourceName, plainTitle, "WEB", str_or (docField year) "N/A")
  | SOURCE =>
      (sourceName, plainTitle, str_or (docField venue) "N/A", str_or (docField year) "N/A")
  end.

(** The loop of [buildEvidenceReferences] with its map [counters]. *)
Fixpoint build_refs_go (documentsById : gmap string RagDocument)
    (counters : gmap string nat) (chunks : list RagChunk) : list EvidenceReference :=
  match chunks with
  | [] => []
  | chunk :: rest =>
      let label := asEvidenceSourceLabel (chunkSourceLabel chunk) in
      let prefix := markerPrefixForSource label in
      let current := default 0%nat (counters !! prefix) in
      let next := S current in
      let '(sourceName, title, venue, year) :=
        resolveChunkCitationFields chunk label documentsById in
      {| marker := prefix +:+ pretty next; sourceLabel := label;
         ref_sourceName := sourceName; ref_title := title; ref_venue := venue;
         ref_year := year; chunkId := Chunk.id chunk |}
      :: build_refs_go documentsById (<[prefix := next]> counters) rest
  end.

Definition buildEvidenceReferences (chunks : list RagChunk) (documents : list RagDocument)
  : list EvidenceReference :=
  build_refs_go (documents_by_id documents) ∅ chunks.


Definition NL : string := String (ascii_of_N 10) EmptyString.


Record Citation := { c_title : string; c_venue : string; c_year : string }.

Fixpoint dedupe_go (seen : gset string) (taken : nat) (refs : list EvidenceReference)
  : list Citation :=
  match refs with
  | [] => []
  | ref :: rest =>
      let key := label_text (sourceLabel ref) +:+ "::" +:+ ref_title ref
                 +:+ "::" +:+ ref_year ref +:+ "::" +:+ ref_venue ref in
      if bool_decide (key ∈ seen) then dedupe_go seen taken rest
      else
        {| c_title := ref_title ref; c_venue := ref_venue ref; c_year := ref_year ref |}
        :: (if (8 <=? S taken)%nat then []
            else dedupe_go ({[ key ]} ∪ seen) (S taken) rest)
  end.

Definition dedupeCitationObjects (refs : list EvidenceReference) : list Citation :=
  dedupe_go ∅ 0 refs.

(* --------------------------------------------------------------------- *)
(** ** Citation markers                                                  *)
(* --------------------------------------------------------------------- *)

Definition LBRACKET : ascii := ascii_of_N 91.
Definition RBRACKET : ascii := ascii_of_N 93.

(** The longest prefix of digits and what follows it: greedy [\d*]. *)
Fixpoint span_digits (s : string) : string * string :=
  match s with
  | EmptyString => (EmptyString, EmptyString)
  | String c r =>
      if is_digit c then let '(ds, rest) := span_digits r in (String c ds, rest)
      else (EmptyString, s)
  end.

(** One alternative [X\d+\]] of the marker expression, tried on the text
    after the opening bracket. The digits are followed by a closing bracket
    or the alternative fails: a shorter digit run is followed by a digit. *)
Definition marker_alternative (prefix : string) (r : string) : option (string * string) :=
  if startsWith prefix r then
    let '(ds, rest) := span_digits (slice_from (String.length prefix) r) in
    match ds, rest with
    | String _ _, String c rest' =>
        if ascii_eqb c RBRACKET then Some (prefix +:+ ds, rest') else None
    | _, _ => None
    end
  else None.

Definition MARKER_PREFIXES : list string := ["TR"; "P"; "T"; "W"; "S"].

(** A match of [/\[(TR\d+|P\d+|T\d+|W\d+|S\d+)\]/] at the start of [s]:
    the captured marker and the text after the match. *)
Definition marker_at (s : string) : option (string * string) :=
  match s with
  | String c r =>
      if ascii_eqb c LBRACKET
      then head (omap (fun prefix => marker_alternative prefix r) MARKER_PREFIXES)
      else None
  | EmptyString => None
  end.

(** [text.replace(/\[(...)\]/g, callback)]: one pass from left to right; the
    search resumes after each match, and the replacement text is not
    searched again. A match is shorter than the text it is found in, so
    [String.length text] steps cover the text. *)
Fixpoint strip_go (fuel : nat) (validMarkers : gset string) (s : string) : string :=
  match fuel with
  | O => s
  | S fuel' =>
      match marker_at s with
      | Some (m, rest) =>
          if bool_decide (m ∈ validMarkers)
          then String LBRACKET (m +:+ String RBRACKET (strip_go fuel' validMarkers rest))
          else strip_go fuel' validMarkers rest
      | None =>
          match s with
          | EmptyString => EmptyString
          | String c r => String c (strip_go fuel' validMarkers r)
          end
      end
  end.

Definition stripUnknownMarkers (text : string) (validMarkers : gset string) : string :=
  strip_go (String.length text) validMarkers text.



(* --------------------------------------------------------------------- *)
(** ** Evidence contract                                                 *)
(* --------------------------------------------------------------------- *)






Definition SECTION_MARKERS : list string :=
  [NL +:+ "Primary evidence:";
   NL +:+ "### Evidence Notes";
   NL +:+ "### Evidence";
   NL +:+ "Evidence Notes" +:+ NL;
   NL +:+ "Evidence" +:+ NL;
   NL +:+ "Citations" +:+ NL;
   NL +:+ "References" +:+ NL].

(** Body of the loop that keeps the smallest index found. *)
Definition earliest (text : string) (cutIndex : option nat) (m : string) : option nat :=
  match indexOf m text, cutIndex with
  | Some index, None => Some index
  | Some index, Some cut => if (index <? cut)%nat then Some index else cutIndex
  | None, _ => cutIndex
  end.

Definition stripModelProvidedEvidenceSections (text : string) : string :=
  match foldl (earliest text) None SECTION_MARKERS with
  | None => trim text
  | Some cutIndex => trim (slice text 0 (Z.of_nat cutIndex))
  end.

Definition refs_with (l : EvidenceSourceLabel) (refs : list EvidenceReference)
  : list EvidenceReference :=
  filter (fun ref => label_eqb (sourceLabel ref) l = true) refs.




(** A marker of the form the expression accepts occurs in [s] outside the
    set [validMarkers]. *)
Fixpoint hasUnknownMarker (validMarkers : gset string) (s : string) : bool :=
  match s with
  | EmptyString => false
  | String _ r =>
      match marker_at s with
      | Some (m, _) => negb (bool_decide (m ∈ validMarkers))
      | None => false
      end
      || hasUnknownMarker validMarkers r
  end.

(** ** Vocabulary for the marker theorems *)

(** The characters a marker name is made of. *)
Definition name_char (c : ascii) : bool :=
  is_digit c || existsb (ascii_eqb c) ["T"; "R"; "P"; "W"; "S"]%char.


Definition not_lbracket (c : ascii) : bool := negb (ascii_eqb c LBRACKET).

Fixpoint skip_name (s : string) : string :=
  match s with
  | EmptyString => EmptyString
  | String c r => if name_char c then skip_name r else s
  end.

Definition starts_with_bracket (s : string) : bool :=
  match s with
  | String c _ => ascii_eqb c LBRACKET
  | EmptyString => false
  end.

(** No opening bracket of the text is followed, after marker-name characters
    only, by another opening bracket. *)
Fixpoint no_nested_bracket (s : string) : bool :=
  match s with
  | EmptyString => true
  | String c r =>
      (not_lbracket c || negb (starts_with_bracket (skip_name r)))
      && no_nested_bracket r
  end.




(** The citation object made of a reference. *)
Definition citation_of (ref : EvidenceReference) : Citation :=
  {| c_title := ref_title ref; c_venue := ref_venue ref; c_year := ref_year ref |}.

(** The characters that the match and catalog normalizers leave. *)
Definition is_key_char (c : ascii) : bool :=
  Publications.is_lower_alnum c || ascii_eqb c " ".

End Agent.

(* ===================================================================== *)
(** * Concrete corpora used by the examples below                         *)
(* ===================================================================== *)

Module Scenario.
Import Js.

(** A stand-in for the external services: the digest is the identity (a
    digest without collisions), no embedding is available, and no
    environment variable is set. *)
Definition services : Services :=
  {| sha1_hex := fun s => s;
     math_sqrt := fun q => q;
     ollamaEmbedding := fun _ => None;
     RAG_DEDUP_COSINE_THRESHOLD := None;
     RAG_DEDUP_LEXICAL_THRESHOLD := None;
     RAG_DEDUP_NOVEL_SENTENCE_THRESHOLD := None;
     RAG_REDUNDANT_THESIS_PENALTY := None;
     DEFAULT_RAG_TOP_K := 5 |}.

Definition chunk (id ragId documentId text : string) (role : RagSourceRole)
    (sourceName : string) : RagChunk :=
  {| Chunk.id := id; Chunk.ragId := ragId; Chunk.documentId := documentId;
     Chunk.text := text; Chunk.textHash := None; Chunk.embedding := None;
     Chunk.sourceName := sourceName; Chunk.chunkIndex := 0;
     Chunk.sourceRole := role; Chunk.paperKey := None;
     Chunk.documentTitle := None; Chunk.headingPath := None;
     Chunk.pageStart := None; Chunk.pageEnd := None;
     Chunk.redundantOf := None; Chunk.redundancyScore := None;
     Chunk.isRedundant := Some false |}.

Definition document (id ragId fileName : string) (role : RagSourceRole)
    (meta : option RagDocumentMetadata) : RagDocument :=
  {| Doc.id := id; Doc.ragId := ragId; Doc.fileName := fileName;
     Doc.fileType := pdf; Doc.status := active; Doc.uploadedAt := "";
     Doc.sourceType := upload; Doc.sourceRef := None; Doc.documentCount := 0;
     Doc.sourceRole := role; Doc.metadata := meta |}.

(** One publication with three chunks, and a web page. *)
Definition segnet_doc : RagDocument := document "d1" "ns" "segnet.pdf" publication None.

Definition segnet_store : RagStore :=
  {| documents := [segnet_doc; document "d2" "ns" "notes.txt" web None];
     chunks := [chunk "c1" "ns" "d1" "segnet one" publication "segnet.pdf";
                chunk "c2" "ns" "d1" "segnet two" publication "segnet.pdf";
                chunk "c3" "ns" "d1" "segnet three" publication "segnet.pdf";
                chunk "w1" "ns" "d2" "web" web "notes.txt"] |}.

(** A namespace that holds a crawled page only. *)
Definition web_store : RagStore :=
  {| documents := [document "d2" "ns" "notes.txt" web None];
     chunks := [chunk "w1" "ns" "d2" "page one" web "notes.txt";
                chunk "w2" "ns" "d2" "page two" web "notes.txt";
                chunk "w3" "ns" "d2" "page three" web "notes.txt";
                chunk "w4" "ns" "d2" "page four" web "notes.txt";
                chunk "w5" "ns" "d2" "page five" web "notes.txt"] |}.

(** A thesis chunk and a publication chunk that differ in their last
    character only: the hashes differ, the word 5-grams coincide. *)
Definition zeta_publication : RagChunk :=
  chunk "p1" "ns" "d1" "alpha beta gamma delta epsilon zeta." publication "paper.pdf".

Definition zeta_thesis : RagChunk :=
  chunk "t1" "ns" "d3" "alpha beta gamma delta epsilon zeta!" thesis "thesis.pdf".

Definition punctuation_store : RagStore :=
  {| documents := []; chunks := [zeta_publication; zeta_thesis] |}.

Definition with_embedding (e : list Q) (c : RagChunk) : RagChunk :=
  {| Chunk.id := Chunk.id c; Chunk.ragId := Chunk.ragId c;
     Chunk.documentId := Chunk.documentId c; Chunk.text := Chunk.text c;
     Chunk.textHash := Chunk.textHash c; Chunk.embedding := Some e;
     Chunk.sourceName := Chunk.sourceName c; Chunk.chunkIndex := Chunk.chunkIndex c;
     Chunk.sourceRole := Chunk.sourceRole c; Chunk.paperKey := Chunk.paperKey c;
     Chunk.documentTitle := Chunk.documentTitle c;
     Chunk.headingPath := Chunk.headingPath c;
     Chunk.pageStart := Chunk.pageStart c; Chunk.pageEnd := Chunk.pageEnd c;
     Chunk.redundantOf := Chunk.redundantOf c;
     Chunk.redundancyScore := Chunk.redundancyScore c;
     Chunk.isRedundant := Chunk.isRedundant c |}.

(** The same two chunks with the embedding (1, 0); [math_sqrt] of
    [services] is exact on the norms 0 and 1 that occur here. *)
Definition embedded_store : RagStore :=
  {| documents := [];
     chunks := [with_embedding [1; 0]%Q zeta_publication;
                with_embedding [1; 0]%Q zeta_thesis] |}.

(** Two publication chunks with the same normalized content, the first
    with a space where the second has a line feed, and a thesis chunk equal
    to the second. *)
Definition two_lines : string :=
  "alpha beta gamma delta epsilon zeta" +:+ String (ascii_of_N 10) ""
  +:+ "eta theta iota kappa lambda mu".

Definition one_line : string :=
  "alpha beta gamma delta epsilon zeta eta theta iota kappa lambda mu".

Definition spaced_publication : RagChunk :=
  chunk "p1" "ns" "d1" one_line publication "first.pdf".

Definition lined_publication : RagChunk :=
  chunk "p2" "ns" "d2" two_lines publication "second.pdf".

Definition lined_thesis : RagChunk :=
  chunk "t1" "ns" "d3" two_lines thesis "thesis.pdf".

Definition newline_store : RagStore :=
  {| documents := [];
     chunks := [spaced_publication; lined_publication; lined_thesis] |}.

Definition identical_store : RagStore :=
  {| documents := []; chunks := [lined_publication; lined_thesis] |}.




(** A second upload of the publication of [segnet_store], an upload of
    white space under the same name, and the identifiers that the platform
    hands out during it. *)
Definition upload_of (text : string) : Store.IngestParams :=
  {| Store.i_ragId := "ns"; Store.i_fileName := "segnet.pdf";
     Store.i_fileType := pdf; Store.i_text := text;
     Store.i_sourceType := upload; Store.i_sourceRef := None;
     Store.i_sourceRole := None; Store.i_metadata := None |}.

Definition segnet_upload : Store.IngestParams := upload_of "segnet revised".

Definition blank_upload : Store.IngestParams :=
  upload_of (String " " (String (ascii_of_N 10) (String " " ""))).

Definition fresh_ids : Store.Fresh :=
  {| Store.documentUUID := "d9";
     Store.chunkUUID := fun i => "c9-" +:+ pretty i;
     Store.timestamp := "2025-01-01T00:00:00.000Z" |}.

(** A stand-in for [Number.parseInt] and [Number.parseFloat] that reads no
    number from any string: the rows below hold their numbers as numbers. *)
Definition numbers : Numbers :=
  {| parseInt10 := fun _ => None; parseFloat := fun _ => None |}.

(** A store file. The first row of each array lacks a field that the store
    needs; the other rows carry white space around some fields, a year that
    is no string and an embedding with an entry that is no number. *)
Definition stored_file : Json.t :=
  Json.Obj
    [("documents",
      Json.Arr
        [Json.Obj [("id", Json.Str "d0")];
         Json.Obj
           [("id", Json.Str " d1 "); ("ragId", Json.Str "ns");
            ("fileName", Json.Str "segnet.pdf"); ("fileType", Json.Str "pdf");
            ("status", Json.Str "active"); ("documentCount", Json.Num 1);
            ("metadata",
             Json.Obj [("title", Json.Str " SegNet "); ("year", Json.Num 2017)])]]);
     ("chunks",
      Json.Arr
        [Json.Str "c0";
         Json.Obj
           [("id", Json.Str "c1"); ("ragId", Json.Str "ns");
            ("documentId", Json.Str "d1"); ("text", Json.Str " segnet one ");
            ("sourceName", Json.Str "segnet.pdf");
            ("embedding", Json.Arr [Json.Num 1; Json.Null])]])].

End Scenario.

(* ===================================================================== *)
(** * Intent classifier                                                   *)
(* ===================================================================== *)

Module IntentFacts.
Import Js Agent.

Lemma detectIntent_cases query mentioned :
  let queryNorm := normalizeMatchText query in
  let n := length (publicationMentions mentioned) in
  detectIntent query mentioned =
    if (hasAnyTerm queryNorm COMPARE_TERMS && (1 <=? n)%nat) || (2 <=? n)%nat
    then paper_compare
    else if hasAnyTerm queryNorm FUTURE_INTENT_TERMS then future_directions
    else if hasAnyTerm queryNorm OVERVIEW_INTENT_TERMS then research_overview
    else if (n =? 1)%nat then paper_specific
    else technical_cross_paper.
Proof.
  cbv zeta. unfold detectIntent.
  destruct (length (publicationMentions mentioned)) as [|[|k]]; simpl;
    rewrite ?andb_false_r, ?andb_true_r, ?orb_false_r, ?orb_true_r; reflexivity.
Qed.

(** C7 (as amended). A query that mentions exactly one publication document
    and has no comparison, future or overview term is classified
    [paper_specific], whether or not it contains a paper-signal term: the
    mention itself counts as the paper signal. *)
Theorem detectIntent_single_publication query mentioned :
  length (publicationMentions mentioned) = 1%nat ->
  hasAnyTerm (normalizeMatchText query) COMPARE_TERMS = false ->
  hasAnyTerm (normalizeMatchText query) FUTURE_INTENT_TERMS = false ->
  hasAnyTerm (normalizeMatchText query) OVERVIEW_INTENT_TERMS = false ->
  detectIntent query mentioned = paper_specific.
Proof.
  intros Hone Hcmp Hfut Hov.
  rewrite detectIntent_cases. cbv zeta.
  rewrite Hone, Hcmp, Hfut, Hov. reflexivity.
Qed.

Lemma detectIntent_single_publication_witness :
  detectIntent "explain segnet" [Scenario.segnet_doc] = paper_specific.
Proof.
  apply (detectIntent_single_publication "explain segnet" [Scenario.segnet_doc]);
    vm_compute; reflexivity.
Defined.

(** The classification demanded for a query without a paper-signal term,
    [technical_cross_paper], is not what the classifier returns. *)
Lemma detectIntent_paper_signal_counterexample :
  ~ (forall query mentioned,
       length (publicationMentions mentioned) = 1%nat ->
       hasAnyTerm (normalizeMatchText query) COMPARE_TERMS = false ->
       hasAnyTerm (normalizeMatchText query) FUTURE_INTENT_TERMS = false ->
       hasAnyTerm (normalizeMatchText query) OVERVIEW_INTENT_TERMS = false ->
       (detectIntent query mentioned = paper_specific ->
        hasAnyTerm (normalizeMatchText query) PAPER_SIGNAL_TERMS = true)
       /\ (hasAnyTerm (normalizeMatchText query) PAPER_SIGNAL_TERMS = false ->
           detectIntent query mentioned = technical_cross_paper)).
Proof.
  intros Hclaim.
  destruct (Hclaim "explain segnet" [Scenario.segnet_doc]) as [Hsig _];
    try (vm_compute; reflexivity).
  specialize (Hsig ltac:(vm_compute; reflexivity)).
  vm_compute in Hsig. discriminate.
Qed.

End IntentFacts.

(* ===================================================================== *)
(** * Chunker                                                             *)
(* ===================================================================== *)

Module ChunkerFacts.
Import Js Text.

Lemma trimEnd_empty_or_last s :
  trimEnd s = EmptyString \/ exists c r, trimEnd s = String c r.
Proof. destruct (trimEnd s); eauto. Qed.

Lemma trimEnd_idem s : trimEnd (trimEnd s) = trimEnd s.
Proof.
  induction s as [|c r IH]; simpl; [reflexivity|].
  destruct (is_space c && is_empty (trimEnd r)) eqn:E; simpl; [reflexivity|].
  rewrite IH, E. reflexivity.
Qed.

Lemma trimStart_fixed s :
  match s with String c _ => is_space c = false | EmptyString => True end ->
  trimStart s = s.
Proof. destruct s as [|c r]; simpl; [reflexivity|]. intros ->. reflexivity. Qed.

Lemma trimStart_head s :
  match trimStart s with String c _ => is_space c = false | EmptyString => True end.
Proof.
  induction s as [|c r IH]; simpl; [exact I|].
  destruct (is_space c) eqn:E; [exact IH | exact E].
Qed.

Lemma trimEnd_head s :
  match s with String c _ => is_space c = false | EmptyString => True end ->
  match trimEnd s with String c _ => is_space c = false | EmptyString => True end.
Proof.
  destruct s as [|c r]; simpl; [trivial|]. intros Hc. rewrite Hc. simpl. exact Hc.
Qed.

(** [trim] returns a trimmed string. *)
Lemma trim_idem s : trim (trim s) = trim s.
Proof.
  unfold trim.
  rewrite (trimStart_fixed (trimEnd (trimStart s))).
  - apply trimEnd_idem.
  - apply trimEnd_head, trimStart_head.
Qed.

(** The loop makes no progress when the overlap is as large as the chunk:
    no number of iterations reaches an exit. *)
Lemma chunkLoop_stuck fuel acc : chunkLoop fuel "abcdefghij" 5 5 0 acc = None.
Proof.
  revert acc. induction fuel as [|fuel IH]; intros acc; [reflexivity|].
  cbn [chunkLoop].
  change (0 <? len "abcdefghij") with true. cbv iota.
  change (Z.min (0 + 5) (len "abcdefghij")) with 5.
  change (5 >=? len "abcdefghij") with false. cbv iota zeta.
  change (Z.max 0 (5 - 5)) with 0.
  apply IH.
Qed.

(** C8. With chunk size 5 and overlap 5 the chunker does not return on a
    text of ten characters: after every iteration [start] is 0 again. *)
Theorem chunkText_overlap_diverges :
  forall fuel, chunkText fuel "abcdefghij" 5 5 = None.
Proof.
  intros fuel. unfold chunkText.
  change (trim (replace_crlf "abcdefghij")) with "abcdefghij".
  cbn [is_empty]. rewrite chunkLoop_stuck. reflexivity.
Qed.

(** When the overlap is smaller than the chunk size the loop advances by at
    least one character per iteration and returns; every chunk it adds is a
    trimmed slice, and the last slice ends at the end of the text. *)
Lemma chunkLoop_returns normalized chunkSize overlap :
  0 <= overlap < chunkSize ->
  forall fuel start acc,
    0 <= start < len normalized ->
    (Z.to_nat (len normalized - start) <= fuel)%nat ->
    exists windows s,
      chunkLoop fuel normalized chunkSize overlap start acc
      = Some (acc ++ ((fun w => trim (slice normalized (fst w) (snd w))) <$>
                        (windows ++ [(s, len normalized)]))).
Proof.
  intros Hov. induction fuel as [|fuel IH]; intros start acc Hstart Hfuel.
  - lia.
  - cbn [chunkLoop].
    destruct (Z.ltb_spec start (len normalized)) as [_|]; [|lia].
    cbv zeta.
    destruct (Z.geb_spec (Z.min (start + chunkSize) (len normalized)) (len normalized))
      as [Hge|Hlt].
    + exists [], start. simpl. repeat f_equal. lia.
    + assert (Hend : Z.min (start + chunkSize) (len normalized) = start + chunkSize) by lia.
      rewrite Hend in *.
      destruct (IH (Z.max 0 (start + chunkSize - overlap))
                  (acc ++ [trim (slice normalized start (start + chunkSize))]))
        as (windows & s & Heq); [lia | lia |].
      exists ((start, start + chunkSize) :: windows), s.
      rewrite Heq. rewrite <- app_assoc. reflexivity.
Qed.

Lemma chunkText_returns text chunkSize overlap :
  0 <= overlap < chunkSize ->
  exists chunks,
    chunkText (String.length text) text chunkSize overlap = Some chunks
    /\ Forall (fun c => truthy c = true /\ trim c = c) chunks.
Proof.
  intros Hov. unfold chunkText.
  set (normalized := trim (replace_crlf text)).
  destruct (is_empty normalized) eqn:Hemp.
  - exists []. split; [reflexivity | constructor].
  - assert (Hlen : (String.length normalized <= String.length text)%nat).
    { subst normalized. unfold trim.
      assert (Hs : forall s, (String.length (trimStart s) <= String.length s)%nat).
      { induction s as [|c r IHs]; simpl; [lia|]. destruct (is_space c); simpl; lia. }
      assert (He : forall s, (String.length (trimEnd s) <= String.length s)%nat).
      { induction s as [|c r IHs]; simpl; [lia|].
        destruct (is_space c && is_empty (trimEnd r)); simpl; lia. }
      assert (Hr : forall n s, (String.length s <= n)%nat ->
                  (String.length (replace_crlf s) <= String.length s)%nat).
      { induction n as [|n IHn]; intros [|c [|d r]] Hn; simpl in *; try lia.
        destruct ((code c =? 13)%N && (code d =? 10)%N); cbn [String.length].
        - specialize (IHn r ltac:(lia)). lia.
        - specialize (IHn (String d r) ltac:(simpl; lia)). simpl in IHn. lia. }
      specialize (Hs (replace_crlf text)). specialize (He (trimStart (replace_crlf text))).
      specialize (Hr _ text (Nat.le_refl _)). lia. }
    assert (Hpos : 0 < len normalized).
    { unfold len. destruct normalized; [discriminate | simpl; lia]. }
    destruct (chunkLoop_returns normalized chunkSize overlap Hov
                (String.length text) 0 []) as (windows & s & Heq).
    + lia.
    + unfold len. lia.
    + rewrite Heq. simpl. eexists. split; [reflexivity|].
      apply Forall_forall. intros c Hc.
      apply list_elem_of_filter in Hc. destruct Hc as [Hne Hc].
      split; [exact Hne|].
      apply list_elem_of_fmap in Hc. destruct Hc as (w & -> & _).
      apply trim_idem.
Qed.

End ChunkerFacts.

(* ===================================================================== *)
(** * Retrieval: the store query                                          *)
(* ===================================================================== *)

Module RetrieveFacts.
Import Js Rag.

Lemma doc_count_app d l1 l2 : doc_count d (l1 ++ l2) = (doc_count d l1 + doc_count d l2)%nat.
Proof. unfold doc_count. rewrite filter_app, length_app. reflexivity. Qed.

Lemma doc_count_cons d c l :
  doc_count d (c :: l)
  = ((if decide (Chunk.documentId c = d) then 1 else 0) + doc_count d l)%nat.
Proof. unfold doc_count. rewrite filter_cons. destruct (decide _); reflexivity. Qed.

Lemma doc_count_sublist d l1 l2 : l1 `sublist_of` l2 -> (doc_count d l1 <= doc_count d l2)%nat.
Proof.
  intros Hsub. unfold doc_count. apply sublist_length.
  induction Hsub as [|x l1 l2 _ IH|x l1 l2 _ IH]; rewrite ?filter_cons;
    try destruct (decide _); try constructor; auto.
Qed.

Lemma insert_ranked_perm {A} (x : A * Q) l : insert_ranked x l ≡ₚ x :: l.
Proof.
  induction l as [|y r IH]; simpl; [reflexivity|].
  destruct (Qltb x.2 y.2); [|reflexivity].
  rewrite IH. apply Permutation_swap.
Qed.

Lemma sort_ranked_perm {A} (l : list (A * Q)) : sort_ranked l ≡ₚ l.
Proof.
  unfold sort_ranked. induction l as [|x l IH]; simpl; [reflexivity|].
  rewrite insert_ranked_perm, IH. reflexivity.
Qed.

Section Selection.
Variables (boundedTopK maxPerDoc : Z).

Lemma select_capped_elem ranked : forall selected counts c,
  c ∈ select_capped boundedTopK maxPerDoc ranked selected counts ->
  c ∈ selected \/ c ∈ fst <$> ranked.
Proof.
  induction ranked as [|item rest IH]; intros selected counts c; simpl; [auto|].
  destruct (_ >=? boundedTopK); [auto|].
  destruct (_ >=? maxPerDoc); intros Hc; apply IH in Hc.
  - destruct Hc; [left | right; right]; auto.
  - destruct Hc as [Hc|Hc]; [|right; right; exact Hc].
    apply elem_of_app in Hc. destruct Hc as [Hc|Hc]; [left; exact Hc|].
    apply list_elem_of_singleton in Hc. subst. right. left.
Qed.

Lemma select_capped_length ranked : forall selected counts,
  Z.of_nat (length selected) <= boundedTopK ->
  Z.of_nat (length (select_capped boundedTopK maxPerDoc ranked selected counts))
  <= boundedTopK.
Proof.
  induction ranked as [|item rest IH]; intros selected counts Hlen; simpl; [exact Hlen|].
  destruct (Z.geb_spec (Z.of_nat (length selected)) boundedTopK); [exact Hlen|].
  destruct (_ >=? maxPerDoc); apply IH; [exact Hlen|].
  rewrite length_app. simpl. lia.
Qed.

(** The map [perDocumentCount] counts the selected chunks of each document,
    and no count exceeds the cap. *)
Lemma select_capped_count ranked : forall selected (counts : gmap string Z),
  (forall d, default 0 (counts !! d) = Z.of_nat (doc_count d selected)) ->
  (forall d, Z.of_nat (doc_count d selected) <= maxPerDoc) ->
  forall d,
    Z.of_nat (doc_count d (select_capped boundedTopK maxPerDoc ranked selected counts))
    <= maxPerDoc.
Proof.
  induction ranked as [|item rest IH]; intros selected counts Hinv Hcap d; simpl; [apply Hcap|].
  destruct (_ >=? boundedTopK); [apply Hcap|].
  destruct (Z.geb_spec (default 0 (counts !! Chunk.documentId item.1)) maxPerDoc) as [Hge|Hlt].
  - apply IH; assumption.
  - apply IH.
    + intros d'. rewrite doc_count_app, doc_count_cons. unfold doc_count at 2. simpl.
      destruct (decide (Chunk.documentId item.1 = d')) as [->|Hne].
      * rewrite lookup_insert_eq. simpl. rewrite Hinv. lia.
      * rewrite lookup_insert_ne by exact Hne. rewrite Hinv. lia.
    + intros d'. rewrite doc_count_app, doc_count_cons. unfold doc_count at 2. simpl.
      destruct (decide (Chunk.documentId item.1 = d')) as [<-|Hne].
      * rewrite Hinv in Hlt. lia.
      * specialize (Hcap d'). lia.
Qed.

Lemma select_capped_keeps ranked : forall selected counts x,
  x ∈ selected -> x ∈ select_capped boundedTopK maxPerDoc ranked selected counts.
Proof.
  induction ranked as [|y rest IH]; intros sel counts x Hsel; simpl; [exact Hsel|].
  destruct (_ >=? boundedTopK); [exact Hsel|].
  destruct (_ >=? maxPerDoc); apply IH; [exact Hsel|].
  apply elem_of_app. left. exact Hsel.
Qed.

Lemma select_capped_first item rest :
  0 < boundedTopK -> 0 < maxPerDoc ->
  select_capped boundedTopK maxPerDoc (item :: rest) [] ∅ <> [].
Proof.
  intros Hb Hm.
  assert (Hin : item.1 ∈ select_capped boundedTopK maxPerDoc (item :: rest) [] ∅).
  { cbn [select_capped length].
    destruct (Z.geb_spec (Z.of_nat 0) boundedTopK); [lia|].
    rewrite lookup_empty. cbn [default].
    destruct (Z.geb_spec 0 maxPerDoc); [lia|].
    apply select_capped_keeps. rewrite app_nil_l. constructor. }
  intros Hnil. rewrite Hnil in Hin. inversion Hin.
Qed.

End Selection.

Section WithServices.
Context `{Services}.

Definition effective_topK (p : RetrieveParams) : Z :=
  Z.max 1 (default DEFAULT_RAG_TOP_K (p_topK p)).

(** Every returned chunk is a stored chunk that passed all the filters. *)
Lemma retrieve_elem store p c :
  c ∈ retrieveRelevantChunks store p -> c ∈ chunks store /\ candidate p c = true.
Proof.
  unfold retrieveRelevantChunks.
  set (candidates := filter _ (chunks store)).
  set (ranked := sort_ranked _).
  assert (Hranked : forall x, x ∈ fst <$> ranked -> x ∈ chunks store /\ candidate p x = true).
  { intros x Hx. apply list_elem_of_fmap in Hx. destruct Hx as ([x' q] & -> & Hx).
    subst ranked. rewrite sort_ranked_perm in Hx.
    apply list_elem_of_fmap in Hx. destruct Hx as (y & Heq & Hy). inversion Heq; subst.
    subst candidates. apply list_elem_of_filter in Hy. tauto. }
  destruct (length candidates =? 0)%nat; [intros Hc; inversion Hc|].
  destruct (match maxChunksPerDocument p with
            | Some m => if 0 <? m then Some m else None | None => None end) as [m|].
  - intros Hc. apply select_capped_elem in Hc. destruct Hc as [Hc|Hc]; [inversion Hc|auto].
  - intros Hc. apply Hranked.
    apply list_elem_of_fmap in Hc. destruct Hc as (y & -> & Hy).
    apply list_elem_of_fmap_2. eapply elem_of_sublist; [exact Hy | apply sublist_take].
Qed.

(** At most [max(1, topK)] chunks are returned. *)
Lemma retrieve_length store p :
  Z.of_nat (length (retrieveRelevantChunks store p)) <= effective_topK p.
Proof.
  unfold retrieveRelevantChunks, effective_topK.
  destruct (length _ =? 0)%nat; [simpl; lia|].
  destruct (match maxChunksPerDocument p with
            | Some m => if 0 <? m then Some m else None | None => None end) as [m|].
  - apply select_capped_length. simpl. lia.
  - rewrite length_fmap, length_take. lia.
Qed.

(** With a positive per-document cap, no document contributes more chunks
    than the cap. *)
Lemma retrieve_count store p m d :
  maxChunksPerDocument p = Some m -> 0 < m ->
  Z.of_nat (doc_count d (retrieveRelevantChunks store p)) <= m.
Proof.
  intros Hm Hpos. unfold retrieveRelevantChunks. rewrite Hm.
  destruct (Z.ltb_spec 0 m); [|lia].
  destruct (length _ =? 0)%nat; [unfold doc_count; simpl; lia|].
  apply select_capped_count.
  - intros d'. rewrite lookup_empty. reflexivity.
  - intros d'. unfold doc_count. simpl. lia.
Qed.

(** A query with at least one candidate returns at least one chunk. *)
Lemma retrieve_nonempty store p c :
  c ∈ chunks store -> candidate p c = true -> retrieveRelevantChunks store p <> [].
Proof.
  intros Hc Hcand. unfold retrieveRelevantChunks.
  set (candidates := filter _ (chunks store)).
  assert (Hin : c ∈ candidates) by (apply list_elem_of_filter; auto).
  destruct candidates as [|c0 cs] eqn:Ecand; [inversion Hin|].
  cbn [length Nat.eqb]. cbv zeta.
  set (ranked := sort_ranked _).
  assert (Hlen : length ranked = S (length cs)).
  { subst ranked. rewrite sort_ranked_perm. rewrite length_fmap. reflexivity. }
  destruct ranked as [|item rest]; [discriminate|].
  destruct (match maxChunksPerDocument p with
            | Some m => if 0 <? m then Some m else None | None => None end) as [m|] eqn:Em.
  - apply select_capped_first; [lia|].
    destruct (maxChunksPerDocument p) as [m'|]; [|discriminate].
    destruct (Z.ltb_spec 0 m'); [|discriminate]. inversion Em; subst. assumption.
  - destruct (Z.to_nat (Z.max 1 (default DEFAULT_RAG_TOP_K (p_topK p)))) eqn:En; [lia|].
    simpl. discriminate.
Qed.

End WithServices.
End RetrieveFacts.

(* ===================================================================== *)
(** * Retrieval: the intent-aware engine                                  *)
(* ===================================================================== *)

Module EngineFacts.
Import Js Rag Agent RetrieveFacts.

Lemma merge_unique_go_sublist seen l : merge_unique_go seen l `sublist_of` l.
Proof.
  revert seen. induction l as [|c l IH]; intros seen; simpl; [constructor|].
  destruct (bool_decide _); [apply sublist_cons | apply sublist_skip]; apply IH.
Qed.

Lemma mergeUniqueChunks_nonempty l : l <> [] -> mergeUniqueChunks l <> [].
Proof.
  destruct l as [|c l]; [congruence|]. intros _. unfold mergeUniqueChunks. simpl.
  rewrite bool_decide_eq_false_2 by set_solver. discriminate.
Qed.

Lemma cap_go_sublist m counts l : cap_go m counts l `sublist_of` l.
Proof.
  revert counts. induction l as [|c l IH]; intros counts; simpl; [constructor|].
  destruct (_ >=? m); [apply sublist_cons | apply sublist_skip]; apply IH.
Qed.

Lemma capChunksPerDocument_sublist l m : capChunksPerDocument l m `sublist_of` l.
Proof.
  unfold capChunksPerDocument. destruct (m <=? 0); [reflexivity | apply cap_go_sublist].
Qed.

(** What [counts] already holds for a document is deducted from what the
    loop still lets through. *)
Lemma cap_go_count m l : forall (counts : gmap string Z) d,
  Z.of_nat (doc_count d (cap_go m counts l)) <= Z.max 0 (m - default 0 (counts !! d)).
Proof.
  induction l as [|c l IH]; intros counts d; simpl; [unfold doc_count; simpl; lia|].
  destruct (Z.geb_spec (default 0 (counts !! Chunk.documentId c)) m) as [Hge|Hlt].
  - apply IH.
  - rewrite doc_count_cons.
    specialize (IH (<[Chunk.documentId c := default 0 (counts !! Chunk.documentId c) + 1]> counts) d).
    destruct (decide (Chunk.documentId c = d)) as [<-|Hne].
    + rewrite lookup_insert_eq in IH. simpl in IH. lia.
    + rewrite lookup_insert_ne in IH by exact Hne. lia.
Qed.

Lemma capChunksPerDocument_count l m d :
  0 < m -> Z.of_nat (doc_count d (capChunksPerDocument l m)) <= m.
Proof.
  intros Hm. unfold capChunksPerDocument. destruct (Z.leb_spec m 0); [lia|].
  pose proof (cap_go_count m l ∅ d) as Hc. rewrite lookup_empty in Hc. simpl in Hc. lia.
Qed.

Lemma capChunksPerDocument_nonempty l m : l <> [] -> capChunksPerDocument l m <> [].
Proof.
  destruct l as [|c l]; [congruence|]. intros _. unfold capChunksPerDocument.
  destruct (Z.leb_spec m 0); [discriminate|]. simpl.
  rewrite lookup_empty. simpl. destruct (Z.geb_spec 0 m); [lia | discriminate].
Qed.

Lemma take_nonempty {A} (l : list A) n : l <> [] -> (0 < n)%nat -> take n l <> [].
Proof. destruct l, n; simpl; intros; [congruence | congruence | lia | discriminate]. Qed.

Section WithServices.
Context `{Services}.

Lemma retrieve_intent store ragId query topK :
  let ctx := retrieveIntentContext store ragId query topK in
  mentionedDocuments ctx = findMentionedDocuments query (listRagDocuments store ragId)
  /\ intent ctx = detectIntent query (mentionedDocuments ctx).
Proof.
  cbv zeta. unfold retrieveIntentContext, strict_context, ladder_context. cbv zeta.
  repeat match goal with
         | |- context [match ?x with _ => _ end] =>
             lazymatch x with
             | context [match _ with _ => _ end] => fail
             | _ => destruct x eqn:?
             end
         end; simpl; auto.
Qed.

Lemma ladder_rung store ragId query k it mentioned names hasPub hasThesis :
  (it = paper_specific -> publicationMentions mentioned = []) ->
  Rung store ragId query k
    (ladder_context store ragId query k it mentioned names hasPub hasThesis).
Proof.
  intros Hps. unfold ladder_context. cbv zeta.
  set (merged := if is_compare it && (0 <? length names)%nat then _ else []).
  destruct (0 <? length merged)%nat eqn:Emerged.
  - subst merged. destruct (is_compare it && (0 <? length names)%nat).
    + eapply rung_compare; [exact Hps | reflexivity].
    + discriminate.
  - destruct (mix_targets it k _ _) as [pt tt].
    match goal with |- context [if ?c then _ else _] => destruct c eqn:Efinal end.
    + eapply rung_mixed; [exact Hps | reflexivity].
    + apply (rung_fallback _ _ _ _ _ it names pt tt); [exact Hps | | reflexivity].
      destruct (take _ _) eqn:Et; [reflexivity | simpl in Efinal; discriminate].
Qed.

Lemma retrieve_rung store ragId query topK :
  Rung store ragId query (Z.max 1 topK) (retrieveIntentContext store ragId query topK).
Proof.
  unfold retrieveIntentContext. cbv zeta.
  set (mentioned := findMentionedDocuments query _).
  set (it := detectIntent query mentioned).
  set (k := Z.max 1 topK).
  destruct (is_paper_specific it) eqn:Eps.
  - destruct (publicationMentions mentioned) as [|X rest] eqn:Epm.
    + simpl (Doc.fileName <$> take 4 []). apply ladder_rung. intros _. exact Epm.
    + simpl (Doc.fileName <$> take 4 (X :: rest)). cbv iota.
      destruct it; try discriminate. unfold strict_context. cbv zeta.
      destruct (0 <? length _)%nat eqn:Estrict.
      * eapply rung_strict; [reflexivity | exact Epm | reflexivity | reflexivity].
      * eapply rung_strict; [reflexivity | exact Epm | reflexivity |].
        simpl. destruct (strict_query _ _ _ _ _); [destruct (Z.to_nat _); reflexivity | discriminate].
  - apply ladder_rung. intros ->. discriminate.
Qed.

Lemma detectIntent_paper_specific_inv query mentioned :
  detectIntent query mentioned = paper_specific ->
  length (publicationMentions mentioned) = 1%nat.
Proof.
  rewrite IntentFacts.detectIntent_cases. cbv zeta.
  destruct (length (publicationMentions mentioned)) as [|[|n]]; simpl;
    repeat match goal with |- context [if ?c then _ else _] => destruct c end;
    congruence.
Qed.

Lemma findMentionedDocuments_elem query documents X :
  X ∈ findMentionedDocuments query documents -> X ∈ documents.
Proof.
  unfold findMentionedDocuments. intros HX.
  apply list_elem_of_fmap in HX. destruct HX as ([X' q] & -> & HX).
  rewrite sort_ranked_perm in HX. apply list_elem_of_filter in HX. destruct HX as [_ HX].
  apply list_elem_of_fmap in HX. destruct HX as (Y & Heq & HY). inversion Heq; subst. exact HY.
Qed.

Lemma strict_query_elem store ragId query k targetName c :
  c ∈ strict_query store ragId query k targetName ->
  c ∈ chunks store /\ Chunk.ragId c = ragId /\ Chunk.sourceName c = targetName
  /\ Chunk.sourceRole c = publication /\ Chunk.redundant c = false.
Proof.
  intros Hc. apply retrieve_elem in Hc. destruct Hc as [Hin Hcand].
  unfold candidate, mk_params in Hcand. simpl in Hcand.
  apply andb_prop in Hcand. destruct Hcand as [Hcand Hred].
  apply andb_prop in Hcand. destruct Hcand as [Hcand Hname].
  apply andb_prop in Hcand. destruct Hcand as [Hns Hrole].
  apply bool_decide_eq_true_1 in Hns.
  unfold name_in in Hname. apply bool_decide_eq_true_1 in Hname.
  rewrite elem_of_list_to_set, list_elem_of_singleton in Hname.
  repeat split; auto.
  - unfold role_in in Hrole. simpl in Hrole.
    destruct (Chunk.sourceRole c); simpl in Hrole; try discriminate; reflexivity.
  - destruct (Chunk.redundant c); simpl in Hred; [discriminate | reflexivity].
Qed.

(** C1. When the classified intent is [paper_specific], exactly one
    publication document X is mentioned; every returned chunk is a stored,
    non-redundant, publication-role chunk of the namespace whose
    [sourceName] is the file name of X; and when the hard-filtered query
    yields no chunk, the result is the empty list. *)
Theorem paper_specific_only_target store ragId query topK :
  let ctx := retrieveIntentContext store ragId query topK in
  intent ctx = paper_specific ->
  exists X,
    publicationMentions (mentionedDocuments ctx) = [X]
    /\ X ∈ documents store
    /\ Doc.sourceRole X = publication
    /\ targetDocumentNames ctx = [Doc.fileName X]
    /\ (forall c, c ∈ ctx_chunks ctx ->
          c ∈ chunks store /\ Chunk.ragId c = ragId
          /\ Chunk.sourceName c = Doc.fileName X
          /\ Chunk.sourceRole c = publication
          /\ Chunk.redundant c = false)
    /\ (strict_query store ragId query (Z.max 1 topK) (Doc.fileName X) = [] ->
        ctx_chunks ctx = []).
Proof.
  cbv zeta. intros Hintent.
  destruct (retrieve_intent store ragId query topK) as [Hmentioned Hdetect].
  rewrite Hdetect in Hintent.
  pose proof (detectIntent_paper_specific_inv _ _ Hintent) as Hone.
  destruct (retrieve_rung store ragId query topK)
    as [X rest _ Hpm Htargets Hchunks | names Hps _ | it names pt tt Hps _ | it names pt tt Hps _ _];
    try (rewrite Hps in Hone by (rewrite Hdetect; exact Hintent); discriminate).
  rewrite Hpm in Hone. destruct rest; [|discriminate].
  exists X. split; [exact Hpm|].
  assert (HX : X ∈ publicationMentions (mentionedDocuments (retrieveIntentContext store ragId query topK)))
    by (rewrite Hpm; constructor).
  apply list_elem_of_filter in HX. destruct HX as [Hrole HX].
  rewrite Hmentioned in HX. apply findMentionedDocuments_elem in HX.
  apply list_elem_of_filter in HX. destruct HX as [_ HX].
  split; [exact HX|]. split.
  { unfold is_publication_doc in Hrole. destruct (Doc.sourceRole X); simpl in Hrole; congruence. }
  split; [exact Htargets|]. split.
  - intros c Hc. rewrite Hchunks in Hc.
    apply (strict_query_elem store ragId query (Z.max 1 topK)).
    eapply elem_of_sublist; [exact Hc | apply sublist_take].
  - intros Hempty. rewrite Hchunks, Hempty. apply take_nil.
Qed.

(** C6 (as amended). For [topK >= 1] the returned list has at most
    [max(2, topK)] chunks, and at most [topK] chunks unless the intent is
    [paper_specific], whose hard-filtered query asks for [max(2, topK)]. *)
Theorem context_length store ragId query topK :
  1 <= topK ->
  let ctx := retrieveIntentContext store ragId query topK in
  Z.of_nat (length (ctx_chunks ctx)) <= Z.max 2 topK
  /\ (intent ctx <> paper_specific -> Z.of_nat (length (ctx_chunks ctx)) <= topK).
Proof.
  intros Hk. cbv zeta.
  pose proof (retrieve_rung store ragId query topK) as Hrung.
  replace (Z.max 1 topK) with topK in Hrung by lia.
  assert (Htake : forall (l : list RagChunk) k, 0 <= k -> Z.of_nat (length (take (Z.to_nat k) l)) <= k).
  { intros l k Hk0. rewrite length_take. lia. }
  destruct Hrung as [X rest Hint _ _ Hchunks | names _ Hchunks
                    | it names pt tt _ Hchunks | it names pt tt _ _ Hchunks];
    rewrite Hchunks.
  - split; [apply Htake; lia | congruence].
  - unfold compare_merged. pose proof (Htake (capChunksPerDocument
      (mergeUniqueChunks (seed_chunks store ragId query names ++
         retrieveRelevantChunks store (mk_params ragId query
           (Z.max topK (topK - Z.of_nat (length (seed_chunks store ragId query names))))
           (Some [publication]) (Some names) true (Some 2)))) 2) topK ltac:(lia)).
    split; [lia | intros _; assumption].
  - pose proof (Htake (mixed_combined store ragId query topK it names pt tt) topK ltac:(lia)).
    split; [lia | intros _; assumption].
  - pose proof (retrieve_length store (mk_params ragId query topK None None false None)) as Hlen.
    unfold effective_topK in Hlen. simpl in Hlen. unfold unfiltered_fallback.
    split; [lia | intros _; lia].
Qed.

Lemma mixed_combined_nonempty store ragId query k it names pt tt :
  has_primary_chunk store ragId -> 1 <= k ->
  mixed_combined store ragId query k it names pt tt <> [].
Proof.
  intros (c & Hin & Hns & Hrole) Hk. unfold mixed_combined. cbv zeta.
  match goal with |- context [Z.of_nat (length ?l) <? k] => set (combined := l) end.
  destruct (Z.ltb_spec (Z.of_nat (length combined)) k) as [Hlt|Hge].
  - apply capChunksPerDocument_nonempty, mergeUniqueChunks_nonempty.
    intros Happ. apply app_eq_nil in Happ. destruct Happ as [_ Hback].
    revert Hback. eapply retrieve_nonempty; [exact Hin|].
    unfold candidate, mk_params. simpl. rewrite bool_decide_eq_true_2 by exact Hns.
    destruct Hrole as [-> | ->]; reflexivity.
  - destruct combined; [simpl in Hge; lia | discriminate].
Qed.

(** C2 (as amended). Under intent [paper_specific] no document contributes
    more than [max(2, min(4, topK))] chunks; under every other intent no
    document contributes more than 2 chunks as long as the namespace holds a
    publication or thesis chunk. (Otherwise the result comes from the
    unfiltered fallback, which passes no per-document cap to the store.) *)
Theorem per_document_cap store ragId query topK d :
  let ctx := retrieveIntentContext store ragId query topK in
  (intent ctx = paper_specific ->
   Z.of_nat (doc_count d (ctx_chunks ctx)) <= Z.max 2 (Z.min 4 (Z.max 1 topK)))
  /\ (intent ctx <> paper_specific -> has_primary_chunk store ragId ->
      Z.of_nat (doc_count d (ctx_chunks ctx)) <= 2).
Proof.
  cbv zeta.
  destruct (retrieve_intent store ragId query topK) as [_ Hdetect].
  assert (Htake : forall n (l : list RagChunk) m,
             Z.of_nat (doc_count d l) <= m -> Z.of_nat (doc_count d (take n l)) <= m).
  { intros n l m Hl. pose proof (doc_count_sublist d _ _ (sublist_take l n)). lia. }
  destruct (retrieve_rung store ragId query topK)
    as [X rest Hint Hpm _ Hchunks | names Hps Hchunks
       | it names pt tt Hps Hchunks | it names pt tt Hps Hempty Hchunks].
  - split; [intros _ | congruence]. rewrite Hchunks. apply Htake.
    unfold strict_query. eapply retrieve_count; [reflexivity | lia].
  - split.
    { intros Hint. specialize (Hps Hint). rewrite Hdetect in Hint.
      apply detectIntent_paper_specific_inv in Hint. rewrite Hps in Hint. discriminate. }
    intros _ _. rewrite Hchunks. unfold compare_merged. apply Htake.
    apply capChunksPerDocument_count. lia.
  - split.
    { intros Hint. specialize (Hps Hint). rewrite Hdetect in Hint.
      apply detectIntent_paper_specific_inv in Hint. rewrite Hps in Hint. discriminate. }
    intros _ _. rewrite Hchunks. apply Htake. unfold mixed_combined. cbv zeta.
    match goal with |- context [if ?c then _ else _] => destruct c end;
      apply capChunksPerDocument_count; lia.
  - split.
    { intros Hint. specialize (Hps Hint). rewrite Hdetect in Hint.
      apply detectIntent_paper_specific_inv in Hint. rewrite Hps in Hint. discriminate. }
    intros _ Hprimary. exfalso.
    pose proof (mixed_combined_nonempty store ragId query (Z.max 1 topK) it names pt tt
                  Hprimary ltac:(lia)) as Hne.
    revert Hempty. apply take_nonempty; [exact Hne | lia].
Qed.

End WithServices.

Lemma paper_specific_only_target_witness :
  let ctx := @retrieveIntentContext Scenario.services Scenario.segnet_store "ns" "explain segnet" 5 in
  intent ctx = paper_specific
  /\ exists X,
      publicationMentions (mentionedDocuments ctx) = [X]
      /\ X ∈ documents Scenario.segnet_store
      /\ Doc.sourceRole X = publication
      /\ targetDocumentNames ctx = [Doc.fileName X]
      /\ (forall c, c ∈ ctx_chunks ctx ->
            c ∈ chunks Scenario.segnet_store /\ Chunk.ragId c = "ns"
            /\ Chunk.sourceName c = Doc.fileName X
            /\ Chunk.sourceRole c = publication
            /\ Chunk.redundant c = false)
      /\ (@strict_query Scenario.services Scenario.segnet_store "ns" "explain segnet"
            (Z.max 1 5) (Doc.fileName X) = [] -> ctx_chunks ctx = []).
Proof.
  cbv zeta. split; [vm_compute; reflexivity|].
  apply (@paper_specific_only_target Scenario.services Scenario.segnet_store "ns" "explain segnet" 5).
  vm_compute. reflexivity.
Defined.

Lemma context_length_witness :
  let ctx := @retrieveIntentContext Scenario.services Scenario.segnet_store "ns" "explain segnet" 1 in
  1 <= 1
  /\ Z.of_nat (length (ctx_chunks ctx)) <= Z.max 2 1
  /\ (intent ctx <> paper_specific -> Z.of_nat (length (ctx_chunks ctx)) <= 1).
Proof.
  cbv zeta. split; [lia|].
  apply (@context_length Scenario.services Scenario.segnet_store "ns" "explain segnet" 1). lia.
Defined.

(** With [topK = 1] a [paper_specific] query returns two chunks. *)
Lemma context_length_counterexample :
  ~ (forall (S : Services) store ragId query topK,
       1 <= topK ->
       Z.of_nat (length (ctx_chunks (retrieveIntentContext store ragId query topK))) <= topK).
Proof.
  intros Hclaim.
  specialize (Hclaim Scenario.services Scenario.segnet_store "ns" "explain segnet" 1 ltac:(lia)).
  vm_compute in Hclaim. apply Hclaim. reflexivity.
Qed.

Lemma per_document_cap_witness :
  let ctx := @retrieveIntentContext Scenario.services Scenario.segnet_store "ns" "explain segnet" 5 in
  intent ctx = paper_specific
  /\ Z.of_nat (doc_count "d1" (ctx_chunks ctx)) <= Z.max 2 (Z.min 4 (Z.max 1 5)).
Proof.
  cbv zeta. split; [vm_compute; reflexivity|].
  apply (@per_document_cap Scenario.services Scenario.segnet_store "ns" "explain segnet" 5 "d1").
  vm_compute. reflexivity.
Defined.

(** A namespace with one crawled page of five chunks: the unfiltered
    fallback returns all five, more than any cap the engine configures. *)
Lemma per_document_cap_counterexample :
  ~ (forall (S : Services) store ragId query topK d,
       Z.of_nat (doc_count d (ctx_chunks (retrieveIntentContext store ragId query topK))) <= 2).
Proof.
  intros Hclaim.
  specialize (Hclaim Scenario.services Scenario.web_store "ns" "explain things" 5 "d2").
  vm_compute in Hclaim. apply Hclaim. reflexivity.
Qed.

End EngineFacts.

(* ===================================================================== *)
(** * Redundancy engine                                                   *)
(* ===================================================================== *)

Module RedundancyFacts.
Import Js Rag.

Local Abbreviation Heap := (list RagChunk).

Lemma elem_of_refs_where P (h : Heap) i :
  i ∈ refs_where P h <-> exists c, h !! i = Some c /\ P c = true.
Proof.
  unfold refs_where, holds_at. rewrite list_elem_of_filter, elem_of_seq. split.
  - intros [HP _]. destruct (h !! i) as [c|]; [eauto | discriminate].
  - intros (c & Hc & HP). rewrite Hc. split; [exact HP|].
    apply lookup_lt_Some in Hc. lia.
Qed.

Lemma NoDup_refs_where P (h : Heap) : NoDup (refs_where P h).
Proof. apply NoDup_filter, NoDup_seq. Qed.

Lemma refs_where_lt P (h : Heap) i : i ∈ refs_where P h -> (i < length h)%nat.
Proof. intros Hi. apply elem_of_refs_where in Hi. destruct Hi as (c & Hc & _). eapply lookup_lt_Some, Hc. Qed.

Lemma lookup_update_slots rs G (h : Heap) i :
  update_slots rs G h !! i
  = (fun c => if bool_decide (i ∈ rs) then G c else c) <$> h !! i.
Proof. unfold update_slots. apply list_lookup_imap. Qed.

Lemma length_update_slots rs G (h : Heap) : length (update_slots rs G h) = length h.
Proof. unfold update_slots. apply length_imap. Qed.

(** A loop over distinct references whose body rewrites the slot it visits
    is an update of exactly those slots. The body may read the heap, as long
    as what it reads lies outside the visited slots. *)
Lemma foldl_slots (step : Heap -> nat -> Heap) G rs (h1 : Heap) :
  NoDup rs ->
  (forall r, r ∈ rs -> (r < length h1)%nat) ->
  (forall h r c, r ∈ rs -> length h = length h1 ->
     (forall i, i ∉ rs -> h !! i = h1 !! i) ->
     h !! r = Some c -> step h r = <[r := G c]> h) ->
  foldl step h1 rs = update_slots rs G h1.
Proof.
  intros Hnd Hlt Hstep.
  assert (Hgen : forall rem h,
             NoDup rem -> (forall r, r ∈ rem -> r ∈ rs) ->
             length h = length h1 -> (forall i, i ∉ rs -> h !! i = h1 !! i) ->
             foldl step h rem = update_slots rem G h).
  { induction rem as [|r rem IH]; intros h Hnd' Hsub Hlen Hoff.
    - simpl. apply list_eq. intros i. rewrite lookup_update_slots.
      rewrite bool_decide_eq_false_2 by (intros Hin; inversion Hin).
      destruct (h !! i); reflexivity.
    - simpl. apply NoDup_cons in Hnd'. destruct Hnd' as [Hr Hnd'].
      assert (Hin : r ∈ rs) by (apply Hsub; left).
      destruct (lookup_lt_is_Some_2 h r) as [c Hc]; [rewrite Hlen; auto|].
      rewrite (Hstep h r c Hin Hlen Hoff Hc).
      rewrite IH.
      + apply list_eq. intros i. rewrite !lookup_update_slots.
        destruct (decide (i = r)) as [->|Hne].
        * rewrite list_lookup_insert_eq by (eapply lookup_lt_Some, Hc).
          rewrite Hc. simpl.
          rewrite bool_decide_eq_false_2 by exact Hr.
          rewrite bool_decide_eq_true_2 by left. reflexivity.
        * rewrite list_lookup_insert_ne by congruence.
          destruct (h !! i) as [x|]; simpl; [|reflexivity].
          f_equal. destruct (decide (i ∈ rem)) as [Hi|Hi].
          -- rewrite !bool_decide_eq_true_2; [reflexivity | right; exact Hi | exact Hi].
          -- rewrite !bool_decide_eq_false_2; [reflexivity | | exact Hi].
             intros Hi'. apply elem_of_cons in Hi'. destruct Hi'; congruence.
      + exact Hnd'.
      + intros r' Hr'. apply Hsub. right. exact Hr'.
      + rewrite length_insert. exact Hlen.
      + intros i Hi. rewrite list_lookup_insert_ne; [apply Hoff, Hi | congruence]. }
  apply Hgen; auto.
Qed.

Section WithServices.
Context `{Services}.

Lemma str_or_idem a b : str_or (Some (str_or a b)) b = str_or a b.
Proof.
  unfold str_or. destruct a as [s|]; [destruct (truthy s) eqn:E|];
    try rewrite E; try reflexivity; destruct (truthy b); reflexivity.
Qed.

Lemma hash_fill c : hash_or_compute (fill_hash c) = hash_or_compute c.
Proof. unfold hash_or_compute, fill_hash. simpl. apply str_or_idem. Qed.

Lemma fill_hash_idem c : fill_hash (fill_hash c) = fill_hash c.
Proof.
  unfold fill_hash at 1. rewrite hash_fill. unfold fill_hash, Chunk.set_textHash.
  simpl. reflexivity.
Qed.

Lemma hash_reset c : hash_or_compute (reset_thesis c) = hash_or_compute c.
Proof. unfold reset_thesis. apply hash_fill. Qed.

(** Whatever a call left in the redundancy fields and the hash of a thesis
    chunk, the next call starts from the same reset chunk. *)
Lemma reset_thesis_absorb flag of_ score c :
  reset_thesis (Chunk.set_redundancy flag of_ score (reset_thesis c)) = reset_thesis c.
Proof.
  unfold reset_thesis at 1. unfold fill_hash at 1.
  change (hash_or_compute (Chunk.set_redundancy flag of_ score (reset_thesis c)))
    with (hash_or_compute (reset_thesis c)).
  rewrite hash_reset. reflexivity.
Qed.

Lemma reset_thesis_idem c : reset_thesis (reset_thesis c) = reset_thesis c.
Proof. apply (reset_thesis_absorb false None None). Qed.

Lemma index_publication_fst rs : forall (h : Heap) M,
  fst (foldl index_publication (h, M) rs) = foldl store_hash h rs.
Proof.
  induction rs as [|r rs IH]; intros h M; simpl; [reflexivity|].
  unfold store_hash at 2. destruct (h !! r) as [c|]; [|apply IH].
  destruct (M !! hash_or_compute c); apply IH.
Qed.

Lemma store_hash_slots (h0 : Heap) P :
  foldl store_hash h0 (refs_where P h0) = update_slots (refs_where P h0) fill_hash h0.
Proof.
  apply foldl_slots.
  - apply NoDup_refs_where.
  - apply refs_where_lt.
  - intros h r c _ _ _ Hc. unfold store_hash. rewrite Hc. reflexivity.
Qed.

Lemma hash_at_store_hash (h : Heap) r r' : hash_at (store_hash h r) r' = hash_at h r'.
Proof.
  unfold store_hash, hash_at. destruct (h !! r) as [c|] eqn:Hc; [|reflexivity].
  destruct (decide (r = r')) as [<-|Hne].
  - rewrite list_lookup_insert_eq by (eapply lookup_lt_Some, Hc).
    rewrite Hc. simpl. rewrite hash_fill. reflexivity.
  - rewrite list_lookup_insert_ne by exact Hne. reflexivity.
Qed.

Lemma index_publication_step (h : Heap) (M : gmap string (list nat)) r :
  index_publication (h, M) r
  = (store_hash h r,
     match h !! r with
     | Some c => <[hash_or_compute c := default [] (M !! hash_or_compute c) ++ [r]]> M
     | None => M
     end).
Proof.
  unfold index_publication, store_hash. destruct (h !! r) as [c|]; [|reflexivity].
  destruct (M !! hash_or_compute c); reflexivity.
Qed.

(** The bucket of a key holds, in loop order, the references whose chunk
    has that key. *)
Lemma index_publication_buckets rs : forall (h : Heap) (M : gmap string (list nat)) k,
  default [] (snd (foldl index_publication (h, M) rs) !! k)
  = default [] (M !! k) ++ filter (fun r => hash_at h r = Some k) rs.
Proof.
  induction rs as [|r rs IH]; intros h M k.
  - simpl. rewrite filter_nil, app_nil_r. reflexivity.
  - cbn [foldl]. rewrite index_publication_step, IH.
    assert (Hfilter : filter (fun r0 => hash_at (store_hash h r) r0 = Some k) rs
                      = filter (fun r0 => hash_at h r0 = Some k) rs).
    { apply list_filter_iff. intros r0. rewrite hash_at_store_hash. reflexivity. }
    rewrite Hfilter.
    destruct (decide (hash_at h r = Some k)) as [Hk|Hk].
    + rewrite filter_cons_True by exact Hk.
      unfold hash_at in Hk. destruct (h !! r) as [c|]; [|discriminate].
      inversion Hk; subst. rewrite lookup_insert_eq. simpl.
      rewrite <- app_assoc. reflexivity.
    + rewrite filter_cons_False by exact Hk.
      unfold hash_at in Hk. destruct (h !! r) as [c|]; [|reflexivity].
      rewrite lookup_insert_ne; [reflexivity|]. intros Heq. apply Hk. simpl. congruence.
Qed.

Lemma consider_publication_ext cfg (h h' : Heap) t rs :
  (forall e, e ∈ rs -> h !! e = h' !! e) ->
  forall b, foldl (consider_publication cfg h t) b rs
            = foldl (consider_publication cfg h' t) b rs.
Proof.
  induction rs as [|r rs IH]; intros Hagree b; simpl; [reflexivity|].
  assert (Hstep : consider_publication cfg h t b r = consider_publication cfg h' t b r).
  { unfold consider_publication. rewrite (Hagree r) by left. reflexivity. }
  rewrite Hstep. apply IH. intros e He. apply Hagree. right. exact He.
Qed.

(** The best match is one of the references the loop ran over. *)
Lemma best_match_in cfg (h : Heap) t rs : forall b0 b,
  fst (foldl (consider_publication cfg h t) b0 rs) = Some b ->
  fst b0 = Some b \/ b ∈ rs.
Proof.
  induction rs as [|r rs IH]; intros b0 b Hb; simpl in Hb; [left; exact Hb|].
  apply IH in Hb. destruct Hb as [Hb|Hb]; [|right; right; exact Hb].
  unfold consider_publication in Hb.
  destruct (h !! r) as [p|]; [|left; exact Hb].
  destruct (Qltb _ (lexicalThreshold cfg)); [left; exact Hb|].
  destruct (Qltb _ (cosineThreshold cfg)); [left; exact Hb|].
  destruct (fst b0) eqn:Eb0.
  - destruct (Qltb _ _); simpl in Hb.
    + inversion Hb; subst. right. left.
    + left. congruence.
  - simpl in Hb. inversion Hb; subst. right. left.
Qed.

(** One iteration of the second loop rewrites the slot of its thesis chunk
    and nothing else; what it writes depends on the heap only through the
    publication slots. *)
Lemma annotate_thesis_chunk_spec cfg pubRefs (M : gmap string (list nat))
    (h h1 : Heap) r t0 :
  h !! r = Some t0 ->
  r ∉ pubRefs ->
  (forall e, e ∈ pubRefs -> h !! e = h1 !! e) ->
  (forall k e, e ∈ default [] (M !! k) -> e ∈ pubRefs) ->
  annotate_thesis_chunk cfg pubRefs M h r
  = <[r := annotated_thesis cfg pubRefs M h1 t0]> h.
Proof.
  intros Hr Hnot Hagree Hbuckets.
  unfold annotate_thesis_chunk, annotated_thesis. rewrite Hr. cbv zeta.
  change (Chunk.set_redundancy false None None
            (Chunk.set_textHash (hash_or_compute t0) t0)) with (reset_thesis t0).
  set (t := reset_thesis t0).
  assert (Hother : forall e, e ∈ pubRefs -> <[r := t]> h !! e = h1 !! e).
  { intros e He. rewrite list_lookup_insert_ne by congruence. apply Hagree, He. }
  destruct (length pubRefs =? 0)%nat; [reflexivity|].
  destruct (default [] (M !! hash_or_compute t0)) as [|e es] eqn:Ebucket.
  - rewrite (consider_publication_ext cfg (<[r := t]> h) h1 t pubRefs Hother).
    destruct (foldl (consider_publication cfg h1 t) (None, 0%Q) pubRefs) as [bm bs] eqn:Efold.
    cbn [fst snd]. destruct bm as [b|]; [|reflexivity].
    assert (Hb : b ∈ pubRefs).
    { destruct (best_match_in cfg h1 t pubRefs (None, 0%Q) b) as [Hb|Hb];
        [rewrite Efold; reflexivity | discriminate | exact Hb]. }
    rewrite (Hother b Hb). destruct (h1 !! b) as [best|]; [|reflexivity].
    destruct (Qle_bool _ _); [reflexivity|].
    unfold mark_redundant. rewrite list_insert_insert_eq. reflexivity.
  - assert (He : e ∈ pubRefs).
    { apply (Hbuckets (hash_or_compute t0)). rewrite Ebucket. left. }
    rewrite (Hother e He). destruct (h1 !! e) as [exactMatch|]; [|reflexivity].
    destruct (Qltb _ _); [|reflexivity].
    unfold mark_redundant. rewrite list_insert_insert_eq. reflexivity.
Qed.

Lemma roles_exclusive ragId c :
  is_thesis_of ragId c = true -> is_publication_of ragId c = false.
Proof.
  unfold is_thesis_of, is_publication_of.
  destruct (Chunk.sourceRole c); simpl; rewrite ?andb_false_r; congruence.
Qed.

Lemma buckets_in_refs store ragId k e :
  e ∈ default [] (buckets store ragId !! k) -> e ∈ publicationRefs store ragId.
Proof.
  unfold buckets. rewrite index_publication_buckets, lookup_empty. simpl.
  intros He. apply list_elem_of_filter in He. tauto.
Qed.

(** The engine, slot by slot: the documents are returned as they were, and
    every slot of [store.chunks] holds [annotated_chunk] of what it held. *)
Theorem annotateThesisRedundancy_slots store ragId :
  annotateThesisRedundancy store ragId
  = {| documents := documents store;
       chunks := annotated_chunk store ragId <$> chunks store |}.
Proof.
  unfold annotateThesisRedundancy. cbv zeta.
  fold (publicationRefs store ragId). fold (thesisRefs store ragId).
  destruct (length (thesisRefs store ragId) =? 0)%nat eqn:Eth.
  { destruct store as [docs cs]. simpl. f_equal.
    rewrite <- (list_fmap_id cs) at 1. apply list_fmap_ext. intros i c _.
    unfold annotated_chunk. simpl in Eth. rewrite Eth. reflexivity. }
  destruct (foldl index_publication (chunks store, ∅) (publicationRefs store ragId))
    as [heap M] eqn:Efold.
  assert (Hheap : heap = hashed_heap store ragId).
  { change heap with (fst (heap, M)). rewrite <- Efold, index_publication_fst.
    apply store_hash_slots. }
  assert (HM : M = buckets store ragId).
  { unfold buckets. rewrite Efold. reflexivity. }
  subst heap M. f_equal.
  rewrite (foldl_slots _ (annotated_thesis getDedupConfig (publicationRefs store ragId)
                            (buckets store ragId) (hashed_heap store ragId))).
  - apply list_eq. intros i. rewrite lookup_update_slots.
    unfold hashed_heap at 2. rewrite lookup_update_slots, list_lookup_fmap.
    destruct (chunks store !! i) as [c|] eqn:Hc; simpl; [|reflexivity].
    f_equal. unfold annotated_chunk. rewrite Eth.
    assert (Hmem : forall P, bool_decide (i ∈ refs_where P (chunks store)) = P c).
    { intros P. destruct (P c) eqn:EP.
      - apply bool_decide_eq_true_2, elem_of_refs_where. eauto.
      - apply bool_decide_eq_false_2. intros Hi.
        apply elem_of_refs_where in Hi. destruct Hi as (c' & Hc' & HP). congruence. }
    unfold thesisRefs, publicationRefs. rewrite !Hmem.
    destruct (is_thesis_of ragId c) eqn:Ethesis.
    + rewrite (roles_exclusive _ _ Ethesis). reflexivity.
    + destruct (is_publication_of ragId c); reflexivity.
  - apply NoDup_refs_where.
  - intros r Hr. apply refs_where_lt in Hr. unfold hashed_heap.
    rewrite length_update_slots. exact Hr.
  - intros h r c Hr Hlen Hoff Hc.
    apply annotate_thesis_chunk_spec.
    + exact Hc.
    + intros Hp. apply elem_of_refs_where in Hr. destruct Hr as (c1 & Hc1 & Ht).
      apply elem_of_refs_where in Hp. destruct Hp as (c2 & Hc2 & Hp).
      rewrite Hc1 in Hc2. inversion Hc2; subst.
      rewrite (roles_exclusive _ _ Ht) in Hp. discriminate.
    + intros e He. apply Hoff. intros Hth.
      apply elem_of_refs_where in He. destruct He as (c1 & Hc1 & Hp).
      apply elem_of_refs_where in Hth. destruct Hth as (c2 & Hc2 & Ht).
      rewrite Hc1 in Hc2. inversion Hc2; subst.
      rewrite (roles_exclusive _ _ Ht) in Hp. discriminate.
    + apply buckets_in_refs.
Qed.

(** A thesis chunk ends either reset or marked against some chunk. *)
Lemma annotated_thesis_shape cfg pubRefs (M : gmap string (list nat)) (h : Heap) t0 :
  annotated_thesis cfg pubRefs M h t0 = reset_thesis t0
  \/ exists p score, annotated_thesis cfg pubRefs M h t0
                     = mark_redundant p score (reset_thesis t0).
Proof.
  unfold annotated_thesis. cbv zeta.
  repeat match goal with
         | |- context [match ?x with _ => _ end] =>
             lazymatch x with
             | context [match _ with _ => _ end] => fail
             | _ => destruct x
             end
         end; eauto.
Qed.

Lemma lookup_annotated store ragId i c :
  chunks store !! i = Some c ->
  chunks (annotateThesisRedundancy store ragId) !! i
  = Some (annotated_chunk store ragId c).
Proof.
  intros Hc. rewrite annotateThesisRedundancy_slots. simpl.
  rewrite list_lookup_fmap, Hc. reflexivity.
Qed.

Lemma textHash_filled c :
  Some (hash_or_compute c) = Chunk.textHash c
  \/ (opt_truthy (Chunk.textHash c) = false
      /\ hash_or_compute c = getTextHash (Chunk.text c)).
Proof.
  unfold hash_or_compute, str_or, opt_truthy.
  destruct (Chunk.textHash c) as [h|]; [destruct (truthy h)|]; auto.
Qed.

(** C10. A run of the engine returns the documents list unchanged and keeps
    every chunk in its slot; in every chunk all fields other than the hash
    and the redundancy fields are unchanged; the redundancy fields change
    only in thesis chunks of the namespace; and the hash changes only where
    a publication or thesis chunk of the namespace had none, which then
    receives the hash of its text. *)
Theorem annotate_frame store ragId :
  let store' := annotateThesisRedundancy store ragId in
  documents store' = documents store
  /\ length (chunks store') = length (chunks store)
  /\ forall i c, chunks store !! i = Some c ->
       exists c', chunks store' !! i = Some c'
         /\ same_content c c'
         /\ (is_thesis_of ragId c = false -> same_redundancy c c')
         /\ (Chunk.textHash c' = Chunk.textHash c
             \/ (opt_truthy (Chunk.textHash c) = false
                 /\ (is_publication_of ragId c = true \/ is_thesis_of ragId c = true)
                 /\ Chunk.textHash c' = Some (getTextHash (Chunk.text c)))).
Proof.
  cbv zeta. split; [|split].
  - rewrite annotateThesisRedundancy_slots. reflexivity.
  - rewrite annotateThesisRedundancy_slots. simpl. apply length_fmap.
  - intros i c Hc. exists (annotated_chunk store ragId c).
    split; [apply lookup_annotated, Hc|].
    unfold annotated_chunk.
    destruct (length (thesisRefs store ragId) =? 0)%nat.
    { unfold same_content, same_redundancy. tauto. }
    destruct (is_thesis_of ragId c) eqn:Ethesis.
    + pose proof (textHash_filled c) as Hhash.
      destruct (annotated_thesis_shape getDedupConfig (publicationRefs store ragId)
                  (buckets store ragId) (hashed_heap store ragId) c) as [-> | (p & sc & ->)];
        (split; [unfold same_content; simpl; tauto|]);
        (split; [discriminate|]); simpl;
        destruct Hhash as [Hsame | [Hfalsy Hcomputed]];
        [left; exact Hsame | right; rewrite Hcomputed; auto
        |left; exact Hsame | right; rewrite Hcomputed; auto].
    + destruct (is_publication_of ragId c) eqn:Epub.
      * pose proof (textHash_filled c) as Hhash.
        split; [unfold same_content; simpl; tauto|].
        split; [intros _; unfold same_redundancy; simpl; tauto|]. simpl.
        destruct Hhash as [Hsame | [Hfalsy Hcomputed]];
          [left; exact Hsame | right; rewrite Hcomputed; auto].
      * unfold same_content, same_redundancy. tauto.
Qed.

(** What [annotated_thesis] reads of the heap and of the buckets. *)
Lemma annotated_thesis_ext cfg pubRefs (M M' : gmap string (list nat)) (h h' : Heap) t0 :
  (forall e, e ∈ pubRefs -> h !! e = h' !! e) ->
  (forall k e, e ∈ default [] (M !! k) -> e ∈ pubRefs) ->
  (forall k, default [] (M !! k) = default [] (M' !! k)) ->
  annotated_thesis cfg pubRefs M h t0 = annotated_thesis cfg pubRefs M' h' t0.
Proof.
  intros Hagree Hsub HM. unfold annotated_thesis. cbv zeta.
  destruct (length pubRefs =? 0)%nat; [reflexivity|].
  rewrite <- HM.
  destruct (default [] (M !! hash_or_compute t0)) as [|e es] eqn:Ebucket.
  - rewrite (consider_publication_ext cfg h h' _ pubRefs Hagree).
    destruct (fst (foldl (consider_publication cfg h' (reset_thesis t0)) (None, 0%Q) pubRefs))
      as [b|] eqn:Eb; [|reflexivity].
    destruct (best_match_in cfg h' _ pubRefs (None, 0%Q) b Eb) as [Hb|Hb]; [discriminate|].
    rewrite (Hagree b Hb). reflexivity.
  - rewrite (Hagree e); [reflexivity|].
    apply (Hsub (hash_or_compute t0)). rewrite Ebucket. left.
Qed.

Lemma annotated_thesis_idem cfg pubRefs (M : gmap string (list nat)) (h : Heap) t0 :
  annotated_thesis cfg pubRefs M h (annotated_thesis cfg pubRefs M h t0)
  = annotated_thesis cfg pubRefs M h t0.
Proof.
  assert (Hkey : forall a, (a = reset_thesis t0 \/ exists p sc, a = mark_redundant p sc (reset_thesis t0)) ->
             annotated_thesis cfg pubRefs M h a = annotated_thesis cfg pubRefs M h t0).
  { intros a Ha. unfold annotated_thesis. cbv zeta.
    assert (Hreset : reset_thesis a = reset_thesis t0).
    { destruct Ha as [-> | (p & sc & ->)];
        [apply reset_thesis_idem | apply reset_thesis_absorb]. }
    assert (Hhash : hash_or_compute a = hash_or_compute t0).
    { destruct Ha as [-> | (p & sc & ->)]; apply hash_reset. }
    rewrite Hreset, Hhash. reflexivity. }
  apply Hkey, annotated_thesis_shape.
Qed.

Lemma annotated_chunk_roles store ragId c :
  is_thesis_of ragId (annotated_chunk store ragId c) = is_thesis_of ragId c
  /\ is_publication_of ragId (annotated_chunk store ragId c) = is_publication_of ragId c
  /\ hash_or_compute (annotated_chunk store ragId c) = hash_or_compute c.
Proof.
  unfold annotated_chunk.
  destruct (length (thesisRefs store ragId) =? 0)%nat; [auto|].
  destruct (is_thesis_of ragId c) eqn:Ethesis.
  - destruct (annotated_thesis_shape getDedupConfig (publicationRefs store ragId)
                (buckets store ragId) (hashed_heap store ragId) c) as [-> | (p & sc & ->)];
      (split; [exact Ethesis|]); (split; [reflexivity|]);
      apply hash_reset.
  - destruct (is_publication_of ragId c) eqn:Epub; [|auto].
    split; [exact Ethesis|]. split; [exact Epub|]. apply hash_fill.
Qed.

Lemma refs_where_fmap P (F : RagChunk -> RagChunk) (h : Heap) :
  (forall c, P (F c) = P c) -> refs_where P (F <$> h) = refs_where P h.
Proof.
  intros HP. unfold refs_where. rewrite length_fmap.
  apply list_filter_iff. intros r. unfold holds_at.
  rewrite list_lookup_fmap. destruct (h !! r); simpl; [rewrite HP|]; reflexivity.
Qed.

(** C9. Running the engine a second time on the result of a first run
    changes nothing: the store after two runs is the store after one run,
    so every chunk has the same [isRedundant], [redundantOf] and
    [redundancyScore]. *)
Theorem annotate_idempotent store ragId :
  annotateThesisRedundancy (annotateThesisRedundancy store ragId) ragId
  = annotateThesisRedundancy store ragId.
Proof.
  set (F := annotated_chunk store ragId).
  set (store' := annotateThesisRedundancy store ragId).
  assert (Hstore' : store' = {| documents := documents store; chunks := F <$> chunks store |})
    by apply annotateThesisRedundancy_slots.
  assert (Hchunks : chunks store' = F <$> chunks store) by (rewrite Hstore'; reflexivity).
  assert (Hdocs : documents store' = documents store) by (rewrite Hstore'; reflexivity).
  etransitivity; [apply annotateThesisRedundancy_slots | rewrite Hstore' at 4].
  rewrite Hdocs, Hchunks. f_equal.
  assert (Hth : thesisRefs store' ragId = thesisRefs store ragId).
  { unfold thesisRefs. rewrite Hchunks. apply refs_where_fmap.
    intros c. apply annotated_chunk_roles. }
  assert (Hpub : publicationRefs store' ragId = publicationRefs store ragId).
  { unfold publicationRefs. rewrite Hchunks. apply refs_where_fmap.
    intros c. apply annotated_chunk_roles. }
  rewrite <- list_fmap_compose. apply list_fmap_ext. intros i c Hc. simpl.
  unfold annotated_chunk at 1. rewrite Hth.
  destruct (length (thesisRefs store ragId) =? 0)%nat eqn:Ezero; [reflexivity|].
  destruct (annotated_chunk_roles store ragId c) as (Hrt & Hrp & _).
  fold F in Hrt, Hrp. rewrite Hrt, Hrp.
  assert (HF : F c = annotated_chunk store ragId c) by reflexivity.
  unfold annotated_chunk in HF. rewrite Ezero in HF.
  destruct (is_thesis_of ragId c) eqn:Ethesis.
  - rewrite Hpub, HF.
    rewrite (annotated_thesis_ext getDedupConfig (publicationRefs store ragId)
               (buckets store' ragId) (buckets store ragId)
               (hashed_heap store' ragId) (hashed_heap store ragId)).
    + apply annotated_thesis_idem.
    + intros e He. unfold hashed_heap. rewrite Hpub, !lookup_update_slots, Hchunks.
      rewrite list_lookup_fmap. rewrite bool_decide_eq_true_2 by exact He.
      apply elem_of_refs_where in He. destruct He as (p & Hp & Hrole).
      rewrite Hp. simpl. f_equal.
      unfold F, annotated_chunk. rewrite Ezero.
      destruct (is_thesis_of ragId p) eqn:Etp;
        [rewrite (roles_exclusive _ _ Etp) in Hrole; discriminate|].
      rewrite Hrole. apply fill_hash_idem.
    + intros k e He. rewrite <- Hpub. revert He. apply buckets_in_refs.
    + intros k. unfold buckets. rewrite !index_publication_buckets, Hpub, Hchunks.
      f_equal. apply list_filter_iff. intros r. unfold hash_at.
      rewrite list_lookup_fmap. destruct (chunks store !! r) as [x|]; simpl; [|reflexivity].
      destruct (annotated_chunk_roles store ragId x) as (_ & _ & Hh).
      fold F in Hh. rewrite Hh. reflexivity.
  - destruct (is_publication_of ragId c) eqn:Epub; [|reflexivity].
    rewrite HF. apply fill_hash_idem.
Qed.

Lemma refs_nonempty P (h : Heap) i c :
  h !! i = Some c -> P c = true -> (length (refs_where P h) =? 0)%nat = false.
Proof.
  intros Hc HP.
  assert (Hin : i ∈ refs_where P h) by (apply elem_of_refs_where; eauto).
  destruct (refs_where P h); [inversion Hin | reflexivity].
Qed.

Lemma hashed_heap_publication store ragId e P :
  chunks store !! e = Some P -> is_publication_of ragId P = true ->
  hashed_heap store ragId !! e = Some (fill_hash P).
Proof.
  intros He HP. unfold hashed_heap. rewrite lookup_update_slots, He. simpl.
  rewrite bool_decide_eq_true_2; [reflexivity|].
  apply elem_of_refs_where. eauto.
Qed.

Lemma bucket_refs store ragId k :
  default [] (buckets store ragId !! k)
  = filter (fun r => hash_at (chunks store) r = Some k) (publicationRefs store ragId).
Proof. unfold buckets. rewrite index_publication_buckets, lookup_empty. reflexivity. Qed.

(** The first publication chunk of the namespace with a given hash, in
    store order, heads the bucket of that hash. *)
Lemma bucket_head store ragId k e P :
  chunks store !! e = Some P -> is_publication_of ragId P = true ->
  hash_or_compute P = k ->
  (forall e' P', (e' < e)%nat -> chunks store !! e' = Some P' ->
     is_publication_of ragId P' = true -> hash_or_compute P' <> k) ->
  exists rest, default [] (buckets store ragId !! k) = e :: rest.
Proof.
  intros He HP Hk Hfirst. rewrite bucket_refs.
  unfold publicationRefs, refs_where.
  pose proof (lookup_lt_Some _ _ _ He) as Hlt.
  replace (length (chunks store)) with (e + S (length (chunks store) - S e))%nat by lia.
  rewrite seq_app. cbn [seq]. rewrite !filter_app.
  assert (Hbefore : filter (fun r => hash_at (chunks store) r = Some k)
                      (filter (fun r => holds_at (is_publication_of ragId) (chunks store) r = true)
                         (seq 0 e)) = []).
  { destruct (filter _ (filter _ (seq 0 e))) as [|x l] eqn:Ef; [reflexivity|].
    assert (Hx : x ∈ x :: l) by left. rewrite <- Ef in Hx.
    apply list_elem_of_filter in Hx. destruct Hx as [Hhash Hx].
    apply list_elem_of_filter in Hx. destruct Hx as [Hpub Hx].
    apply elem_of_seq in Hx. unfold hash_at in Hhash. unfold holds_at in Hpub.
    destruct (chunks store !! x) as [P'|] eqn:Hx'; [|discriminate].
    exfalso. apply (Hfirst x P'); [lia | exact Hx' | exact Hpub |].
    simpl in Hhash. congruence. }
  rewrite Hbefore. simpl.
  rewrite (filter_cons_True _ e) by (unfold holds_at; rewrite He; exact HP).
  rewrite (filter_cons_True _ e) by (unfold hash_at; rewrite He; simpl; congruence).
  eauto.
Qed.

Lemma bucket_empty store ragId k :
  (forall e P, chunks store !! e = Some P -> is_publication_of ragId P = true ->
     hash_or_compute P <> k) ->
  default [] (buckets store ragId !! k) = [].
Proof.
  intros Hnone. rewrite bucket_refs.
  destruct (filter _ (publicationRefs store ragId)) as [|x l] eqn:Ef; [reflexivity|].
  assert (Hx : x ∈ x :: l) by left. rewrite <- Ef in Hx.
  apply list_elem_of_filter in Hx. destruct Hx as [Hhash Hx].
  apply elem_of_refs_where in Hx. destruct Hx as (P & HP & Hpub).
  unfold hash_at in Hhash. rewrite HP in Hhash. simpl in Hhash.
  exfalso. apply (Hnone x P HP Hpub). congruence.
Qed.

(** C4 (as amended). Let P be the first publication chunk of the namespace,
    in store order, that shares the hash of the thesis chunk T. If the
    novel-sentence ratio of T against P is below the novelty threshold, T
    ends redundant against P with score 1; otherwise T ends non-redundant.
    Either way nothing else is consulted: the near-duplicate search is
    skipped. *)
Theorem exact_match_precedence store ragId r T e P :
  chunks store !! r = Some T -> is_thesis_of ragId T = true ->
  chunks store !! e = Some P -> is_publication_of ragId P = true ->
  hash_or_compute P = hash_or_compute T ->
  (forall e' P', (e' < e)%nat -> chunks store !! e' = Some P' ->
     is_publication_of ragId P' = true -> hash_or_compute P' <> hash_or_compute T) ->
  chunks (annotateThesisRedundancy store ragId) !! r
  = Some (if Qltb (novelSentenceRatio (Chunk.text T) (Chunk.text P))
               (novelSentenceThreshold getDedupConfig)
          then mark_redundant P 1 (reset_thesis T)
          else reset_thesis T).
Proof.
  intros Hr HT He HP Hhash Hfirst.
  rewrite (lookup_annotated store ragId r T Hr). f_equal.
  unfold annotated_chunk, thesisRefs.
  rewrite (refs_nonempty _ _ r T Hr HT), HT.
  unfold annotated_thesis. cbv zeta. unfold publicationRefs at 1.
  rewrite (refs_nonempty _ _ e P He HP).
  destruct (bucket_head store ragId (hash_or_compute T) e P He HP Hhash Hfirst)
    as [rest ->].
  rewrite (hashed_heap_publication store ragId e P He HP). reflexivity.
Qed.

Lemma Qltb_false a b : Qltb a b = false -> (b <= a)%Q.
Proof.
  unfold Qltb. intros Hf. apply negb_false_iff in Hf. apply Qle_bool_iff. exact Hf.
Qed.

Lemma Qltb_true a b : Qltb a b = true -> (a < b)%Q.
Proof.
  unfold Qltb. intros Ht. apply negb_true_iff in Ht. apply Qnot_le_lt.
  intros Hle. apply Qle_bool_iff in Hle. congruence.
Qed.

Lemma qualifies_iff cfg t p :
  qualifies cfg t p = true
  <-> (lexicalThreshold cfg <= lexicalOverlapScore (Chunk.text t) (Chunk.text p))%Q
      /\ (cosineThreshold cfg <= pairCosine t p)%Q.
Proof.
  unfold qualifies. rewrite andb_true_iff, !negb_true_iff. split.
  - intros [Hl Hc]. split; apply Qltb_false; assumption.
  - intros [Hl Hc]. split.
    + destruct (Qltb _ (lexicalThreshold cfg)) eqn:E; [|reflexivity].
      apply Qltb_true in E. exfalso. eapply Qlt_not_le; eauto.
    + destruct (Qltb _ (cosineThreshold cfg)) eqn:E; [|reflexivity].
      apply Qltb_true in E. exfalso. eapply Qlt_not_le; eauto.
Qed.

Lemma consider_publication_cases cfg (h : Heap) t best r p :
  h !! r = Some p ->
  consider_publication cfg h t best r
  = if qualifies cfg t p
    then match fst best with
         | None => (Some r, combinedSimilarity t p)
         | Some _ => if Qltb (snd best) (combinedSimilarity t p)
                     then (Some r, combinedSimilarity t p) else best
         end
    else best.
Proof.
  intros Hp. unfold consider_publication, qualifies, combinedSimilarity. rewrite Hp.
  destruct (Qltb _ (lexicalThreshold cfg)); [reflexivity|].
  destruct (Qltb _ (cosineThreshold cfg)); reflexivity.
Qed.

Lemma best_so_far_step cfg (h : Heap) t seen best r :
  best_so_far cfg h t seen best ->
  best_so_far cfg h t (seen ++ [r]) (consider_publication cfg h t best r).
Proof.
  intros Hinv.
  assert (Hsplit : forall e, e ∈ seen ++ [r] -> e ∈ seen \/ e = r).
  { intros e He. apply elem_of_app in He. destruct He as [He|He]; [auto|].
    apply list_elem_of_singleton in He. auto. }
  destruct (h !! r) as [p|] eqn:Hp.
  2:{ unfold consider_publication. rewrite Hp. unfold best_so_far in *.
      destruct (fst best) as [b|].
      - destruct Hinv as (p & Hb & Hhb & Hq & Hs & Hmax). exists p.
        split; [apply elem_of_app; auto|]. repeat split; auto.
        intros e q He Hhe. apply Hsplit in He. destruct He as [He| ->]; [eauto | congruence].
      - intros e q He Hhe. apply Hsplit in He. destruct He as [He| ->]; [eauto | congruence]. }
  rewrite (consider_publication_cases cfg h t best r p Hp).
  unfold best_so_far in *.
  destruct (qualifies cfg t p) eqn:Hqual.
  - destruct (fst best) as [b|] eqn:Eb.
    + destruct Hinv as (pb & Hb & Hhb & Hq & Hs & Hmax).
      destruct (Qltb (snd best) (combinedSimilarity t p)) eqn:Elt.
      * cbn [fst snd]. exists p. split; [apply elem_of_app; right; left|].
        repeat split; auto.
        intros e q He Hhe Hqq. apply Hsplit in He. destruct He as [He| ->].
        -- apply Qltb_true in Elt. rewrite Hs in Elt.
           eapply Qle_trans; [apply (Hmax e q He Hhe Hqq) | apply Qlt_le_weak, Elt].
        -- rewrite Hp in Hhe. inversion Hhe; subst. apply Qle_refl.
      * rewrite Eb. exists pb. split; [apply elem_of_app; auto|]. repeat split; auto.
        intros e q He Hhe Hqq. apply Hsplit in He. destruct He as [He| ->]; [eauto|].
        rewrite Hp in Hhe. inversion Hhe; subst.
        apply Qltb_false in Elt. rewrite Hs in Elt. exact Elt.
    + cbn [fst snd]. exists p. split; [apply elem_of_app; right; left|].
      repeat split; auto.
      intros e q He Hhe Hqq. apply Hsplit in He. destruct He as [He| ->].
      * rewrite (Hinv e q He Hhe) in Hqq. discriminate.
      * rewrite Hp in Hhe. inversion Hhe; subst. apply Qle_refl.
  - destruct (fst best) as [b|].
    + destruct Hinv as (pb & Hb & Hhb & Hq & Hs & Hmax). exists pb.
      split; [apply elem_of_app; auto|]. repeat split; auto.
      intros e q He Hhe Hqq. apply Hsplit in He. destruct He as [He| ->]; [eauto|].
      rewrite Hp in Hhe. inversion Hhe; subst. congruence.
    + intros e q He Hhe. apply Hsplit in He. destruct He as [He| ->]; [eauto|].
      rewrite Hp in Hhe. inversion Hhe; subst. exact Hqual.
Qed.

(** The near-duplicate loop returns a qualifying chunk of maximal combined
    similarity, or nothing when no chunk qualifies. *)
Lemma near_duplicate_loop cfg (h : Heap) t rs :
  best_so_far cfg h t rs (foldl (consider_publication cfg h t) (None, 0%Q) rs).
Proof.
  assert (Hgen : forall rs seen best, best_so_far cfg h t seen best ->
             best_so_far cfg h t (seen ++ rs) (foldl (consider_publication cfg h t) best rs)).
  { clear rs. induction rs as [|r rs IH]; intros seen best Hinv; simpl.
    - rewrite app_nil_r. exact Hinv.
    - replace (seen ++ r :: rs) with ((seen ++ [r]) ++ rs) by (rewrite <- app_assoc; reflexivity).
      apply IH, best_so_far_step, Hinv. }
  apply (Hgen rs [] (None, 0%Q)). unfold best_so_far. simpl.
  intros e p He. inversion He.
Qed.

Lemma publication_ref store ragId e P :
  chunks store !! e = Some P -> is_publication_of ragId P = true ->
  e ∈ publicationRefs store ragId /\ hashed_heap store ragId !! e = Some (fill_hash P).
Proof.
  intros He HP. split; [apply elem_of_refs_where; eauto|].
  apply hashed_heap_publication; assumption.
Qed.

Lemma publication_ref_inv store ragId e p :
  e ∈ publicationRefs store ragId -> hashed_heap store ragId !! e = Some p ->
  exists P, chunks store !! e = Some P /\ is_publication_of ragId P = true
            /\ p = fill_hash P.
Proof.
  intros He Hp. apply elem_of_refs_where in He. destruct He as (P & HP & Hpub).
  rewrite (hashed_heap_publication store ragId e P HP Hpub) in Hp.
  inversion Hp; subst. eauto.
Qed.

(** C3 (as amended). For a thesis chunk T that shares its hash with no
    publication chunk of the namespace: a publication chunk P qualifies
    exactly when the 5-gram Jaccard of T and P reaches the lexical threshold
    and the cosine reaches the cosine threshold, where the cosine is the
    similarity of the two embeddings when both exist and 0 otherwise. When
    no chunk qualifies T ends non-redundant. Otherwise the engine keeps a
    qualifying chunk B of maximal [(cosine + lexical) / 2], and T ends
    redundant against B with that score unless its novel-sentence ratio
    against B reaches the novelty threshold. *)
Theorem near_duplicate_search store ragId r T :
  chunks store !! r = Some T -> is_thesis_of ragId T = true ->
  (forall e P, chunks store !! e = Some P -> is_publication_of ragId P = true ->
     hash_or_compute P <> hash_or_compute T) ->
  let cfg := getDedupConfig in
  let result := chunks (annotateThesisRedundancy store ragId) !! r in
  (forall P, qualifies cfg T P = true
     <-> (lexicalThreshold cfg <= lexicalOverlapScore (Chunk.text T) (Chunk.text P))%Q
         /\ (cosineThreshold cfg <= pairCosine T P)%Q)
  /\ (forall P, Chunk.embedding T = None \/ Chunk.embedding P = None ->
        pairCosine T P = 0%Q)
  /\ ((forall e P, chunks store !! e = Some P -> is_publication_of ragId P = true ->
         qualifies cfg T P = false) ->
      result = Some (reset_thesis T))
  /\ ((exists e P, chunks store !! e = Some P /\ is_publication_of ragId P = true
                   /\ qualifies cfg T P = true) ->
      exists b B,
        chunks store !! b = Some B /\ is_publication_of ragId B = true
        /\ qualifies cfg T B = true
        /\ (forall e P, chunks store !! e = Some P -> is_publication_of ragId P = true ->
              qualifies cfg T P = true ->
              (combinedSimilarity T P <= combinedSimilarity T B)%Q)
        /\ result
           = Some (if Qle_bool (novelSentenceThreshold cfg)
                        (novelSentenceRatio (Chunk.text T) (Chunk.text B))
                   then reset_thesis T
                   else mark_redundant B (combinedSimilarity T B) (reset_thesis T))).
Proof.
  intros Hr HT Hnoexact. cbv zeta.
  split; [intros P; apply qualifies_iff|].
  split.
  { intros P [Hnone|Hnone]; unfold pairCosine; rewrite Hnone;
      [|destruct (Chunk.embedding T)]; reflexivity. }
  rewrite (lookup_annotated store ragId r T Hr).
  unfold annotated_chunk, thesisRefs. rewrite (refs_nonempty _ _ r T Hr HT), HT.
  unfold annotated_thesis. cbv zeta.
  rewrite (bucket_empty store ragId _ Hnoexact).
  pose proof (near_duplicate_loop getDedupConfig (hashed_heap store ragId)
                (reset_thesis T) (publicationRefs store ragId)) as Hloop.
  set (best := foldl _ _ _) in *.
  unfold best_so_far in Hloop.
  split.
  - intros Hnone.
    destruct (length (publicationRefs store ragId) =? 0)%nat; [reflexivity|].
    destruct (fst best) as [b|]; [|reflexivity].
    destruct Hloop as (p & Hb & Hhb & Hq & _).
    destruct (publication_ref_inv store ragId b p Hb Hhb) as (B & HB & HpubB & ->).
    change (qualifies getDedupConfig T B = true) in Hq.
    rewrite (Hnone b B HB HpubB) in Hq. discriminate.
  - intros (e & P & HP & HpubP & HqP).
    unfold publicationRefs at 1. rewrite (refs_nonempty _ _ e P HP HpubP).
    destruct (publication_ref store ragId e P HP HpubP) as [He Hhe].
    destruct (fst best) as [b|].
    + destruct Hloop as (p & Hb & Hhb & Hq & Hs & Hmax).
      destruct (publication_ref_inv store ragId b p Hb Hhb) as (B & HB & HpubB & ->).
      exists b, B. split; [exact HB|]. split; [exact HpubB|]. split; [exact Hq|].
      split.
      * intros e' P' HP' HpubP' HqP'.
        destruct (publication_ref store ragId e' P' HP' HpubP') as [He' Hhe'].
        apply (Hmax e' (fill_hash P') He' Hhe'). exact HqP'.
      * rewrite Hhb, Hs. reflexivity.
    + exfalso. specialize (Hloop e (fill_hash P) He Hhe).
      change (qualifies getDedupConfig T P = false) in Hloop. congruence.
Qed.

End WithServices.

Lemma exact_match_precedence_witness :
  chunks (@annotateThesisRedundancy Scenario.services Scenario.identical_store "ns") !! 1%nat
  = Some (if Qltb (novelSentenceRatio (Chunk.text Scenario.lined_thesis)
                     (Chunk.text Scenario.lined_publication))
               (novelSentenceThreshold (@getDedupConfig Scenario.services))
          then mark_redundant Scenario.lined_publication 1
                 (@reset_thesis Scenario.services Scenario.lined_thesis)
          else @reset_thesis Scenario.services Scenario.lined_thesis).
Proof.
  apply (@exact_match_precedence Scenario.services Scenario.identical_store "ns"
           1%nat Scenario.lined_thesis 0%nat Scenario.lined_publication).
  - vm_compute. reflexivity.
  - vm_compute. reflexivity.
  - vm_compute. reflexivity.
  - vm_compute. reflexivity.
  - vm_compute. reflexivity.
  - intros e' P' Hlt. lia.
Defined.

(** The thesis chunk shares its hash with the second publication chunk and
    has no sentence that the second publication chunk lacks, yet it ends
    non-redundant: the engine compares it with the first chunk of the
    bucket, whose single sentence differs from both thesis sentences. *)
Lemma exact_match_counterexample :
  ~ (forall (S : Services) store ragId r T e P,
       chunks store !! r = Some T -> is_thesis_of ragId T = true ->
       chunks store !! e = Some P -> is_publication_of ragId P = true ->
       hash_or_compute P = hash_or_compute T ->
       Qltb (novelSentenceRatio (Chunk.text T) (Chunk.text P))
         (novelSentenceThreshold getDedupConfig) = true ->
       exists T', chunks (annotateThesisRedundancy store ragId) !! r = Some T'
                  /\ Chunk.isRedundant T' = Some true
                  /\ Chunk.redundantOf T' = Some (Chunk.id P)
                  /\ Chunk.redundancyScore T' = Some 1%Q).
Proof.
  intros Hclaim.
  destruct (Hclaim Scenario.services Scenario.newline_store "ns" 2%nat
              Scenario.lined_thesis 1%nat Scenario.lined_publication)
    as (T' & HT' & Hred & _); try (vm_compute; reflexivity).
  vm_compute in HT'. inversion HT'; subst. vm_compute in Hred. discriminate.
Qed.

Lemma near_duplicate_search_witness :
  let store := Scenario.embedded_store in
  let T := Scenario.with_embedding [1; 0]%Q Scenario.zeta_thesis in
  let cfg := @getDedupConfig Scenario.services in
  let result := chunks (@annotateThesisRedundancy Scenario.services store "ns") !! 1%nat in
  (forall P, @qualifies Scenario.services cfg T P = true
     <-> (lexicalThreshold cfg <= lexicalOverlapScore (Chunk.text T) (Chunk.text P))%Q
         /\ (cosineThreshold cfg <= @pairCosine Scenario.services T P)%Q)
  /\ (forall P, Chunk.embedding T = None \/ Chunk.embedding P = None ->
        @pairCosine Scenario.services T P = 0%Q)
  /\ ((forall e P, chunks store !! e = Some P -> is_publication_of "ns" P = true ->
         @qualifies Scenario.services cfg T P = false) ->
      result = Some (@reset_thesis Scenario.services T))
  /\ ((exists e P, chunks store !! e = Some P /\ is_publication_of "ns" P = true
                   /\ @qualifies Scenario.services cfg T P = true) ->
      exists b B,
        chunks store !! b = Some B /\ is_publication_of "ns" B = true
        /\ @qualifies Scenario.services cfg T B = true
        /\ (forall e P, chunks store !! e = Some P -> is_publication_of "ns" P = true ->
              @qualifies Scenario.services cfg T P = true ->
              (@combinedSimilarity Scenario.services T P
               <= @combinedSimilarity Scenario.services T B)%Q)
        /\ result
           = Some (if Qle_bool (novelSentenceThreshold cfg)
                        (novelSentenceRatio (Chunk.text T) (Chunk.text B))
                   then @reset_thesis Scenario.services T
                   else mark_redundant B (@combinedSimilarity Scenario.services T B)
                          (@reset_thesis Scenario.services T))).
Proof.
  apply (@near_duplicate_search Scenario.services Scenario.embedded_store "ns" 1%nat
           (Scenario.with_embedding [1; 0]%Q Scenario.zeta_thesis)).
  - vm_compute. reflexivity.
  - vm_compute. reflexivity.
  - intros [|[|e]] P He; simpl in He; inversion He; subst; clear He.
    + intros _. vm_compute. discriminate.
    + vm_compute. discriminate.
Defined.

(** A thesis chunk and a publication chunk without embeddings, with equal
    5-gram sets and no novel sentence: the pair meets the condition of the
    specification, yet the thesis chunk ends non-redundant, because the
    missing cosine counts as 0 and fails the threshold 0.96. *)
Lemma near_duplicate_embedding_counterexample :
  ~ (forall (S : Services) store ragId r T,
       chunks store !! r = Some T -> is_thesis_of ragId T = true ->
       (forall e P, chunks store !! e = Some P -> is_publication_of ragId P = true ->
          hash_or_compute P <> hash_or_compute T) ->
       (exists e P, chunks store !! e = Some P /\ is_publication_of ragId P = true
                    /\ spec_qualifies getDedupConfig T P) ->
       exists b B,
         chunks store !! b = Some B /\ is_publication_of ragId B = true
         /\ spec_qualifies getDedupConfig T B
         /\ chunks (annotateThesisRedundancy store ragId) !! r
            = Some (if Qle_bool (novelSentenceThreshold getDedupConfig)
                         (novelSentenceRatio (Chunk.text T) (Chunk.text B))
                    then reset_thesis T
                    else mark_redundant B (combinedSimilarity T B) (reset_thesis T))).
Proof.
  intros Hclaim.
  destruct (Hclaim Scenario.services Scenario.punctuation_store "ns" 1%nat
              Scenario.zeta_thesis) as (b & B & HB & HpubB & _ & Hres).
  - vm_compute. reflexivity.
  - vm_compute. reflexivity.
  - intros [|[|e]] P He; simpl in He; inversion He; subst; clear He.
    + intros _. vm_compute. discriminate.
    + vm_compute. discriminate.
  - exists 0%nat, Scenario.zeta_publication.
    split; [vm_compute; reflexivity|]. split; [vm_compute; reflexivity|].
    split; [vm_compute; discriminate | exact I].
  - destruct b as [|[|b]]; simpl in HB; inversion HB; subst; clear HB.
    + vm_compute in Hres. inversion Hres.
    + vm_compute in HpubB. discriminate.
Qed.

End RedundancyFacts.

(* ===================================================================== *)
(** * Strings                                                             *)
(* ===================================================================== *)

Module StringFacts.
Import Js.

#[local] Arguments append !_ _ / : simpl nomatch.

Lemma app_assoc (a b c : string) : (a +:+ b) +:+ c = a +:+ (b +:+ c).
Proof. induction a as [|x a IH]; simpl; [reflexivity | rewrite IH; reflexivity]. Qed.

Lemma app_nil_r (a : string) : a +:+ "" = a.
Proof. induction a as [|x a IH]; simpl; [reflexivity | rewrite IH; reflexivity]. Qed.

Lemma ascii_eqb_eq a b : ascii_eqb a b = true <-> a = b.
Proof.
  unfold ascii_eqb, code. rewrite N.eqb_eq. split; [|congruence].
  intros Heq. rewrite <- (ascii_N_embedding a), <- (ascii_N_embedding b), Heq. reflexivity.
Qed.

Lemma ascii_eqb_refl a : ascii_eqb a a = true.
Proof. apply ascii_eqb_eq. reflexivity. Qed.


Lemma all_chars_app C a b : all_chars C (a +:+ b) = all_chars C a && all_chars C b.
Proof.
  induction a as [|x a IH]; simpl; [reflexivity|].
  rewrite IH, andb_assoc. reflexivity.
Qed.

Lemma all_chars_weaken (C D : ascii -> bool) s :
  (forall c, C c = true -> D c = true) -> all_chars C s = true -> all_chars D s = true.
Proof.
  intros HCD. induction s as [|x s IH]; simpl; [reflexivity|].
  intros Hs. apply andb_prop in Hs. destruct Hs as [Hx Hs].
  rewrite (HCD x Hx), (IH Hs). reflexivity.
Qed.


Lemma trimStart_suffix s : exists a, s = a +:+ trimStart s.
Proof.
  induction s as [|c r IH]; simpl; [exists ""; reflexivity|].
  destruct (is_space c).
  - destruct IH as [a Ha]. exists (String c a). simpl. rewrite <- Ha. reflexivity.
  - exists "". reflexivity.
Qed.

Lemma trimEnd_prefix s : exists b, s = trimEnd s +:+ b.
Proof.
  induction s as [|c r IH]; simpl; [exists ""; reflexivity|].
  destruct IH as [b Hb].
  destruct (is_space c && is_empty (trimEnd r)) eqn:E.
  - exists (String c r). reflexivity.
  - exists b. simpl. rewrite <- Hb. reflexivity.
Qed.

(** [trim] keeps a piece of its argument. *)
Lemma trim_infix s : exists a b, s = a +:+ trim s +:+ b.
Proof.
  unfold trim. destruct (trimStart_suffix s) as [a Ha].
  destruct (trimEnd_prefix (trimStart s)) as [b Hb].
  exists a, b. rewrite <- Hb. exact Ha.
Qed.

Lemma substring_prefix n s : exists b, s = String.substring 0 n s +:+ b.
Proof.
  revert s. induction n as [|n IH]; intros s.
  - exists s. destruct s; reflexivity.
  - destruct s as [|c r]; [exists ""; reflexivity|].
    destruct (IH r) as [b Hb]. exists b. simpl. rewrite <- Hb. reflexivity.
Qed.

End StringFacts.

(* ===================================================================== *)
(** * Citation markers                                                    *)
(* ===================================================================== *)

Module MarkerFacts.
Import Js Agent StringFacts.

#[local] Arguments append !_ _ / : simpl nomatch.




Lemma startsWith_app p r : startsWith p (p +:+ r) = true.
Proof.
  induction p as [|a p IH]; simpl; [reflexivity|].
  rewrite ascii_eqb_refl, IH. reflexivity.
Qed.

Lemma startsWith_inv p s : startsWith p s = true -> exists r, s = p +:+ r.
Proof.
  revert s. induction p as [|a p IH]; intros s Hs; simpl in *; [eauto|].
  destruct s as [|b s]; [discriminate|].
  apply andb_prop in Hs. destruct Hs as [Hab Hs].
  apply ascii_eqb_eq in Hab. subst. destruct (IH s Hs) as [r ->]. eauto.
Qed.





Lemma marker_at_not_bracket c r : not_lbracket c = true -> marker_at (String c r) = None.
Proof.
  unfold not_lbracket, marker_at. intros Hc. apply negb_true_iff in Hc.
  rewrite Hc. reflexivity.
Qed.


Lemma digit_code d : is_digit d = true -> (48 <= code d <= 57)%N.
Proof.
  unfold is_digit, in_range. intros Hd. apply andb_prop in Hd. destruct Hd as [Hlo Hhi].
  apply N.leb_le in Hlo. apply N.leb_le in Hhi. lia.
Qed.




Lemma name_char_cases c :
  name_char c = true ->
  is_digit c = true \/ c = "T"%char \/ c = "R"%char \/ c = "P"%char
  \/ c = "W"%char \/ c = "S"%char.
Proof.
  unfold name_char. cbn [existsb]. intros Hc.
  repeat match type of Hc with
         | (_ || _) = true => apply orb_prop in Hc; destruct Hc as [Hc|Hc]
         end;
    try apply ascii_eqb_eq in Hc; try discriminate; auto 10.
Qed.



Lemma name_char_not_rbracket c : name_char c = true -> ascii_eqb c RBRACKET = false.
Proof.
  intros Hn.
  destruct (name_char_cases c Hn) as [Hd | [-> | [-> | [-> | [-> | ->]]]]]; try reflexivity.
  apply digit_code in Hd. unfold ascii_eqb.
  change (code RBRACKET) with 93%N. destruct (N.eqb_spec (code c) 93); [lia | reflexivity].
Qed.


#[local] Arguments hasUnknownMarker : simpl never.
#[local] Arguments marker_at : simpl never.

Section Known.
Variable validMarkers : gset string.

#[local] Abbreviation unknown := (hasUnknownMarker validMarkers).

Lemma unknown_cons c r :
  unknown (String c r)
  = match marker_at (String c r) with
    | Some (m, _) => negb (bool_decide (m ∈ validMarkers))
    | None => false
    end || unknown r.
Proof. reflexivity. Qed.

Lemma unknown_skip c r : not_lbracket c = true -> unknown (String c r) = unknown r.
Proof. intros Hc. rewrite unknown_cons, marker_at_not_bracket by exact Hc. reflexivity. Qed.

(** Text without an opening bracket holds no marker. *)
Lemma unknown_plain w x : all_chars not_lbracket w = true -> unknown (w +:+ x) = unknown x.
Proof.
  induction w as [|c w IH]; simpl; [reflexivity|].
  intros Hw. apply andb_prop in Hw. destruct Hw as [Hc Hw].
  rewrite unknown_skip by exact Hc. apply IH, Hw.
Qed.

Lemma unknown_plain_only w : all_chars not_lbracket w = true -> unknown w = false.
Proof. intros Hw. rewrite <- (app_nil_r w), unknown_plain by exact Hw. reflexivity. Qed.









Lemma length_app (a b : string) :
  String.length (a +:+ b) = (String.length a + String.length b)%nat.
Proof. induction a as [|c a IH]; simpl; [reflexivity | rewrite IH; reflexivity]. Qed.













End Known.

End MarkerFacts.

(* ===================================================================== *)
(** * Evidence contract                                                   *)
(* ===================================================================== *)

Module ContractFacts.
Import Js Agent StringFacts MarkerFacts.

#[local] Arguments append !_ _ / : simpl nomatch.
#[local] Arguments hasUnknownMarker : simpl never.
#[local] Arguments marker_at : simpl never.

(** Decimal numerals are digits. *)
Lemma pretty_N_char_digit x : is_digit (pretty_N_char x) = true.
Proof.
  unfold pretty_N_char.
  repeat match goal with |- context [match ?y with _ => _ end] => destruct y end;
    reflexivity.
Qed.

Lemma pretty_N_go_digits x : forall s,
  exists w, pretty_N_go x s = w +:+ s /\ all_chars is_digit w = true
            /\ ((0 < x)%N -> w <> EmptyString).
Proof.
  induction (N.lt_wf_0 x) as [x _ IH]. intros s.
  destruct (N.eq_dec x 0%N) as [->|Hx].
  - exists "". rewrite pretty_N_go_0. split; [reflexivity|]. split; [reflexivity | lia].
  - rewrite pretty_N_go_step by lia.
    destruct (IH (x `div` 10)%N (N.div_lt x 10 ltac:(lia) ltac:(lia))
                (String (pretty_N_char (x `mod` 10)) s)) as (w & -> & Hw & _).
    exists (w +:+ String (pretty_N_char (x `mod` 10)) "").
    rewrite app_assoc. simpl. split; [reflexivity|].
    rewrite all_chars_app, Hw. simpl. rewrite pretty_N_char_digit.
    split; [reflexivity|]. intros _. destruct w; discriminate.
Qed.

Lemma pretty_nat_digits n :
  pretty (S n) <> EmptyString /\ all_chars is_digit (pretty (S n)) = true.
Proof.
  unfold pretty, pretty_nat, pretty, pretty_N.
  destruct (decide (N.of_nat (S n) = 0%N)) as [H0|H0]; [lia|].
  destruct (pretty_N_go_digits (N.of_nat (S n)) "") as (w & -> & Hw & Hne).
  rewrite app_nil_r. split; [apply Hne; lia | exact Hw].
Qed.



Section Known.
Variable validMarkers : gset string.

#[local] Abbreviation unknown := (hasUnknownMarker validMarkers).












End Known.




(** The pass over the answer is a single one: removing an unknown marker
    can join the text around it into a marker that is not examined again. *)
Example strip_single_pass :
  stripUnknownMarkers "[P[P99]7]" {["P1"]} = "[P7]"
  /\ hasUnknownMarker {["P1"]} (stripUnknownMarkers "[P[P99]7]" {["P1"]}) = true
  /\ no_nested_bracket "[P[P99]7]" = false.
Proof. vm_compute. auto. Qed.

End ContractFacts.

(* ===================================================================== *)
(** * Text utilities                                                      *)
(* ===================================================================== *)

Module TextFacts.
Import Js Text ChunkerFacts.

Lemma Zpos_of_nat_pos n : (0 < n)%nat -> Z.pos (Pos.of_nat n) = Z.of_nat n.
Proof. intros Hn. rewrite <- positive_nat_Z, Nat2Pos.id by lia. reflexivity. Qed.

(** A fraction of two counts lies between 0 and 1 when the numerator does
    not exceed the denominator. *)
Lemma count_ratio_range (k n : nat) :
  (k <= n)%nat -> (0 < n)%nat -> (0 <= Z.of_nat k # Pos.of_nat n <= 1)%Q.
Proof.
  intros Hk Hn. unfold Qle. simpl. rewrite Zpos_of_nat_pos by exact Hn. lia.
Qed.

Lemma substring_all s : String.substring 0 (String.length s) s = s.
Proof. induction s as [|c r IH]; simpl; [reflexivity | rewrite IH; reflexivity]. Qed.

(** An answer of the loop does not depend on the iterations left over. *)
Lemma chunkLoop_more_fuel normalized chunkSize overlap fuel : forall fuel' start acc r,
  chunkLoop fuel normalized chunkSize overlap start acc = Some r ->
  (fuel <= fuel')%nat ->
  chunkLoop fuel' normalized chunkSize overlap start acc = Some r.
Proof.
  induction fuel as [|fuel IH]; intros fuel' start acc r Hr Hle; [discriminate|].
  destruct fuel' as [|fuel']; [lia|].
  cbn [chunkLoop] in *.
  destruct (start <? len normalized); [|exact Hr].
  cbv zeta in *.
  destruct (_ >=? len normalized); [exact Hr|].
  apply IH; [exact Hr | lia].
Qed.

Lemma chunkText_total text chunkSize overlap :
  0 <= overlap < chunkSize ->
  exists chunks,
    (forall fuel, (String.length text <= fuel)%nat ->
       chunkText fuel text chunkSize overlap = Some chunks)
    /\ Forall (fun c => truthy c = true /\ trim c = c) chunks.
Proof.
  intros Hov.
  destruct (chunkText_returns text chunkSize overlap Hov) as (chunks & Heq & Hall).
  exists chunks. split; [|exact Hall].
  intros fuel Hfuel. revert Heq. unfold chunkText.
  destruct (is_empty (trim (replace_crlf text))); [auto|].
  destruct (chunkLoop (String.length text) _ _ _ _ _) as [r|] eqn:Hr; [|discriminate].
  rewrite (chunkLoop_more_fuel _ _ _ _ _ _ _ _ Hr Hfuel). auto.
Qed.

(** X1. With an overlap smaller than the chunk size the chunker returns: one
    list of chunks is the answer for every iteration budget from the length
    of the text on, and every chunk is non-empty and trimmed. *)
Theorem chunkText_terminates text chunkSize overlap :
  0 <= overlap < chunkSize ->
  exists chunks,
    (forall fuel, (String.length text <= fuel)%nat ->
       chunkText fuel text chunkSize overlap = Some chunks)
    /\ Forall (fun c => c <> "" /\ trim c = c) chunks.
Proof.
  intros Hov.
  destruct (chunkText_total text chunkSize overlap Hov) as (chunks & Heq & Hall).
  exists chunks. split; [exact Heq|].
  eapply Forall_impl; [exact Hall|]. intros c [Hne Htrim]. split; [|exact Htrim].
  intros ->. discriminate.
Qed.

Lemma chunkText_terminates_witness :
  exists chunks,
    (forall fuel, (String.length "alpha beta gamma" <= fuel)%nat ->
       chunkText fuel "alpha beta gamma" 6 2 = Some chunks)
    /\ Forall (fun c => c <> "" /\ trim c = c) chunks.
Proof. apply (chunkText_terminates "alpha beta gamma" 6 2). lia. Defined.

(** X2. A text that fits into one chunk comes back as that one chunk, the
    normalized text, whatever the overlap is. *)
Theorem chunkText_single_window text chunkSize overlap fuel :
  trim (replace_crlf text) <> "" ->
  len (trim (replace_crlf text)) <= chunkSize ->
  (0 < fuel)%nat ->
  chunkText fuel text chunkSize overlap = Some [trim (replace_crlf text)].
Proof.
  intros Hne Hfit Hfuel. unfold chunkText.
  set (normalized := trim (replace_crlf text)) in *.
  destruct normalized as [|c r] eqn:En; [congruence|]. rewrite <- En in *.
  assert (Hemp : is_empty normalized = false) by (rewrite En; reflexivity).
  rewrite Hemp. destruct fuel as [|fuel]; [lia|].
  cbn [chunkLoop].
  assert (Hpos : 0 < len normalized) by (rewrite En; unfold len; simpl; lia).
  destruct (Z.ltb_spec 0 (len normalized)); [|lia]. cbv zeta.
  replace (Z.min (0 + chunkSize) (len normalized)) with (len normalized) by lia.
  destruct (Z.geb_spec (len normalized) (len normalized)); [|lia].
  simpl. unfold slice. rewrite Z.sub_0_r. unfold len. rewrite Nat2Z.id.
  change (Z.to_nat 0) with 0%nat. rewrite substring_all.
  subst normalized. rewrite trim_idem.
  rewrite filter_cons_True by (rewrite En; reflexivity). reflexivity.
Qed.

Lemma chunkText_single_window_witness :
  chunkText 1 "  one window " 900 140 = Some ["one window"].
Proof.
  apply (chunkText_single_window "  one window " 900 140 1);
    [vm_compute; discriminate | vm_compute; discriminate | lia].
Defined.

Lemma all_space_replace_crlf s :
  all_chars is_space s = true -> all_chars is_space (replace_crlf s) = true.
Proof.
  assert (Hgen : forall n s, (String.length s <= n)%nat ->
            all_chars is_space s = true -> all_chars is_space (replace_crlf s) = true).
  { induction n as [|n IH]; intros [|c [|d r]] Hn Hs; simpl in *; try lia; try exact Hs.
    apply andb_prop in Hs. destruct Hs as [Hc Hs].
    apply andb_prop in Hs. destruct Hs as [Hd Hs].
    destruct ((code c =? 13)%N && (code d =? 10)%N); cbn [all_chars].
    - rewrite Hd. apply IH; [lia | exact Hs].
    - rewrite Hc. apply (IH (String d r)); [simpl; lia|]. simpl. rewrite Hd. exact Hs. }
  apply (Hgen (String.length s)). lia.
Qed.

Lemma all_space_trim s : all_chars is_space s = true -> trim s = "".
Proof.
  intros Hs. unfold trim.
  assert (Hstart : trimStart s = "").
  { induction s as [|c r IH]; simpl in *; [reflexivity|].
    apply andb_prop in Hs. destruct Hs as [Hc Hs]. rewrite Hc. auto. }
  rewrite Hstart. reflexivity.
Qed.

(** A text of white space only has no chunk, whatever the configuration
    and the iteration budget. *)
Lemma chunkText_blank text chunkSize overlap fuel :
  all_chars is_space text = true -> chunkText fuel text chunkSize overlap = Some [].
Proof.
  intros Hs. unfold chunkText.
  rewrite (all_space_trim _ (all_space_replace_crlf _ Hs)). reflexivity.
Qed.


Lemma replace_chars_length C r s : String.length (replace_chars C r s) = String.length s.
Proof. induction s as [|c s IH]; simpl; [reflexivity | rewrite IH; reflexivity]. Qed.

Lemma replace_chars_fixed C r s :
  all_chars (fun c => negb (C c)) s = true -> replace_chars C r s = s.
Proof.
  induction s as [|c s IH]; simpl; [reflexivity|].
  intros Hs. apply andb_prop in Hs. destruct Hs as [Hc Hs].
  apply negb_true_iff in Hc. rewrite Hc, (IH Hs). reflexivity.
Qed.

(** A sanitized file name has the length of the original, consists of
    letters, digits, dots, underscores and dashes only (so it holds no path
    separator), and sanitizing it again changes nothing. *)
Lemma sanitizeFileName_chars fileName :
  String.length (sanitizeFileName fileName) = String.length fileName
  /\ all_chars is_file_char (sanitizeFileName fileName) = true
  /\ includes (sanitizeFileName fileName) "/" = false
  /\ sanitizeFileName (sanitizeFileName fileName) = sanitizeFileName fileName.
Proof.
  assert (Hall : all_chars is_file_char (sanitizeFileName fileName) = true).
  { unfold sanitizeFileName. induction fileName as [|c s IH]; simpl; [reflexivity|].
    rewrite IH, andb_true_r. destruct (is_file_char c) eqn:E; simpl; [exact E | reflexivity]. }
  split; [apply replace_chars_length|]. split; [exact Hall|]. split.
  - revert Hall. generalize (sanitizeFileName fileName). intros s.
    unfold includes. induction s as [|c s IH]; simpl; [reflexivity|].
    intros Hs. apply andb_prop in Hs. destruct Hs as [Hc Hs].
    specialize (IH Hs).
    destruct (ascii_eqb "/" c) eqn:E.
    + apply StringFacts.ascii_eqb_eq in E. subst c. discriminate.
    + simpl. destruct (indexOf "/" s); [discriminate | reflexivity].
  - unfold sanitizeFileName at 1. apply replace_chars_fixed.
    eapply StringFacts.all_chars_weaken; [|exact Hall].
    intros c Hc. rewrite Hc. reflexivity.
Qed.



(** X5. The keyword score is a fraction between 0 and 1, and it is positive
    exactly when a non-empty term of the query is a term of the candidate. *)
Theorem keywordScore_positive query candidate :
  let terms s := split_runs (fun c => negb (is_word c)) (toLowerCase s) in
  (0 <= keywordScore query candidate <= 1)%Q
  /\ ((0 < keywordScore query candidate)%Q
      <-> exists term, term <> "" /\ term ∈ terms query /\ term ∈ terms candidate).
Proof.
  cbv zeta. unfold keywordScore. cbv zeta.
  set (queryTerms := list_to_set _ : gset string).
  set (candidateTerms := split_runs _ (toLowerCase candidate)).
  assert (Hq : forall t, t ∈ queryTerms
                         <-> t <> "" /\ t ∈ split_runs (fun c => negb (is_word c)) (toLowerCase query)).
  { intros t. subst queryTerms. rewrite elem_of_list_to_set, list_elem_of_filter.
    unfold truthy. destruct t; simpl; intuition congruence. }
  assert (Hpos : (0 < length candidateTerms)%nat).
  { subst candidateTerms. unfold split_runs.
    generalize (toLowerCase candidate), false, EmptyString.
    induction s as [|c r IH]; intros b cur; simpl; [lia|].
    destruct (negb (is_word c)); [destruct b|]; simpl; auto; lia. }
  destruct (Nat.eqb_spec (size queryTerms) 0) as [Hz|Hnz].
  - split; [split; discriminate|]. split; [intros Hlt; inversion Hlt|].
    intros (t & Hne & Ht & _). exfalso.
    apply size_empty_inv in Hz. apply (not_elem_of_empty (C := gset string) t).
    apply Hz, Hq. auto.
  - split.
    { apply count_ratio_range; [|lia]. etransitivity; [apply length_filter | lia]. }
    unfold Qlt. simpl. rewrite Z.mul_1_r.
    split.
    + intros Hlt.
      destruct (filter (fun t => t ∈ queryTerms) candidateTerms) as [|t rest] eqn:Ef;
        [simpl in Hlt; lia|].
      assert (Ht : t ∈ filter (fun t => t ∈ queryTerms) candidateTerms) by (rewrite Ef; left).
      apply list_elem_of_filter in Ht. destruct Ht as [Htq Htc].
      apply Hq in Htq. exists t. tauto.
    + intros (t & Hne & Htq & Htc).
      assert (Ht : t ∈ filter (fun t => t ∈ queryTerms) candidateTerms).
      { apply list_elem_of_filter. split; [apply Hq; auto | exact Htc]. }
      destruct (filter (fun t => t ∈ queryTerms) candidateTerms); [inversion Ht|].
      simpl. lia.
Qed.
End TextFacts.

(* ===================================================================== *)
(** * Similarity kernel                                                   *)
(* ===================================================================== *)

Module SimilarityFacts.
Import Js Rag.

Lemma Qmult_swap (x y : Q) : (x * y)%Q = (y * x)%Q.
Proof. unfold Qmult. rewrite Z.mul_comm, Pos.mul_comm. reflexivity. Qed.

Lemma inter_count (a b : gset string) :
  length (filter (fun item => item ∈ b) (elements a)) = size (a ∩ b).
Proof.
  unfold size, set_size. simpl. apply Permutation_length, NoDup_Permutation.
  - apply NoDup_filter, NoDup_elements.
  - apply NoDup_elements.
  - intros x. rewrite list_elem_of_filter, !elem_of_elements, elem_of_intersection. tauto.
Qed.

Lemma jaccard_sym (a b : gset string) : jaccard a b = jaccard b a.
Proof.
  unfold jaccard. rewrite !inter_count.
  rewrite (orb_comm (size a =? 0)%nat).
  rewrite (comm_L (∩) b a).
  rewrite (Nat.add_comm (size a)). reflexivity.
Qed.

Lemma jaccard_range (a b : gset string) : (0 <= jaccard a b <= 1)%Q.
Proof.
  unfold jaccard. rewrite inter_count.
  destruct (_ || _); [split; discriminate|].
  cbv zeta.
  assert (Ha : (size (a ∩ b) <= size a)%nat) by (apply subseteq_size, intersection_subseteq_l).
  assert (Hb : (size (a ∩ b) <= size b)%nat) by (apply subseteq_size, intersection_subseteq_r).
  destruct (Nat.eqb_spec (size a + size b - size (a ∩ b)) 0); [split; discriminate|].
  apply TextFacts.count_ratio_range; lia.
Qed.

Lemma jaccard_self (a : gset string) : a <> ∅ -> (jaccard a a == 1)%Q.
Proof.
  intros Hne. unfold jaccard. rewrite inter_count.
  assert (Hsz : (0 < size a)%nat).
  { destruct (Nat.eq_dec (size a) 0%nat) as [Hz|]; [|lia].
    apply size_empty_inv in Hz. apply leibniz_equiv in Hz. congruence. }
  rewrite (idemp_L (∩) a).
  destruct (Nat.eqb_spec (size a) 0); [lia|]. simpl.
  replace (size a + size a - size a)%nat with (size a) by lia.
  destruct (Nat.eqb_spec (size a) 0); [lia|].
  unfold Qeq. simpl. rewrite TextFacts.Zpos_of_nat_pos by exact Hsz. lia.
Qed.

Section WithServices.
Context `{Services}.

Lemma toWordFiveGrams_nonempty text : wordTerms text <> [] -> toWordFiveGrams text <> ∅.
Proof.
  intros Hne. unfold toWordFiveGrams. cbv zeta.
  destruct (Nat.ltb_spec (length (wordTerms text)) 5) as [Hlt|Hge].
  - destruct (wordTerms text) as [|t ts]; [congruence|]. simpl.
    intros Hempty. apply (not_elem_of_empty (C := gset string) (join " " (t :: ts))).
    rewrite <- Hempty. apply elem_of_singleton. reflexivity.
  - destruct (length (wordTerms text) - 4)%nat as [|k] eqn:Ek; [lia|].
    simpl. intros Hempty.
    apply (not_elem_of_empty (C := gset string) (join " " (take 5 (drop 0 (wordTerms text))))).
    rewrite <- Hempty. apply elem_of_union_l, elem_of_singleton. reflexivity.
Qed.

(** The lexical overlap of two texts does not depend on their order, lies
    between 0 and 1, and is 1 for a text with at least one term compared
    with itself. *)
Lemma lexicalOverlapScore_facts a b :
  lexicalOverlapScore a b = lexicalOverlapScore b a
  /\ (0 <= lexicalOverlapScore a b <= 1)%Q
  /\ (lexicalOverlapScore a a == if bool_decide (wordTerms a = []) then 0 else 1)%Q.
Proof.
  unfold lexicalOverlapScore. split; [apply jaccard_sym|]. split; [apply jaccard_range|].
  destruct (bool_decide_reflect (wordTerms a = [])) as [Hnil|Hne].
  - unfold toWordFiveGrams. rewrite Hnil. simpl. reflexivity.
  - apply jaccard_self, toWordFiveGrams_nonempty, Hne.
Qed.

(** The share of novel sentences lies between 0 and 1, and no sentence of a
    text is novel against the text itself. *)
Lemma novelSentenceRatio_facts thesisText publicationText :
  (0 <= novelSentenceRatio thesisText publicationText <= 1)%Q
  /\ (novelSentenceRatio thesisText thesisText == 0)%Q.
Proof.
  split.
  - unfold novelSentenceRatio. cbv zeta.
    destruct (Nat.eqb_spec (length (splitSentences thesisText)) 0); [split; discriminate|].
    apply TextFacts.count_ratio_range; [apply length_filter | lia].
  - unfold novelSentenceRatio. cbv zeta.
    destruct (Nat.eqb_spec (length (splitSentences thesisText)) 0); [reflexivity|].
    assert (Hnone : forall (seen : gset string) l,
               (forall s, s ∈ l -> s ∈ seen) -> filter (fun s => s ∉ seen) l = []).
    { intros seen l. induction l as [|s l IH]; intros Hl; [reflexivity|].
      rewrite filter_cons_False by (intros Hs; apply Hs, Hl; left).
      apply IH. intros s' Hs'. apply Hl. right. exact Hs'. }
    rewrite Hnone; [reflexivity|].
    intros s Hs. apply elem_of_list_to_set. exact Hs.
Qed.

Lemma clamp01_range value : (0 <= clamp01 value <= 1)%Q.
Proof.
  unfold clamp01, Qltb.
  destruct (Qle_bool 0 value) eqn:E0; simpl; [|split; discriminate].
  destruct (Qle_bool value 1) eqn:E1; simpl; [|split; discriminate].
  apply Qle_bool_iff in E0, E1. auto.
Qed.

Lemma accumulate_swap a : forall b dot normA normB,
  Cosine.accumulate b a (dot, normB, normA)
  = (let '(d, x, y) := Cosine.accumulate a b (dot, normA, normB) in (d, y, x)).
Proof.
  induction a as [|av a IH]; intros [|bv b] dot normA normB; simpl; try reflexivity.
  rewrite (Qmult_swap bv av). apply IH.
Qed.

(** Cosine similarity does not depend on the order of its arguments. *)
Lemma cosineSimilarity_swap a b :
  Cosine.cosineSimilarity a b = Cosine.cosineSimilarity b a.
Proof.
  unfold Cosine.cosineSimilarity.
  destruct (Nat.eqb_spec (length a) (length b)) as [Hlen|Hlen].
  - rewrite <- Hlen, Nat.eqb_refl. simpl.
    destruct (length a =? 0)%nat; [reflexivity|].
    rewrite (accumulate_swap a b 0%Q 0%Q 0%Q).
    destruct (Cosine.accumulate a b (0, 0, 0)%Q) as [[dot normA] normB].
    rewrite (orb_comm (Qeq_bool normB 0)).
    destruct (_ || _); [reflexivity|].
    rewrite (Qmult_swap (math_sqrt normB)). reflexivity.
  - destruct (Nat.eqb_spec (length b) (length a)); [congruence|]. reflexivity.
Qed.

(** X6. The similarity measures of the redundancy engine. The lexical overlap
    and the cosine similarity do not depend on the order of their
    arguments. The lexical overlap and the share of novel sentences lie
    between 0 and 1. A text compared with itself has the overlap 1 (0 when
    it has no term) and no novel sentence. *)
Theorem similarity_measures (a b : string) (u v : list Q) :
  lexicalOverlapScore a b = lexicalOverlapScore b a
  /\ Cosine.cosineSimilarity u v = Cosine.cosineSimilarity v u
  /\ (0 <= lexicalOverlapScore a b <= 1)%Q
  /\ (0 <= novelSentenceRatio a b <= 1)%Q
  /\ (lexicalOverlapScore a a == if bool_decide (wordTerms a = []) then 0 else 1)%Q
  /\ (novelSentenceRatio a a == 0)%Q.
Proof.
  destruct (lexicalOverlapScore_facts a b) as (Hsym & Hrange & Hself).
  destruct (novelSentenceRatio_facts a b) as (Hnovel & Hnone).
  pose proof (cosineSimilarity_swap u v). tauto.
Qed.

End WithServices.
End SimilarityFacts.

(* ===================================================================== *)
(** * Retrieval: ranking                                                  *)
(* ===================================================================== *)

Module RankingFacts.
Import Js Rag RetrieveFacts.

(** The order that the comparator [(a, b) => b.score - a.score] asks for. *)
Inductive Ranked {A} : list (A * Q) -> Prop :=
| Ranked_nil : Ranked []
| Ranked_cons x l :
    (forall y, y ∈ l -> (snd y <= snd x)%Q) -> Ranked l -> Ranked (x :: l).

Lemma Qltb_true_lt a b : Qltb a b = true -> (a < b)%Q.
Proof.
  unfold Qltb. rewrite negb_true_iff, <- not_true_iff_false, Qle_bool_iff.
  apply Qnot_le_lt.
Qed.

Lemma Qltb_false_le a b : Qltb a b = false -> (b <= a)%Q.
Proof. unfold Qltb. rewrite negb_false_iff, Qle_bool_iff. auto. Qed.

Lemma insert_ranked_Ranked {A} (x : A * Q) l : Ranked l -> Ranked (insert_ranked x l).
Proof.
  induction 1 as [|y l Hy Hl IH]; simpl.
  - constructor; [intros y Hy; inversion Hy | constructor].
  - destruct (Qltb (snd x) (snd y)) eqn:E.
    + constructor; [|exact IH].
      intros z Hz. rewrite insert_ranked_perm in Hz.
      apply elem_of_cons in Hz. destruct Hz as [->|Hz]; [|auto].
      apply Qlt_le_weak, Qltb_true_lt, E.
    + apply Qltb_false_le in E. constructor; [|constructor; assumption].
      intros z Hz. apply elem_of_cons in Hz. destruct Hz as [->|Hz]; [exact E|].
      eapply Qle_trans; [apply Hy, Hz | exact E].
Qed.

Lemma sort_ranked_Ranked {A} (l : list (A * Q)) : Ranked (sort_ranked l).
Proof.
  unfold sort_ranked. induction l as [|x l IH]; simpl; [constructor|].
  apply insert_ranked_Ranked, IH.
Qed.

Lemma Ranked_sublist {A} (l1 l2 : list (A * Q)) :
  l1 `sublist_of` l2 -> Ranked l2 -> Ranked l1.
Proof.
  induction 1 as [|x l1 l2 Hsub IH|x l1 l2 Hsub IH]; intros Hr.
  - constructor.
  - inversion Hr; subst. constructor; [|auto].
    intros y Hy. eauto using elem_of_sublist.
  - inversion Hr; subst. auto.
Qed.

Lemma Ranked_lookup {A} (l : list (A * Q)) i j x y :
  Ranked l -> (i < j)%nat -> l !! i = Some x -> l !! j = Some y -> (snd y <= snd x)%Q.
Proof.
  intros Hr. revert i j. induction Hr as [|z l Hz Hl IH]; intros i j Hij Hi Hj.
  - inversion Hi.
  - destruct j as [|j]; [lia|]. destruct i as [|i].
    + simpl in Hi. inversion Hi; subst. apply Hz. eapply list_elem_of_lookup_2, Hj.
    + simpl in Hi, Hj. apply (IH i j); [lia | assumption | assumption].
Qed.

(** The selection loop keeps what is selected and appends a subsequence of
    the ranking. *)
Lemma select_capped_sublist k m (ranked : list (RagChunk * Q)) :
  forall selected counts,
    exists picked, select_capped k m ranked selected counts = selected ++ (fst <$> picked)
                   /\ picked `sublist_of` ranked.
Proof.
  induction ranked as [|item rest IH]; intros selected counts; simpl.
  - exists []. rewrite app_nil_r. split; constructor.
  - destruct (_ >=? k).
    { exists []. rewrite app_nil_r. split; [reflexivity | apply sublist_nil_l]. }
    destruct (_ >=? m).
    + destruct (IH selected counts) as (picked & -> & Hsub).
      exists picked. split; [reflexivity | apply sublist_cons, Hsub].
    + destruct (IH (selected ++ [fst item])
                  (<[Chunk.documentId (fst item) := default 0 (counts !! Chunk.documentId (fst item)) + 1]> counts))
        as (picked & -> & Hsub).
      exists (item :: picked). split; [rewrite <- app_assoc; reflexivity|].
      apply sublist_skip, Hsub.
Qed.

Section WithServices.
Context `{Services}.

(** The retrieved list is a subsequence, chunks only, of the stable ranking
    of the candidates by score. *)
Lemma retrieve_ranking store p :
  let score := chunkScore (p_query p) (ollamaEmbedding (p_query p)) in
  let candidates := filter (fun chunk => candidate p chunk = true) (chunks store) in
  exists picked,
    retrieveRelevantChunks store p = fst <$> picked
    /\ picked `sublist_of` sort_ranked ((fun chunk => (chunk, score chunk)) <$> candidates).
Proof.
  cbv zeta. unfold retrieveRelevantChunks. cbv zeta.
  set (candidates := filter _ (chunks store)).
  set (ranked := sort_ranked _).
  destruct (length candidates =? 0)%nat.
  { exists []. split; [reflexivity | apply sublist_nil_l]. }
  destruct (match maxChunksPerDocument p with
            | Some m => if 0 <? m then Some m else None | None => None end) as [m|].
  - destruct (select_capped_sublist (Z.max 1 (default DEFAULT_RAG_TOP_K (p_topK p))) m ranked [] ∅)
      as (picked & Heq & Hsub).
    exists picked. split; [exact Heq | exact Hsub].
  - eexists. split; [reflexivity | apply sublist_take].
Qed.

(** X9. Retrieval returns the chunks best first: no returned chunk is followed
    by one of larger score; and it returns no stored chunk more often than
    the store holds it. *)
Theorem retrieve_best_first store p :
  best_first (chunkScore (p_query p) (ollamaEmbedding (p_query p)))
    (retrieveRelevantChunks store p)
  /\ retrieveRelevantChunks store p ⊆+ chunks store.
Proof.
  destruct (retrieve_ranking store p) as (picked & Heq & Hsub). cbv zeta in Hsub.
  set (score := chunkScore (p_query p) (ollamaEmbedding (p_query p))) in *.
  set (candidates := filter _ (chunks store)) in *.
  assert (Hscore : forall x, x ∈ picked -> snd x = score (fst x)).
  { intros x Hx. eapply elem_of_sublist in Hx; [|exact Hsub].
    rewrite sort_ranked_perm in Hx. apply list_elem_of_fmap in Hx.
    destruct Hx as (c & -> & _). reflexivity. }
  split.
  - rewrite Heq. intros i j ci cj Hij Hi Hj.
    rewrite list_lookup_fmap in Hi, Hj.
    destruct (picked !! i) as [x|] eqn:Ex; [|discriminate].
    destruct (picked !! j) as [y|] eqn:Ey; [|discriminate].
    simpl in Hi, Hj. inversion Hi; inversion Hj; subst.
    rewrite <- (Hscore x), <- (Hscore y) by (eapply list_elem_of_lookup_2; eassumption).
    apply (Ranked_lookup picked i j); [|assumption..].
    eapply Ranked_sublist; [exact Hsub | apply sort_ranked_Ranked].
  - rewrite Heq.
    transitivity (fst <$> sort_ranked ((fun chunk => (chunk, score chunk)) <$> candidates)).
    + apply sublist_submseteq, fmap_sublist, Hsub.
    + rewrite sort_ranked_perm, <- list_fmap_compose.
      rewrite (list_fmap_ext _ id candidates) by reflexivity.
      rewrite list_fmap_id. subst candidates.
      apply sublist_submseteq, sublist_filter.
Qed.

(** X10. Without a per-document cap the answer is the top of the ranking: it has
    [min(max(1, topK), number of candidates)] chunks, and every candidate
    left out scores no higher than any chunk returned. *)
Theorem retrieve_uncapped_top store p :
  uncapped p = true ->
  let score := chunkScore (p_query p) (ollamaEmbedding (p_query p)) in
  let candidates := filter (fun chunk => candidate p chunk = true) (chunks store) in
  length (retrieveRelevantChunks store p)
  = Nat.min (Z.to_nat (effective_topK p)) (length candidates)
  /\ exists rest,
       retrieveRelevantChunks store p ++ rest ≡ₚ candidates
       /\ forall c c', c ∈ retrieveRelevantChunks store p -> c' ∈ rest ->
            (score c' <= score c)%Q.
Proof.
  intros Hun. cbv zeta. unfold retrieveRelevantChunks, effective_topK. cbv zeta.
  set (score := chunkScore (p_query p) (ollamaEmbedding (p_query p))).
  set (candidates := filter _ (chunks store)).
  set (n := Z.to_nat (Z.max 1 (default DEFAULT_RAG_TOP_K (p_topK p)))).
  assert (Hcap : match maxChunksPerDocument p with
                 | Some m => if 0 <? m then Some m else None | None => None end = None).
  { unfold uncapped in Hun. destruct (maxChunksPerDocument p) as [m|]; [|reflexivity].
    destruct (0 <? m); [discriminate | reflexivity]. }
  rewrite Hcap. clear Hcap.
  destruct (Nat.eqb_spec (length candidates) 0) as [Hz|Hnz].
  { rewrite Hz, Nat.min_0_r. split; [reflexivity|]. exists [].
    destruct candidates; [|discriminate]. split; [reflexivity|].
    intros c c' Hc. inversion Hc. }
  set (ranked := sort_ranked ((fun chunk => (chunk, score chunk)) <$> candidates)).
  assert (Hperm : fst <$> ranked ≡ₚ candidates).
  { subst ranked. rewrite sort_ranked_perm, <- list_fmap_compose.
    rewrite (list_fmap_ext _ id candidates) by reflexivity. rewrite list_fmap_id. reflexivity. }
  split.
  - rewrite length_fmap, length_take. f_equal.
    rewrite <- (length_fmap fst ranked), Hperm. reflexivity.
  - exists (fst <$> drop n ranked). split.
    + rewrite <- fmap_app, take_drop. exact Hperm.
    + intros c c' Hc Hc'.
      apply list_elem_of_fmap in Hc, Hc'.
      destruct Hc as (x & -> & Hx). destruct Hc' as (y & -> & Hy).
      assert (Hscore : forall z, z ∈ ranked -> snd z = score (fst z)).
      { intros z Hz. subst ranked. rewrite sort_ranked_perm in Hz.
        apply list_elem_of_fmap in Hz. destruct Hz as (c0 & -> & _). reflexivity. }
      rewrite <- (Hscore x), <- (Hscore y).
      * apply list_elem_of_lookup in Hx, Hy.
        destruct Hx as [i Hi]. destruct Hy as [j Hj].
        pose proof (lookup_lt_Some _ _ _ Hi) as Hlt. rewrite length_take in Hlt.
        rewrite lookup_take_lt in Hi by lia. rewrite lookup_drop in Hj.
        apply (Ranked_lookup ranked i (n + j)); [apply sort_ranked_Ranked | lia | exact Hi | exact Hj].
      * eapply elem_of_sublist; [exact Hy | apply sublist_drop].
      * eapply elem_of_sublist; [exact Hx | apply sublist_take].
Qed.

End WithServices.

Lemma retrieve_uncapped_top_witness :
  let p := @Agent.mk_params "ns" "segnet two" 2 None None false None in
  let score := @chunkScore Scenario.services "segnet two" None in
  let candidates := filter (fun chunk => candidate p chunk = true) (chunks Scenario.segnet_store) in
  length (@retrieveRelevantChunks Scenario.services Scenario.segnet_store p)
  = Nat.min (Z.to_nat (@effective_topK Scenario.services p)) (length candidates)
  /\ exists rest,
       @retrieveRelevantChunks Scenario.services Scenario.segnet_store p ++ rest ≡ₚ candidates
       /\ forall c c', c ∈ @retrieveRelevantChunks Scenario.services Scenario.segnet_store p ->
            c' ∈ rest -> (score c' <= score c)%Q.
Proof.
  apply (@retrieve_uncapped_top Scenario.services Scenario.segnet_store
           (@Agent.mk_params "ns" "segnet two" 2 None None false None)).
  reflexivity.
Defined.

End RankingFacts.

(* ===================================================================== *)
(** * Store: deletion and ingestion                                       *)
(* ===================================================================== *)

Module StoreFacts.
Import Js Rag Store RetrieveFacts.

Lemma NoDup_fmap_same {A B} (f : A -> B) (l : list A) x y :
  NoDup (f <$> l) -> x ∈ l -> y ∈ l -> f x = f y -> x = y.
Proof.
  induction l as [|z l IH]; intros Hnd Hx Hy Hf; [inversion Hx|].
  rewrite fmap_cons in Hnd. apply NoDup_cons in Hnd. destruct Hnd as [Hz Hnd].
  apply elem_of_cons in Hx, Hy.
  destruct Hx as [->|Hx], Hy as [->|Hy]; auto.
  - exfalso. apply Hz. rewrite Hf. apply list_elem_of_fmap_2, Hy.
  - exfalso. apply Hz. rewrite <- Hf. apply list_elem_of_fmap_2, Hx.
Qed.

(** The identifiers collected by a deletion. *)
Definition deleted_ids (store : RagStore) (ragId : string) (documentNames : list string)
  : gset string :=
  list_to_set
    (Doc.id <$> filter (fun doc => Doc.ragId doc = ragId
                                   /\ Doc.fileName doc ∈ (list_to_set documentNames : gset string))
                  (documents store)).

Lemma elem_of_deleted_ids store ragId names i :
  i ∈ deleted_ids store ragId names
  <-> exists doc, doc ∈ documents store /\ Doc.id doc = i
                  /\ Doc.ragId doc = ragId /\ Doc.fileName doc ∈ names.
Proof.
  unfold deleted_ids. rewrite elem_of_list_to_set, list_elem_of_fmap. split.
  - intros (doc & -> & Hdoc). apply list_elem_of_filter in Hdoc.
    destruct Hdoc as [[Hr Hn] Hin]. apply elem_of_list_to_set in Hn. eauto.
  - intros (doc & Hin & <- & Hr & Hn). exists doc. split; [reflexivity|].
    apply list_elem_of_filter. split; [|exact Hin].
    split; [exact Hr | apply elem_of_list_to_set, Hn].
Qed.

Lemma filter_fmap_mark (P : RagDocument -> Prop) `{!forall d, Decision (P d)}
    (Q : RagDocument -> Prop) `{!forall d, Decision (Q d)}
    (g : RagDocument -> RagDocument) (l : list RagDocument) :
  (forall d, d ∈ l -> Q d -> g d = d /\ P d) ->
  (forall d, d ∈ l -> ~ Q d -> ~ P (g d)) ->
  filter P (g <$> l) = filter Q l.
Proof.
  induction l as [|d l IH]; intros Hkeep Hdrop; [reflexivity|].
  rewrite fmap_cons.
  assert (IH' : filter P (g <$> l) = filter Q l).
  { apply IH; intros d' Hd'; [apply Hkeep | apply Hdrop]; right; exact Hd'. }
  destruct (decide (Q d)) as [Hq|Hq].
  - destruct (Hkeep d ltac:(left) Hq) as [Hg Hp].
    rewrite Hg, filter_cons_True, (filter_cons_True Q) by assumption. rewrite IH'. reflexivity.
  - pose proof (Hdrop d ltac:(left) Hq) as Hp.
    rewrite filter_cons_False, (filter_cons_False Q) by assumption.
    exact IH'.
Qed.

(** X11. After a deletion the listing of the namespace is the earlier listing
    without the named files, and the listing of every other namespace is
    unchanged, provided the documents of the store have distinct ids. *)
Theorem delete_then_list store ragId documentNames :
  NoDup (Doc.id <$> documents store) ->
  let store' := fst (deleteRagDocuments store ragId documentNames) in
  listRagDocuments store' ragId
  = filter (fun doc => Doc.fileName doc ∉ documentNames) (listRagDocuments store ragId)
  /\ forall other, other <> ragId ->
       listRagDocuments store' other = listRagDocuments store other.
Proof.
  intros Hnd. cbv zeta. unfold deleteRagDocuments. cbv zeta. simpl.
  fold (deleted_ids store ragId documentNames).
  assert (Hid : forall d, d ∈ documents store ->
            (Doc.id d ∈ deleted_ids store ragId documentNames
             <-> Doc.ragId d = ragId /\ Doc.fileName d ∈ documentNames)).
  { intros d Hd. rewrite elem_of_deleted_ids. split.
    - intros (d' & Hd' & Heq & Hr & Hn).
      assert (d' = d) by (eapply NoDup_fmap_same; eauto). subst d'. auto.
    - intros [Hr Hn]. eauto. }
  unfold listRagDocuments. simpl. split.
  - rewrite list_filter_filter.
    apply filter_fmap_mark.
    + intros d Hd [Hn Hlist]. apply andb_prop in Hlist. destruct Hlist as [Hr Hst].
      apply bool_decide_eq_true in Hr.
      rewrite bool_decide_eq_false_2.
      * split; [reflexivity|]. rewrite bool_decide_eq_true_2 by exact Hr. exact Hst.
      * rewrite (Hid d Hd). tauto.
    + intros d Hd Hnot Hlist.
      destruct (bool_decide_reflect (Doc.id d ∈ deleted_ids store ragId documentNames)) as [Hin|Hout].
      * simpl in Hlist. rewrite andb_false_r in Hlist. discriminate.
      * apply Hnot. split; [|exact Hlist].
        intros Hn. apply Hout. apply (Hid d Hd).
        apply andb_prop in Hlist. destruct Hlist as [Hr _].
        apply bool_decide_eq_true in Hr. auto.
  - intros other Hother.
    apply filter_fmap_mark.
    + intros d Hd Hlist. apply andb_prop in Hlist. destruct Hlist as [Hr Hst].
      apply bool_decide_eq_true in Hr.
      rewrite bool_decide_eq_false_2.
      * split; [reflexivity|]. rewrite bool_decide_eq_true_2 by exact Hr. exact Hst.
      * rewrite (Hid d Hd). intros [Hr' _]. congruence.
    + intros d Hd Hnot Hlist.
      destruct (bool_decide_reflect (Doc.id d ∈ deleted_ids store ragId documentNames)) as [Hin|Hout].
      * simpl in Hlist. rewrite andb_false_r in Hlist. discriminate.
      * apply Hnot. exact Hlist.
Qed.

Lemma delete_then_list_witness :
  let store' := fst (deleteRagDocuments Scenario.segnet_store "ns" ["notes.txt"]) in
  listRagDocuments store' "ns"
  = filter (fun doc => Doc.fileName doc ∉ ["notes.txt"])
      (listRagDocuments Scenario.segnet_store "ns")
  /\ forall other, other <> "ns" ->
       listRagDocuments store' other = listRagDocuments Scenario.segnet_store other.
Proof.
  apply (delete_then_list Scenario.segnet_store "ns" ["notes.txt"]).
  apply (bool_decide_unpack _). vm_compute. exact I.
Defined.

Lemma set_status_idem st doc : set_status st (set_status st doc) = set_status st doc.
Proof. reflexivity. Qed.

(** The rewriting of one document by a deletion with the id set [ids]. *)
Definition mark_deleted (ids : gset string) (doc : RagDocument) : RagDocument :=
  if bool_decide (Doc.id doc ∈ ids) then set_status deleted doc else doc.

Lemma mark_deleted_keys ids doc :
  Doc.id (mark_deleted ids doc) = Doc.id doc
  /\ Doc.ragId (mark_deleted ids doc) = Doc.ragId doc
  /\ Doc.fileName (mark_deleted ids doc) = Doc.fileName doc.
Proof. unfold mark_deleted. destruct (bool_decide _); auto. Qed.

Lemma filter_fmap_stable {A} (P : A -> Prop) `{!forall x, Decision (P x)} (g : A -> A)
    (l : list A) :
  (forall x, P (g x) <-> P x) -> filter P (g <$> l) = g <$> filter P l.
Proof.
  intros Hg. induction l as [|x l IH]; [reflexivity|].
  rewrite fmap_cons, !filter_cons.
  destruct (decide (P x)) as [Hx|Hx].
  - rewrite decide_True by (apply Hg, Hx). rewrite fmap_cons, IH. reflexivity.
  - rewrite decide_False by (rewrite Hg; exact Hx). exact IH.
Qed.

Lemma matching_ids_stable ids ragId (names : gset string) (l : list RagDocument) :
  Doc.id <$> filter (fun doc => Doc.ragId doc = ragId /\ Doc.fileName doc ∈ names)
               (mark_deleted ids <$> l)
  = Doc.id <$> filter (fun doc => Doc.ragId doc = ragId /\ Doc.fileName doc ∈ names) l.
Proof.
  rewrite filter_fmap_stable.
  - rewrite <- list_fmap_compose. apply list_fmap_ext. intros i d _. simpl.
    apply mark_deleted_keys.
  - intros d. destruct (mark_deleted_keys ids d) as (_ & -> & ->). reflexivity.
Qed.

(** X12. Deleting the same names a second time leaves the store as the first
    deletion left it, and reports the same number again: the documents
    already marked as deleted are counted. *)
Theorem delete_twice store ragId documentNames :
  let first := deleteRagDocuments store ragId documentNames in
  let second := deleteRagDocuments (fst first) ragId documentNames in
  fst second = fst first /\ snd second = snd first.
Proof.
  cbv zeta. unfold deleteRagDocuments. cbv zeta. cbn [fst snd documents chunks].
  fold (deleted_ids store ragId documentNames).
  fold (mark_deleted (deleted_ids store ragId documentNames)).
  rewrite matching_ids_stable.
  fold (deleted_ids store ragId documentNames).
  split; [|reflexivity]. f_equal.
  - rewrite <- list_fmap_compose. apply list_fmap_ext. intros i d _. simpl.
    unfold mark_deleted.
    destruct (bool_decide_reflect (Doc.id d ∈ deleted_ids store ragId documentNames)) as [Hin|Hout].
    + simpl. rewrite bool_decide_eq_true_2 by exact Hin. reflexivity.
    + rewrite bool_decide_eq_false_2 by exact Hout. reflexivity.
  - rewrite list_filter_filter. apply list_filter_iff. tauto.
Qed.


Section WithServices.
Context `{Services}.

(** X13. After a deletion no query returns a chunk of a deleted document: every
    returned chunk is a chunk of the store before the deletion, and its
    document is none of the documents named. *)
Theorem delete_hides_chunks store ragId documentNames p :
  Forall (fun c =>
            c ∈ chunks store
            /\ Forall (fun doc =>
                         Doc.ragId doc = ragId -> Doc.fileName doc ∈ documentNames ->
                         Chunk.documentId c <> Doc.id doc)
                 (documents store))
    (retrieveRelevantChunks (fst (deleteRagDocuments store ragId documentNames)) p).
Proof.
  apply Forall_forall. intros c Hc. apply retrieve_elem in Hc. destruct Hc as [Hc _].
  unfold deleteRagDocuments in Hc. cbv zeta in Hc. cbn [fst chunks] in Hc.
  fold (deleted_ids store ragId documentNames) in Hc.
  apply list_elem_of_filter in Hc. destruct Hc as [Hout Hc].
  split; [exact Hc|]. apply Forall_forall. intros doc Hdoc Hr Hn Heq.
  apply Hout. apply elem_of_deleted_ids. exists doc. auto.
Qed.

(** The document record that an ingestion writes, for [count] chunks. *)
Definition ingested_document (p : IngestParams) (fresh : Fresh) (count : nat) : RagDocument :=
  {| Doc.id := documentUUID fresh; Doc.ragId := i_ragId p;
     Doc.fileName := i_fileName p; Doc.fileType := i_fileType p;
     Doc.status := if (0 <? count)%nat then active else failed;
     Doc.uploadedAt := timestamp fresh; Doc.sourceType := i_sourceType p;
     Doc.sourceRef := i_sourceRef p; Doc.documentCount := Z.of_nat count;
     Doc.sourceRole := final_role p; Doc.metadata := normalizeMetadata (i_metadata p) |}.

(** The chunk record that an ingestion writes for the text at [chunkIndex]. *)
Definition ingested_chunk (p : IngestParams) (fresh : Fresh) : nat -> string -> RagChunk :=
  new_chunk p fresh (final_role p)
    (resolvePaperKey (i_fileName p) (normalizeMetadata (i_metadata p)))
    (normalizeMetadata (i_metadata p)).

(** The store of an ingestion before the redundancy engine runs. *)
Definition ingested_store (p : IngestParams) (fresh : Fresh) (store : RagStore)
    (texts : list string) : RagStore :=
  {| documents :=
       filter (fun doc => same_file (i_ragId p) (i_fileName p) doc = false) (documents store)
       ++ [ingested_document p fresh (length texts)];
     chunks := kept_chunks store p ++ imap (ingested_chunk p fresh) texts |}.

Lemma ingest_unfold fuel env fresh store p texts :
  Text.chunkText fuel (i_text p) (fst (getChunkingConfig env (final_role p)))
    (snd (getChunkingConfig env (final_role p))) = Some texts ->
  ingestRagDocument fuel env fresh store p
  = Some (annotateThesisRedundancy (ingested_store p fresh store texts) (i_ragId p),
          ingested_document p fresh (length texts)).
Proof.
  intros Htexts. unfold ingestRagDocument. cbv zeta.
  fold (final_role p).
  destruct (getChunkingConfig env (final_role p)) as [chunkSize overlap].
  simpl in Htexts. rewrite Htexts. reflexivity.
Qed.

(** When the configured window advances, ingestion returns. *)
Lemma ingest_returns fuel env fresh store p :
  advancing env (final_role p) = true ->
  (String.length (i_text p) <= fuel)%nat ->
  exists texts,
    Forall (fun c => truthy c = true /\ trim c = c) texts
    /\ Text.chunkText fuel (i_text p) (fst (getChunkingConfig env (final_role p)))
         (snd (getChunkingConfig env (final_role p))) = Some texts
    /\ ingestRagDocument fuel env fresh store p
       = Some (annotateThesisRedundancy (ingested_store p fresh store texts) (i_ragId p),
               ingested_document p fresh (length texts)).
Proof.
  intros Hadv Hfuel. unfold advancing in Hadv. apply Z.ltb_lt in Hadv.
  assert (Hnonneg : 0 <= snd (getChunkingConfig env (final_role p))).
  { unfold getChunkingConfig. cbv zeta. cbn [snd].
    destruct (parse_or _ _) as [n|]; [destruct (Z.leb_spec 0 n); [lia|]|];
      destruct (final_role p); lia. }
  destruct (TextFacts.chunkText_total (i_text p) _ _ (conj Hnonneg Hadv))
    as (texts & Htexts & Hall).
  exists texts. split; [exact Hall|]. split; [apply Htexts, Hfuel|].
  apply ingest_unfold, Htexts, Hfuel.
Qed.




(** The engine leaves the content of a chunk as it is. *)
Lemma annotated_chunk_content store ragId c :
  same_content c (annotated_chunk store ragId c).
Proof.
  unfold annotated_chunk.
  destruct (length (thesisRefs store ragId) =? 0)%nat; [unfold same_content; tauto|].
  destruct (is_thesis_of ragId c).
  - destruct (RedundancyFacts.annotated_thesis_shape getDedupConfig (publicationRefs store ragId)
                (buckets store ragId) (hashed_heap store ragId) c) as [-> | (q & sc & ->)];
      unfold same_content; simpl; tauto.
  - destruct (is_publication_of ragId c); unfold same_content; simpl; tauto.
Qed.

(** X15. The chunks after an ingestion: the kept chunks of the store in their
    order, then one chunk for each text of the chunker, with consecutive
    indices from 0, the new document id and the file name and role of the
    document; the document counts these chunks and is [failed] exactly when
    there is none. *)
Theorem ingest_chunk_layout fuel env fresh store p :
  advancing env (final_role p) = true ->
  (String.length (i_text p) <= fuel)%nat ->
  exists store' document texts,
    ingestRagDocument fuel env fresh store p = Some (store', document)
    /\ Text.chunkText fuel (i_text p) (fst (getChunkingConfig env (final_role p)))
         (snd (getChunkingConfig env (final_role p))) = Some texts
    /\ Doc.documentCount document = Z.of_nat (length texts)
    /\ Doc.status document = (if bool_decide (texts = []) then failed else active)
    /\ length (chunks store') = (length (kept_chunks store p) + length texts)%nat
    /\ (forall i c, kept_chunks store p !! i = Some c ->
          exists c', chunks store' !! i = Some c' /\ same_content c c')
    /\ (forall i text, texts !! i = Some text ->
          exists c', chunks store' !! (length (kept_chunks store p) + i)%nat = Some c'
            /\ Chunk.text c' = text /\ Chunk.chunkIndex c' = Z.of_nat i
            /\ Chunk.id c' = chunkUUID fresh i
            /\ Chunk.documentId c' = Doc.id document
            /\ Chunk.ragId c' = i_ragId p
            /\ Chunk.sourceName c' = i_fileName p
            /\ Chunk.sourceRole c' = Doc.sourceRole document
            /\ Chunk.embedding c' = ollamaEmbedding text).
Proof.
  intros Hadv Hfuel.
  destruct (ingest_returns fuel env fresh store p Hadv Hfuel) as (texts & _ & Htexts & Heq).
  eexists _, _, texts. split; [exact Heq|]. split; [exact Htexts|].
  split; [reflexivity|]. split.
  { cbn [ingested_document Doc.status]. destruct texts; reflexivity. }
  rewrite RedundancyFacts.annotateThesisRedundancy_slots. cbn [chunks ingested_store].
  split; [rewrite length_fmap, length_app, length_imap; reflexivity|]. split.
  - intros i c Hc. eexists. split; [|apply annotated_chunk_content].
    rewrite list_lookup_fmap, lookup_app_l by (eapply lookup_lt_Some, Hc).
    rewrite Hc. reflexivity.
  - intros i text Ht. eexists. split.
    + rewrite list_lookup_fmap, lookup_app_r by lia.
      replace (length (kept_chunks store p) + i - length (kept_chunks store p))%nat with i by lia.
      rewrite list_lookup_imap, Ht. reflexivity.
    + pose proof (annotated_chunk_content (ingested_store p fresh store texts) (i_ragId p)
                    (ingested_chunk p fresh i text)) as Hsame.
      unfold same_content in Hsame.
      destruct Hsame as (Hid & Hrag & Hdoc & Htext & Hemb & Hname & Hidx & Hrole & _).
      rewrite Hid, Hrag, Hdoc, Htext, Hemb, Hname, Hidx, Hrole. repeat split.
Qed.

(** X16. A text of white space only is ingested as a [failed] document without
    chunks, whatever the chunking configuration and the iteration budget;
    the chunks of an earlier version of the file are removed all the same. *)
Theorem ingest_blank_text fuel env fresh store p :
  all_chars is_space (i_text p) = true ->
  exists store' document,
    ingestRagDocument fuel env fresh store p = Some (store', document)
    /\ Doc.status document = failed
    /\ Doc.documentCount document = 0
    /\ length (chunks store') = length (kept_chunks store p)
    /\ forall i c, kept_chunks store p !! i = Some c ->
         exists c', chunks store' !! i = Some c' /\ same_content c c'.
Proof.
  intros Hblank.
  pose proof (ingest_unfold fuel env fresh store p []
                (TextFacts.chunkText_blank _ _ _ _ Hblank)) as Heq.
  eexists _, _. split; [exact Heq|]. split; [reflexivity|]. split; [reflexivity|].
  rewrite RedundancyFacts.annotateThesisRedundancy_slots. cbn [chunks ingested_store imap].
  rewrite app_nil_r. split; [apply length_fmap|].
  intros i c Hc. eexists. split; [|apply annotated_chunk_content].
  rewrite list_lookup_fmap, Hc. reflexivity.
Qed.

Lemma elem_of_replaced_ids store p i :
  i ∈ replaced_ids store p
  <-> exists doc, doc ∈ documents store /\ Doc.id doc = i
                  /\ Doc.ragId doc = i_ragId p /\ Doc.fileName doc = i_fileName p.
Proof.
  unfold replaced_ids. rewrite elem_of_list_to_set, list_elem_of_fmap. split.
  - intros (doc & -> & Hdoc). apply list_elem_of_filter in Hdoc.
    destruct Hdoc as [Hsame Hin]. unfold same_file in Hsame.
    apply andb_prop in Hsame. destruct Hsame as [Hr Hn].
    apply bool_decide_eq_true in Hr, Hn. eauto.
  - intros (doc & Hin & <- & Hr & Hn). exists doc. split; [reflexivity|].
    apply list_elem_of_filter. split; [|exact Hin].
    unfold same_file. rewrite !bool_decide_eq_true_2 by assumption. reflexivity.
Qed.

(** X17. After an ingestion every chunk of the store belongs either to the new
    document or to a document other than the ones replaced, and the chunks
    of the other namespaces are as they were and in their order, except
    those attached to a replaced document id. *)
Theorem ingest_frame fuel env fresh store p :
  advancing env (final_role p) = true ->
  (String.length (i_text p) <= fuel)%nat ->
  exists store' document,
    ingestRagDocument fuel env fresh store p = Some (store', document)
    /\ Forall (fun c =>
                 Chunk.documentId c = Doc.id document
                 \/ Forall (fun doc =>
                              Doc.ragId doc = i_ragId p -> Doc.fileName doc = i_fileName p ->
                              Chunk.documentId c <> Doc.id doc)
                      (documents store))
         (chunks store')
    /\ filter (fun c => Chunk.ragId c <> i_ragId p) (chunks store')
       = filter (fun c => Chunk.ragId c <> i_ragId p) (kept_chunks store p).
Proof.
  intros Hadv Hfuel.
  destruct (ingest_returns fuel env fresh store p Hadv Hfuel) as (texts & _ & _ & Heq).
  eexists _, _. split; [exact Heq|].
  rewrite RedundancyFacts.annotateThesisRedundancy_slots. cbn [chunks ingested_store].
  set (store1 := ingested_store p fresh store texts).
  split.
  - apply Forall_forall. intros c' Hc'.
    apply list_elem_of_fmap in Hc'. destruct Hc' as (c & -> & Hc).
    destruct (annotated_chunk_content store1 (i_ragId p) c) as (_ & _ & -> & _).
    apply elem_of_app in Hc. destruct Hc as [Hc|Hc].
    + right. apply list_elem_of_filter in Hc. destruct Hc as [Hout _].
      apply Forall_forall. intros doc Hdoc Hr Hn Heqid.
      apply Hout, elem_of_replaced_ids. exists doc. auto.
    + left. apply list_elem_of_lookup in Hc. destruct Hc as [i Hi].
      rewrite list_lookup_imap in Hi.
      destruct (texts !! i); [|discriminate]. inversion Hi. reflexivity.
  - assert (Hother : forall c, Chunk.ragId c <> i_ragId p ->
              annotated_chunk store1 (i_ragId p) c = c).
    { intros c Hc. unfold annotated_chunk, is_thesis_of, is_publication_of.
      rewrite bool_decide_eq_false_2 by exact Hc. simpl.
      destruct (length _ =? 0)%nat; reflexivity. }
    assert (Hrag : forall c, Chunk.ragId (annotated_chunk store1 (i_ragId p) c) = Chunk.ragId c).
    { intros c. apply (annotated_chunk_content store1 (i_ragId p) c). }
    assert (Hmap : forall l : list RagChunk,
              filter (fun c => Chunk.ragId c <> i_ragId p)
                (annotated_chunk store1 (i_ragId p) <$> l)
              = filter (fun c => Chunk.ragId c <> i_ragId p) l).
    { induction l as [|c l IH]; [reflexivity|].
      rewrite fmap_cons, !filter_cons, Hrag.
      destruct (decide (Chunk.ragId c <> i_ragId p)) as [Hc|Hc]; [|exact IH].
      rewrite (Hother c Hc), IH. reflexivity. }
    assert (Hgen : forall (f : nat -> string -> RagChunk) (l : list string),
              (forall i t, Chunk.ragId (f i t) = i_ragId p) ->
              filter (fun c => Chunk.ragId c <> i_ragId p) (imap f l) = []).
    { intros f l. revert f. induction l as [|t l IH]; intros f Hf; [reflexivity|].
      simpl. rewrite filter_cons_False by (rewrite Hf; auto).
      apply IH. intros i t'. apply Hf. }
    rewrite Hmap, filter_app, Hgen by reflexivity. apply app_nil_r.
Qed.

(** X18. Every configured value is in its valid range, whatever the
    environment holds: the chunk size is positive and the overlap is not
    negative, for every role, and the three thresholds of the redundancy
    engine and the retrieval penalty lie between 0 and 1. When no chunking
    variable is set the overlap is smaller than the chunk size. *)
Theorem configuration_bounds env sourceRole :
  0 < fst (getChunkingConfig env sourceRole)
  /\ 0 <= snd (getChunkingConfig env sourceRole)
  /\ advancing unset_env sourceRole = true
  /\ (0 <= cosineThreshold getDedupConfig <= 1)%Q
  /\ (0 <= lexicalThreshold getDedupConfig <= 1)%Q
  /\ (0 <= novelSentenceThreshold getDedupConfig <= 1)%Q
  /\ (0 <= getRedundantThesisPenalty <= 1)%Q.
Proof.
  split; [|split; [|split]].
  - unfold getChunkingConfig. cbv zeta. cbn [fst].
    destruct (parse_or _ _) as [n|]; [destruct (Z.ltb_spec 0 n); [lia|]|];
      destruct sourceRole; lia.
  - unfold getChunkingConfig. cbv zeta. cbn [snd].
    destruct (parse_or _ _) as [n|]; [destruct (Z.leb_spec 0 n); [lia|]|];
      destruct sourceRole; lia.
  - destruct sourceRole; reflexivity.
  - repeat split; apply SimilarityFacts.clamp01_range.
Qed.

End WithServices.


Lemma ingest_chunk_layout_witness :
  exists store' document texts,
    @ingestRagDocument Scenario.services 14 unset_env Scenario.fresh_ids
      Scenario.segnet_store Scenario.segnet_upload = Some (store', document)
    /\ Text.chunkText 14 (i_text Scenario.segnet_upload)
         (fst (getChunkingConfig unset_env (final_role Scenario.segnet_upload)))
         (snd (getChunkingConfig unset_env (final_role Scenario.segnet_upload))) = Some texts
    /\ Doc.documentCount document = Z.of_nat (length texts)
    /\ Doc.status document = (if bool_decide (texts = []) then failed else active)
    /\ length (chunks store')
       = (length (kept_chunks Scenario.segnet_store Scenario.segnet_upload) + length texts)%nat
    /\ (forall i c, kept_chunks Scenario.segnet_store Scenario.segnet_upload !! i = Some c ->
          exists c', chunks store' !! i = Some c' /\ same_content c c')
    /\ (forall i text, texts !! i = Some text ->
          exists c', chunks store'
                     !! (length (kept_chunks Scenario.segnet_store Scenario.segnet_upload) + i)%nat
                     = Some c'
            /\ Chunk.text c' = text /\ Chunk.chunkIndex c' = Z.of_nat i
            /\ Chunk.id c' = chunkUUID Scenario.fresh_ids i
            /\ Chunk.documentId c' = Doc.id document
            /\ Chunk.ragId c' = i_ragId Scenario.segnet_upload
            /\ Chunk.sourceName c' = i_fileName Scenario.segnet_upload
            /\ Chunk.sourceRole c' = Doc.sourceRole document
            /\ Chunk.embedding c' = @ollamaEmbedding Scenario.services text).
Proof.
  apply (@ingest_chunk_layout Scenario.services 14 unset_env Scenario.fresh_ids
           Scenario.segnet_store Scenario.segnet_upload);
    [reflexivity | vm_compute; lia].
Defined.

Lemma ingest_blank_text_witness :
  exists store' document,
    @ingestRagDocument Scenario.services 0 unset_env Scenario.fresh_ids
      Scenario.segnet_store Scenario.blank_upload = Some (store', document)
    /\ Doc.status document = failed
    /\ Doc.documentCount document = 0
    /\ length (chunks store') = length (kept_chunks Scenario.segnet_store Scenario.blank_upload)
    /\ forall i c, kept_chunks Scenario.segnet_store Scenario.blank_upload !! i = Some c ->
         exists c', chunks store' !! i = Some c' /\ same_content c c'.
Proof.
  apply (@ingest_blank_text Scenario.services 0 unset_env Scenario.fresh_ids
           Scenario.segnet_store Scenario.blank_upload).
  reflexivity.
Defined.

Lemma ingest_frame_witness :
  exists store' document,
    @ingestRagDocument Scenario.services 14 unset_env Scenario.fresh_ids
      Scenario.segnet_store Scenario.segnet_upload = Some (store', document)
    /\ Forall (fun c =>
                 Chunk.documentId c = Doc.id document
                 \/ Forall (fun doc =>
                              Doc.ragId doc = i_ragId Scenario.segnet_upload ->
                              Doc.fileName doc = i_fileName Scenario.segnet_upload ->
                              Chunk.documentId c <> Doc.id doc)
                      (documents Scenario.segnet_store))
         (chunks store')
    /\ filter (fun c => Chunk.ragId c <> i_ragId Scenario.segnet_upload) (chunks store')
       = filter (fun c => Chunk.ragId c <> i_ragId Scenario.segnet_upload)
           (kept_chunks Scenario.segnet_store Scenario.segnet_upload).
Proof.
  apply (@ingest_frame Scenario.services 14 unset_env Scenario.fresh_ids
           Scenario.segnet_store Scenario.segnet_upload);
    [reflexivity | vm_compute; lia].
Defined.

End StoreFacts.

(* ===================================================================== *)
(** * Assembly of the retrieved context                                   *)
(* ===================================================================== *)

Module AssemblyFacts.
Import Js Rag Agent RetrieveFacts.

Lemma merge_unique_go_ids seen l c :
  c ∈ merge_unique_go seen l -> c ∈ l /\ Chunk.id c ∉ seen.
Proof.
  revert seen. induction l as [|x l IH]; intros seen Hc; simpl in Hc; [inversion Hc|].
  destruct (bool_decide_reflect (Chunk.id x ∈ seen)) as [Hin|Hout].
  - apply IH in Hc. destruct Hc. split; [right|]; assumption.
  - apply elem_of_cons in Hc. destruct Hc as [->|Hc]; [split; [left | exact Hout]|].
    apply IH in Hc. destruct Hc as [Hc Hnot]. split; [right; exact Hc|].
    intros Hs. apply Hnot, elem_of_union_r, Hs.
Qed.

Lemma merge_unique_go_NoDup seen l : NoDup (Chunk.id <$> merge_unique_go seen l).
Proof.
  revert seen. induction l as [|x l IH]; intros seen; simpl; [constructor|].
  destruct (bool_decide _); [apply IH|].
  rewrite fmap_cons. constructor; [|apply IH].
  intros Hin. apply list_elem_of_fmap in Hin. destruct Hin as (c & Heq & Hc).
  apply merge_unique_go_ids in Hc. destruct Hc as [_ Hnot].
  apply Hnot, elem_of_union_l, elem_of_singleton. symmetry. exact Heq.
Qed.

Lemma merge_unique_go_covers seen l c :
  c ∈ l -> Chunk.id c ∉ seen -> Chunk.id c ∈ Chunk.id <$> merge_unique_go seen l.
Proof.
  revert seen. induction l as [|x l IH]; intros seen Hc Hnot; [inversion Hc|]. simpl.
  destruct (bool_decide_reflect (Chunk.id x ∈ seen)) as [Hin|Hout].
  - apply elem_of_cons in Hc. destruct Hc as [->|Hc]; [contradiction|]. apply IH; assumption.
  - rewrite fmap_cons.
    destruct (decide (Chunk.id c = Chunk.id x)) as [->|Hne]; [left|].
    right. apply elem_of_cons in Hc. destruct Hc as [->|Hc]; [congruence|].
    apply IH; [exact Hc|].
    intros Hs. apply elem_of_union in Hs. destruct Hs as [Hs|Hs]; [|contradiction].
    apply elem_of_singleton in Hs. contradiction.
Qed.

Lemma merge_unique_go_first seen l c :
  c ∈ merge_unique_go seen l ->
  head (filter (fun x => Chunk.id x = Chunk.id c) l) = Some c.
Proof.
  revert seen. induction l as [|x l IH]; intros seen Hc; simpl in Hc; [inversion Hc|].
  rewrite filter_cons.
  destruct (bool_decide_reflect (Chunk.id x ∈ seen)) as [Hin|Hout].
  - pose proof (merge_unique_go_ids _ _ _ Hc) as [_ Hnot].
    rewrite decide_False by (intros Heq; apply Hnot; rewrite <- Heq; exact Hin).
    eapply IH, Hc.
  - apply elem_of_cons in Hc. destruct Hc as [->|Hc].
    + rewrite decide_True by reflexivity. reflexivity.
    + pose proof (merge_unique_go_ids _ _ _ Hc) as [_ Hnot].
      rewrite decide_False.
      * eapply IH, Hc.
      * intros Heq. apply Hnot, elem_of_union_l, elem_of_singleton. symmetry. exact Heq.
Qed.

Lemma merge_unique_go_fixed seen l :
  NoDup (Chunk.id <$> l) -> (forall c, c ∈ l -> Chunk.id c ∉ seen) ->
  merge_unique_go seen l = l.
Proof.
  revert seen. induction l as [|x l IH]; intros seen Hnd Hseen; [reflexivity|]. simpl.
  rewrite fmap_cons in Hnd. apply NoDup_cons in Hnd. destruct Hnd as [Hx Hnd].
  rewrite bool_decide_eq_false_2 by (apply Hseen; left). f_equal.
  apply IH; [exact Hnd|].
  intros c Hc Hs. apply elem_of_union in Hs. destruct Hs as [Hs|Hs].
  - apply elem_of_singleton in Hs. apply Hx. rewrite <- Hs. apply list_elem_of_fmap_2, Hc.
  - apply (Hseen c); [right; exact Hc | exact Hs].
Qed.

(** X19. Merging keeps, for every chunk id of the input, the first chunk with
    that id and nothing else, in the order of the input; merging again
    changes nothing. *)
Theorem mergeUniqueChunks_first_occurrences l :
  NoDup (Chunk.id <$> mergeUniqueChunks l)
  /\ mergeUniqueChunks l `sublist_of` l
  /\ Forall (fun c => Chunk.id c ∈ Chunk.id <$> mergeUniqueChunks l) l
  /\ Forall (fun c => head (filter (fun x => Chunk.id x = Chunk.id c) l) = Some c)
       (mergeUniqueChunks l)
  /\ mergeUniqueChunks (mergeUniqueChunks l) = mergeUniqueChunks l.
Proof.
  unfold mergeUniqueChunks. split; [apply merge_unique_go_NoDup|].
  split; [apply EngineFacts.merge_unique_go_sublist|]. split; [|split].
  - apply Forall_forall. intros c Hc. apply merge_unique_go_covers; [exact Hc|].
    apply not_elem_of_empty.
  - apply Forall_forall. intros c Hc. eapply merge_unique_go_first, Hc.
  - apply merge_unique_go_fixed; [apply merge_unique_go_NoDup|].
    intros c _. apply not_elem_of_empty.
Qed.

(** What the loop of [capChunksPerDocument] lets through of one document:
    the chunks of that document up to what the cap leaves free. *)
Lemma cap_go_exact m l : forall (counts : gmap string Z) d,
  0 <= default 0 (counts !! d) ->
  Z.of_nat (doc_count d (cap_go m counts l))
  = Z.min (Z.max 0 (m - default 0 (counts !! d))) (Z.of_nat (doc_count d l)).
Proof.
  induction l as [|c l IH]; intros counts d Hpos; cbn [cap_go].
  - unfold doc_count. simpl. lia.
  - cbv zeta. rewrite (doc_count_cons d c l).
    destruct (Z.geb_spec (default 0 (counts !! Chunk.documentId c)) m) as [Hge|Hlt].
    + rewrite IH by exact Hpos.
      destruct (decide (Chunk.documentId c = d)) as [<-|Hne]; lia.
    + rewrite doc_count_cons.
      destruct (decide (Chunk.documentId c = d)) as [<-|Hne].
      * rewrite Nat2Z.inj_add, IH by (rewrite lookup_insert_eq; simpl; lia).
        rewrite lookup_insert_eq. simpl. lia.
      * rewrite Nat2Z.inj_add, IH by (rewrite lookup_insert_ne by exact Hne; exact Hpos).
        rewrite lookup_insert_ne by exact Hne. lia.
Qed.

(** X20. With a positive cap every document keeps its first chunks up to the
    cap, in their order; a cap that is not positive switches the capping
    off. *)
Theorem capChunksPerDocument_exact l maxPerDocument :
  capChunksPerDocument l maxPerDocument `sublist_of` l
  /\ (forall d, doc_count d (capChunksPerDocument l maxPerDocument)
                = if 0 <? maxPerDocument
                  then Nat.min (Z.to_nat maxPerDocument) (doc_count d l)
                  else doc_count d l).
Proof.
  split; [apply EngineFacts.capChunksPerDocument_sublist|].
  intros d. unfold capChunksPerDocument.
  destruct (Z.leb_spec maxPerDocument 0) as [Hle|Hgt].
  - destruct (Z.ltb_spec 0 maxPerDocument); [lia | reflexivity].
  - destruct (Z.ltb_spec 0 maxPerDocument); [|lia].
    pose proof (cap_go_exact maxPerDocument l ∅ d) as Hc.
    rewrite lookup_empty in Hc. simpl in Hc. specialize (Hc ltac:(lia)). lia.
Qed.

(** The loop of [interleaveChunks]: with enough iterations it appends the
    alternation of the two queues up to [topK] chunks in all. *)
Lemma interleave_go_alternate topK fuel : forall (p s merged : list RagChunk),
  (length p + length s < fuel)%nat ->
  interleave_go fuel topK p s merged
  = merged ++ take (Z.to_nat topK - length merged) (alternate p s).
Proof.
  induction fuel as [|fuel IH]; intros p s merged Hfuel; [lia|].
  cbn [interleave_go].
  destruct (Z.ltb_spec (Z.of_nat (length merged)) topK) as [Hlt|Hge].
  2:{ simpl. replace (Z.to_nat topK - length merged)%nat with 0%nat by lia.
      rewrite take_0, app_nil_r. reflexivity. }
  simpl.
  destruct p as [|x p'], s as [|y s']; simpl.
  - destruct (Z.to_nat topK - length merged)%nat; simpl; rewrite app_nil_r; reflexivity.
  - destruct (Z.geb_spec (Z.of_nat (length merged)) topK); [lia|].
    rewrite IH by (simpl in *; lia).
    rewrite length_app. simpl.
    destruct (Z.to_nat topK - length merged)%nat as [|k] eqn:Ek; [lia|].
    rewrite <- app_assoc. simpl.
    replace (Z.to_nat topK - (length merged + 1))%nat with k by lia.
    destruct s'; reflexivity.
  - rewrite length_app. simpl.
    destruct (Z.geb_spec (Z.of_nat (length merged + 1)) topK) as [Hfull|Hroom].
    + replace (Z.to_nat topK - length merged)%nat with 1%nat by lia. reflexivity.
    + rewrite IH by (simpl in *; lia).
      rewrite length_app. simpl.
      destruct (Z.to_nat topK - length merged)%nat as [|k] eqn:Ek; [lia|].
      rewrite <- app_assoc. simpl.
      replace (Z.to_nat topK - (length merged + 1))%nat with k by lia.
      destruct p'; reflexivity.
  - rewrite length_app. simpl.
    destruct (Z.geb_spec (Z.of_nat (length merged + 1)) topK) as [Hfull|Hroom].
    + replace (Z.to_nat topK - length merged)%nat with 1%nat by lia. reflexivity.
    + rewrite IH by (simpl in *; lia).
      rewrite !length_app. simpl.
      destruct (Z.to_nat topK - length merged)%nat as [|[|k]] eqn:Ek; [lia|lia|].
      rewrite <- !app_assoc. simpl.
      replace (Z.to_nat topK - (length merged + 1 + 1))%nat with k by lia.
      reflexivity.
Qed.

Lemma alternate_length {A} (p s : list A) : length (alternate p s) = (length p + length s)%nat.
Proof.
  revert s. induction p as [|x p IH]; intros [|y s]; simpl; try lia.
  rewrite IH. lia.
Qed.

(** X21. Interleaving takes the two lists in turns, the primary list first, and
    stops at [topK] chunks: its result is the first [topK] chunks of the
    alternation, [min(topK, |primary| + |secondary|)] chunks in all. *)
Theorem interleaveChunks_alternates primary secondary topK :
  interleaveChunks primary secondary topK
  = take (Z.to_nat topK) (alternate primary secondary)
  /\ length (interleaveChunks primary secondary topK)
     = Nat.min (Z.to_nat topK) (length primary + length secondary).
Proof.
  assert (Heq : interleaveChunks primary secondary topK
                = take (Z.to_nat topK) (alternate primary secondary)).
  { unfold interleaveChunks. rewrite interleave_go_alternate by lia.
    simpl. rewrite Nat.sub_0_r. reflexivity. }
  split; [exact Heq|]. rewrite Heq, length_take, alternate_length. reflexivity.
Qed.


Lemma math_round_scaled (k n : Z) (d : positive) :
  math_round (inject_Z k * (n # d)) = (2 * k * n + Z.pos d) / (2 * Z.pos d).
Proof.
  unfold math_round, Qfloor, Qplus, Qmult, inject_Z. simpl.
  f_equal; lia.
Qed.

(** X22. The two retrieval targets of the mixed path are not negative and add up
    to at most [topK]; a role without documents gets target 0; when both
    roles have documents the targets add up to [topK] exactly, and the
    publication target is at least 1 whenever publications exist. *)
Theorem mix_targets_bounds intent topK hasPublicationDocs hasThesisDocs :
  1 <= topK ->
  let publicationTarget := fst (mix_targets intent topK hasPublicationDocs hasThesisDocs) in
  let thesisTarget := snd (mix_targets intent topK hasPublicationDocs hasThesisDocs) in
  0 <= publicationTarget /\ 0 <= thesisTarget
  /\ publicationTarget + thesisTarget <= topK
  /\ (hasPublicationDocs = false -> publicationTarget = 0)
  /\ (hasThesisDocs = false -> thesisTarget = 0)
  /\ (hasPublicationDocs = true -> 1 <= publicationTarget)
  /\ (hasPublicationDocs = true -> hasThesisDocs = true ->
      publicationTarget + thesisTarget = topK).
Proof.
  intros Hk. cbv zeta. unfold mix_targets. cbv zeta.
  assert (H1 : math_round (inject_Z topK * 1) = topK).
  { change 1%Q with (1 # 1)%Q. rewrite math_round_scaled.
    change (Z.pos 1) with 1. Z.div_mod_to_equations. lia. }
  assert (H75 : 0 <= math_round (inject_Z topK * (75 # 100)) <= topK).
  { rewrite math_round_scaled. Z.div_mod_to_equations. lia. }
  assert (H4 : 0 <= math_round (inject_Z topK * (4 # 10)) <= topK).
  { rewrite math_round_scaled. Z.div_mod_to_equations. lia. }
  assert (H3 : 0 <= math_round (inject_Z topK * (3 # 10)) <= topK).
  { rewrite math_round_scaled. Z.div_mod_to_equations. lia. }
  destruct intent, hasPublicationDocs, hasThesisDocs; cbn -[math_round Z.max Qmult inject_Z];
    rewrite ?H1; repeat split; intros; try discriminate; lia.
Qed.

Lemma mix_targets_bounds_witness :
  let publicationTarget := fst (mix_targets research_overview 5 true true) in
  let thesisTarget := snd (mix_targets research_overview 5 true true) in
  0 <= publicationTarget /\ 0 <= thesisTarget
  /\ publicationTarget + thesisTarget <= 5
  /\ (true = false -> publicationTarget = 0)
  /\ (true = false -> thesisTarget = 0)
  /\ (true = true -> 1 <= publicationTarget)
  /\ (true = true -> true = true -> publicationTarget + thesisTarget = 5).
Proof. apply (mix_targets_bounds research_overview 5 true true). lia. Defined.

End AssemblyFacts.

(* ===================================================================== *)
(** * Namespaces                                                          *)
(* ===================================================================== *)

Module NamespaceFacts.
Import Js Rag Agent RetrieveFacts.

Lemma alternate_elem {A} (p s : list A) x : x ∈ alternate p s -> x ∈ p \/ x ∈ s.
Proof.
  revert s. induction p as [|a p IH]; intros [|b s] Hx; simpl in Hx; auto.
  apply elem_of_cons in Hx. destruct Hx as [->|Hx]; [left; left|].
  apply elem_of_cons in Hx. destruct Hx as [->|Hx]; [right; left|].
  apply IH in Hx. destruct Hx; [left | right]; right; assumption.
Qed.

Lemma interleaveChunks_elem p s k c : c ∈ interleaveChunks p s k -> c ∈ p \/ c ∈ s.
Proof.
  unfold interleaveChunks. rewrite AssemblyFacts.interleave_go_alternate by lia.
  simpl. intros Hc. apply alternate_elem.
  eapply elem_of_sublist; [exact Hc | apply sublist_take].
Qed.

Section WithServices.
Context `{Services}.

(** The chunks of the namespace of the query. *)
Definition in_namespace (store : RagStore) (ragId : string) (c : RagChunk) : Prop :=
  c ∈ chunks store /\ Chunk.ragId c = ragId.

Lemma retrieve_in_namespace store ragId query k roles names excl cap c :
  c ∈ retrieveRelevantChunks store (mk_params ragId query k roles names excl cap) ->
  in_namespace store ragId c.
Proof.
  intros Hc. apply retrieve_elem in Hc. destruct Hc as [Hin Hcand].
  split; [exact Hin|]. unfold candidate, mk_params in Hcand. simpl in Hcand.
  repeat (apply andb_prop in Hcand; destruct Hcand as [Hcand _]).
  apply bool_decide_eq_true_1 in Hcand. exact Hcand.
Qed.

Lemma merged_capped_elem l m c :
  c ∈ capChunksPerDocument (mergeUniqueChunks l) m -> c ∈ l.
Proof.
  intros Hc.
  eapply elem_of_sublist; [|apply EngineFacts.merge_unique_go_sublist].
  eapply elem_of_sublist; [exact Hc | apply EngineFacts.capChunksPerDocument_sublist].
Qed.

Lemma compare_merged_in_namespace store ragId query k names c :
  c ∈ compare_merged store ragId query k names -> in_namespace store ragId c.
Proof.
  unfold compare_merged. cbv zeta. intros Hc.
  assert (Hc' : c ∈ capChunksPerDocument
                  (mergeUniqueChunks
                     (seed_chunks store ragId query names
                      ++ retrieveRelevantChunks store
                           (mk_params ragId query
                              (Z.max k (k - Z.of_nat (length (seed_chunks store ragId query names))))
                              (Some [publication]) (Some names) true (Some 2)))) 2).
  { eapply elem_of_sublist; [exact Hc | apply sublist_take]. }
  apply merged_capped_elem in Hc'. apply elem_of_app in Hc'. destruct Hc' as [Hs|Ha].
  - unfold seed_chunks in Hs. apply list_elem_of_bind in Hs.
    destruct Hs as (name & Hs & _).
    destruct (retrieveRelevantChunks store
                (mk_params ragId query 1 (Some [publication]) (Some [name]) true (Some 1)))
      as [|seed0 rest] eqn:Er; [inversion Hs|].
    apply list_elem_of_singleton in Hs. subst c.
    eapply retrieve_in_namespace. rewrite Er. left.
  - eapply retrieve_in_namespace, Ha.
Qed.

Lemma mixed_combined_in_namespace store ragId query k it names pt tt c :
  c ∈ mixed_combined store ragId query k it names pt tt -> in_namespace store ragId c.
Proof.
  unfold mixed_combined. cbv zeta.
  set (pubs := if 0 <? pt then _ else []).
  set (ths := if 0 <? tt then _ else []).
  assert (Hpubs : forall x, x ∈ pubs -> in_namespace store ragId x).
  { subst pubs. destruct (0 <? pt); [|intros x Hx; inversion Hx].
    intros x Hx. eapply retrieve_in_namespace, Hx. }
  assert (Hths : forall x, x ∈ ths -> in_namespace store ragId x).
  { subst ths. destruct (0 <? tt); [|intros x Hx; inversion Hx].
    intros x Hx. eapply retrieve_in_namespace, Hx. }
  set (combined := capChunksPerDocument (mergeUniqueChunks
                     (if is_overview_or_future it then interleaveChunks ths pubs k
                      else interleaveChunks pubs ths k)) 2).
  assert (Hcomb : forall x, x ∈ combined -> in_namespace store ragId x).
  { subst combined. intros x Hx. apply merged_capped_elem in Hx.
    destruct (is_overview_or_future it); apply interleaveChunks_elem in Hx;
      destruct Hx; auto. }
  destruct (Z.of_nat (length combined) <? k); [|apply Hcomb].
  intros Hc. apply merged_capped_elem in Hc. apply elem_of_app in Hc.
  destruct Hc as [Hc|Hc]; [apply Hcomb, Hc | eapply retrieve_in_namespace, Hc].
Qed.

(** X23. The context of an answer holds stored chunks of the namespace of the
    request only, whatever the intent and whichever rung of the retrieval
    ladder produced it. *)
Theorem context_stays_in_namespace store ragId query topK :
  Forall (fun c => c ∈ chunks store /\ Chunk.ragId c = ragId)
    (ctx_chunks (retrieveIntentContext store ragId query topK)).
Proof.
  apply Forall_forall. intros c Hc.
  destruct (EngineFacts.retrieve_rung store ragId query topK)
    as [X rest _ _ _ Hchunks | names _ Hchunks | it names pt tt _ Hchunks
       | it names pt tt _ _ Hchunks];
    rewrite Hchunks in Hc.
  - eapply retrieve_in_namespace.
    eapply elem_of_sublist; [exact Hc | apply sublist_take].
  - eapply compare_merged_in_namespace, Hc.
  - eapply mixed_combined_in_namespace.
    eapply elem_of_sublist; [exact Hc | apply sublist_take].
  - eapply retrieve_in_namespace, Hc.
Qed.

End WithServices.
End NamespaceFacts.

(* ===================================================================== *)
(** * Evidence references and citations                                   *)
(* ===================================================================== *)

Module ReferenceFacts.
Import Js Rag Agent.
#[local] Arguments append !_ _ / : simpl nomatch.

Lemma label_eqb_eq a b : label_eqb a b = true <-> a = b.
Proof. destruct a, b; simpl; split; intros; congruence. Qed.

Lemma markerPrefix_inj a b : markerPrefixForSource a = markerPrefixForSource b -> a = b.
Proof. destruct a, b; simpl; intros Heq; try reflexivity; discriminate. Qed.

(** A marker determines its label and its number. *)
Lemma marker_decompose a b (n m : nat) :
  markerPrefixForSource a +:+ pretty (S n) = markerPrefixForSource b +:+ pretty (S m) ->
  a = b /\ n = m.
Proof.
  destruct (ContractFacts.pretty_nat_digits n) as [Hn Hdn].
  destruct (ContractFacts.pretty_nat_digits m) as [Hm Hdm].
  destruct (pretty (S n)) as [|cn sn] eqn:En; [congruence|].
  destruct (pretty (S m)) as [|cm sm] eqn:Em; [congruence|].
  simpl in Hdn, Hdm. apply andb_prop in Hdn, Hdm.
  destruct Hdn as [Hcn _]. destruct Hdm as [Hcm _].
  assert (Hinj : String cn sn = String cm sm -> n = m).
  { intros Heq. rewrite <- En, <- Em in Heq. apply (inj pretty) in Heq. lia. }
  destruct a, b; simpl; intros Heq; inversion Heq; subst;
    try (split; [reflexivity | apply Hinj; congruence]);
    try discriminate.
Qed.

Lemma build_refs_go_shape documentsById chunks : forall counters,
  chunkId <$> build_refs_go documentsById counters chunks = Chunk.id <$> chunks
  /\ sourceLabel <$> build_refs_go documentsById counters chunks
     = (fun chunk => asEvidenceSourceLabel (chunkSourceLabel chunk)) <$> chunks.
Proof.
  induction chunks as [|chunk rest IH]; intros counters; simpl; [auto|].
  destruct (resolveChunkCitationFields _ _ _) as [[[sn ti] ve] ye].
  rewrite !fmap_cons. simpl.
  destruct (IH (<[markerPrefixForSource (asEvidenceSourceLabel (chunkSourceLabel chunk))
                  := S (default 0%nat (counters !! markerPrefixForSource
                                         (asEvidenceSourceLabel (chunkSourceLabel chunk))))]> counters))
    as [-> ->].
  auto.
Qed.

(** The number in a marker: what the counter of its prefix held at the
    start, plus the references of the same label up to this one. *)
Lemma build_refs_go_numbering documentsById chunks : forall counters i ref,
  build_refs_go documentsById counters chunks !! i = Some ref ->
  marker ref
  = markerPrefixForSource (sourceLabel ref)
    +:+ pretty (default 0%nat (counters !! markerPrefixForSource (sourceLabel ref))
                + length (refs_with (sourceLabel ref)
                            (take (S i) (build_refs_go documentsById counters chunks))))%nat.
Proof.
  induction chunks as [|chunk rest IH]; intros counters i ref Href; simpl in Href.
  { inversion Href. }
  simpl. destruct (resolveChunkCitationFields _ _ _) as [[[sn ti] ve] ye].
  set (label := asEvidenceSourceLabel (chunkSourceLabel chunk)) in *.
  set (current := default 0%nat (counters !! markerPrefixForSource label)) in *.
  destruct i as [|i].
  - simpl in Href. inversion Href; subst ref. simpl.
    unfold refs_with. rewrite filter_cons_True by (simpl; apply label_eqb_eq; reflexivity).
    simpl. fold current. f_equal. f_equal. lia.
  - simpl in Href. rewrite (IH _ i ref Href). f_equal. f_equal.
    cbn [take]. unfold refs_with at 2. rewrite filter_cons. fold (refs_with (sourceLabel ref)).
    cbn [sourceLabel].
    destruct (decide (label_eqb label (sourceLabel ref) = true)) as [Heq|Hne].
    + apply label_eqb_eq in Heq. rewrite <- Heq. rewrite lookup_insert_eq. simpl.
      fold current. unfold refs_with. lia.
    + rewrite lookup_insert_ne; [reflexivity|].
      intros Hp. apply markerPrefix_inj in Hp. apply Hne, label_eqb_eq, Hp.
Qed.

(** X24. The references follow the chunks one to one and in order; every marker
    is the prefix of its label followed by the position of the reference
    among the references of that label, counted from 1; no two references
    share a marker. *)
Theorem references_numbered chunks documents :
  let refs := buildEvidenceReferences chunks documents in
  chunkId <$> refs = Chunk.id <$> chunks
  /\ sourceLabel <$> refs
     = (fun chunk => asEvidenceSourceLabel (chunkSourceLabel chunk)) <$> chunks
  /\ (forall i ref, refs !! i = Some ref ->
        marker ref = markerPrefixForSource (sourceLabel ref)
                     +:+ pretty (length (refs_with (sourceLabel ref) (take (S i) refs))))
  /\ NoDup (marker <$> refs).
Proof.
  cbv zeta. unfold buildEvidenceReferences.
  set (refs := build_refs_go (documents_by_id documents) ∅ chunks).
  assert (Hnum : forall i ref, refs !! i = Some ref ->
            marker ref = markerPrefixForSource (sourceLabel ref)
                         +:+ pretty (length (refs_with (sourceLabel ref) (take (S i) refs)))).
  { intros i ref Href. subst refs.
    rewrite (build_refs_go_numbering _ _ _ i ref Href), lookup_empty. reflexivity. }
  assert (Hcount : forall i ref, refs !! i = Some ref ->
            length (refs_with (sourceLabel ref) (take (S i) refs))
            = S (length (refs_with (sourceLabel ref) (take i refs)))).
  { intros i ref Href. rewrite (take_S_r _ _ _ Href). unfold refs_with.
    rewrite filter_app, filter_cons_True by (apply label_eqb_eq; reflexivity).
    rewrite length_app. simpl. lia. }
  assert (Hlt : forall a b ra rb, refs !! a = Some ra -> refs !! b = Some rb ->
            marker ra = marker rb -> (a < b)%nat -> False).
  { intros a b ra rb Ha Hb Hm Hab.
    rewrite (Hnum a ra Ha), (Hnum b rb Hb), (Hcount a ra Ha), (Hcount b rb Hb) in Hm.
    apply marker_decompose in Hm. destruct Hm as [Hl Hk].
    pose proof (Hcount a ra Ha) as Hca. rewrite Hl in Hca, Hk.
    assert (Hmono : (length (refs_with (sourceLabel rb) (take (S a) refs))
                     <= length (refs_with (sourceLabel rb) (take b refs)))%nat).
    { replace b with (S a + (b - S a))%nat at 1 by lia.
      rewrite <- take_take_drop. unfold refs_with. rewrite filter_app, length_app. lia. }
    lia. }
  destruct (build_refs_go_shape (documents_by_id documents) chunks ∅) as [Hids Hlabels].
  split; [exact Hids|]. split; [exact Hlabels|]. split; [exact Hnum|].
  apply NoDup_alt. intros i j m Hi Hj.
  rewrite list_lookup_fmap in Hi, Hj.
  destruct (refs !! i) as [ri|] eqn:Ei; [|discriminate].
  destruct (refs !! j) as [rj|] eqn:Ej; [|discriminate].
  simpl in Hi, Hj. inversion Hi as [Hmi]. inversion Hj as [Hmj].
  destruct (Nat.lt_trichotomy i j) as [Hij|[Hij|Hij]]; [|exact Hij|].
  - exfalso. apply (Hlt i j ri rj); [assumption | assumption | congruence | exact Hij].
  - exfalso. apply (Hlt j i rj ri); [assumption | assumption | congruence | exact Hij].
Qed.


Lemma dedupe_go_bound refs : forall seen taken,
  (taken < 8)%nat ->
  (length (dedupe_go seen taken refs) <= 8 - taken)%nat
  /\ Forall (fun cit => exists ref, ref ∈ refs /\ cit = citation_of ref)
       (dedupe_go seen taken refs).
Proof.
  induction refs as [|ref rest IH]; intros seen taken Htaken; cbn [dedupe_go].
  - split; [simpl; lia | constructor].
  - destruct (bool_decide _).
    + destruct (IH seen taken Htaken) as [Hlen Hall]. split; [exact Hlen|].
      eapply Forall_impl; [exact Hall|]. intros cit (r & Hr & ->). exists r. split; [right|]; auto.
    + destruct (Nat.leb_spec 8 (S taken)) as [Hfull|Hroom].
      * split; [simpl; lia|]. constructor; [|constructor].
        exists ref. split; [left | reflexivity].
      * destruct (IH ({[label_text (sourceLabel ref) +:+ "::" +:+ ref_title ref +:+ "::"
                        +:+ ref_year ref +:+ "::" +:+ ref_venue ref]} ∪ seen) (S taken) Hroom)
          as [Hlen Hall].
        split; [cbn [length]; lia|]. constructor.
        -- exists ref. split; [left | reflexivity].
        -- eapply Forall_impl; [exact Hall|]. intros cit (r & Hr & ->).
           exists r. split; [right|]; auto.
Qed.

(** X25. The citation list has at most eight entries, each made of a reference,
    and it starts with the citation of the first reference. *)
Theorem dedupeCitationObjects_bound refs :
  (length (dedupeCitationObjects refs) <= 8)%nat
  /\ Forall (fun cit => exists ref, ref ∈ refs /\ cit = citation_of ref)
       (dedupeCitationObjects refs)
  /\ head (dedupeCitationObjects refs) = citation_of <$> head refs.
Proof.
  unfold dedupeCitationObjects.
  destruct (dedupe_go_bound refs ∅ 0 ltac:(lia)) as [Hlen Hall].
  split; [lia|]. split; [exact Hall|].
  destruct refs as [|ref rest]; [reflexivity|]. cbn [dedupe_go].
  rewrite bool_decide_eq_false_2 by apply not_elem_of_empty. reflexivity.
Qed.

(** ** Model-provided evidence sections *)

Lemma indexOf_occurrence m s i :
  indexOf m s = Some i -> exists a b, s = a +:+ m +:+ b /\ String.length a = i.
Proof.
  revert i. induction s as [|c r IH]; intros i; simpl.
  - destruct (startsWith m "") eqn:Es; [|discriminate].
    intros Hi. inversion Hi; subst. apply MarkerFacts.startsWith_inv in Es.
    destruct Es as [b ->]. exists "", b. auto.
  - destruct (startsWith m (String c r)) eqn:Es.
    + intros Hi. inversion Hi; subst. apply MarkerFacts.startsWith_inv in Es.
      destruct Es as [b Hb]. exists "", b. rewrite Hb. auto.
    + destruct (indexOf m r) as [j|]; [|discriminate].
      intros Hi. inversion Hi; subst.
      destruct (IH j eq_refl) as (a & b & -> & Hlen).
      exists (String c a), b. simpl. rewrite Hlen. auto.
Qed.

Lemma indexOf_least m a b :
  exists i, indexOf m (a +:+ m +:+ b) = Some i /\ (i <= String.length a)%nat.
Proof.
  induction a as [|c a IH]; simpl.
  - exists 0%nat. split; [|lia].
    destruct (m +:+ b) as [|c r] eqn:E; simpl.
    + assert (Hs : startsWith m "" = true).
      { rewrite <- E. apply MarkerFacts.startsWith_app. }
      rewrite Hs. reflexivity.
    + assert (Hs : startsWith m (String c r) = true).
      { rewrite <- E. apply MarkerFacts.startsWith_app. }
      rewrite Hs. reflexivity.
  - destruct (startsWith m (String c (a +:+ m +:+ b))).
    + exists 0%nat. split; [reflexivity | lia].
    + destruct IH as (i & -> & Hi). exists (S i). split; [reflexivity | lia].
Qed.

Lemma substring_length n s : (String.length (String.substring 0 n s) <= n)%nat.
Proof.
  revert s. induction n as [|n IH]; intros [|c r]; simpl; try lia.
  specialize (IH r). lia.
Qed.

(** The cut index is the least index at which a marker of the list occurs. *)
Lemma earliest_fold text markers : forall acc,
  match foldl (earliest text) acc markers with
  | None => acc = None /\ Forall (fun m => indexOf m text = None) markers
  | Some cut =>
      (forall i, acc = Some i -> (cut <= i)%nat)
      /\ Forall (fun m => forall i, indexOf m text = Some i -> (cut <= i)%nat) markers
  end.
Proof.
  induction markers as [|m rest IH]; intros acc; simpl.
  - destruct acc as [cut|]; [|auto]. split; [|constructor].
    intros i Hi. inversion Hi. lia.
  - specialize (IH (earliest text acc m)).
    destruct (foldl (earliest text) (earliest text acc m) rest) as [cut|].
    + destruct IH as [Hacc Hrest]. unfold earliest in Hacc.
      destruct (indexOf m text) as [index|] eqn:Ei.
      * destruct acc as [c|].
        -- destruct (Nat.ltb_spec index c).
           ++ pose proof (Hacc index eq_refl) as Hcut.
              split; [intros i Hi; inversion Hi; subst; lia|].
              constructor; [|exact Hrest].
              intros i Hi. rewrite Ei in Hi. inversion Hi; subst. exact Hcut.
           ++ pose proof (Hacc c eq_refl) as Hcut.
              split; [exact Hacc|]. constructor; [|exact Hrest].
              intros i Hi. rewrite Ei in Hi. inversion Hi; subst. lia.
        -- pose proof (Hacc index eq_refl) as Hcut.
           split; [discriminate|]. constructor; [|exact Hrest].
           intros i Hi. rewrite Ei in Hi. inversion Hi; subst. exact Hcut.
      * split; [exact Hacc|]. constructor; [|exact Hrest].
        intros i Hi. rewrite Ei in Hi. discriminate.
    + destruct IH as [Hacc Hrest]. unfold earliest in Hacc.
      destruct (indexOf m text) as [index|] eqn:Ei.
      * destruct acc as [c|]; [destruct (index <? c)%nat|]; discriminate.
      * split; [exact Hacc|]. constructor; [exact Ei | exact Hrest].
Qed.

(** X26. What is left after the cut contains none of the section markers, and
    cutting it again changes nothing. *)
Theorem strip_sections_clean text :
  Forall (fun m => includes (stripModelProvidedEvidenceSections text) m = false)
    SECTION_MARKERS
  /\ stripModelProvidedEvidenceSections (stripModelProvidedEvidenceSections text)
     = stripModelProvidedEvidenceSections text.
Proof.
  assert (Hnonempty : Forall (fun m => (1 <= String.length m)%nat) SECTION_MARKERS).
  { unfold SECTION_MARKERS. repeat constructor; simpl; lia. }
  assert (Hclean : Forall (fun m => indexOf m (stripModelProvidedEvidenceSections text) = None)
                     SECTION_MARKERS).
  { unfold stripModelProvidedEvidenceSections.
    pose proof (earliest_fold text SECTION_MARKERS None) as Hfold.
    destruct (foldl (earliest text) None SECTION_MARKERS) as [cut|].
    - destruct Hfold as [_ Hleast].
      rewrite Forall_forall in Hleast, Hnonempty. apply Forall_forall. intros m Hm.
      destruct (indexOf m (trim (slice text 0 (Z.of_nat cut)))) as [j|] eqn:Ej; [|reflexivity].
      exfalso. apply indexOf_occurrence in Ej. destruct Ej as (a & b & Heq & _).
      destruct (StringFacts.trim_infix (slice text 0 (Z.of_nat cut))) as (a' & b' & Htrim).
      unfold slice in *. rewrite Z.sub_0_r, Nat2Z.id in *. change (Z.to_nat 0) with 0%nat in *.
      destruct (StringFacts.substring_prefix cut text) as [rest Hrest].
      pose proof (substring_length cut text) as Hlen.
      rewrite Htrim, Heq in Hlen. rewrite !MarkerFacts.length_app in Hlen.
      rewrite Htrim, Heq in Hrest.
      assert (Htext : text = (a' +:+ a) +:+ m +:+ (b +:+ b' +:+ rest)).
      { rewrite Hrest. rewrite !StringFacts.app_assoc. reflexivity. }
      destruct (indexOf_least m (a' +:+ a) (b +:+ b' +:+ rest)) as (i & Hi & Hle).
      rewrite <- Htext in Hi. rewrite MarkerFacts.length_app in Hle.
      specialize (Hleast m Hm i Hi). specialize (Hnonempty m Hm). lia.
    - destruct Hfold as [_ Hnone].
      rewrite Forall_forall in Hnone. apply Forall_forall. intros m Hm.
      destruct (indexOf m (trim text)) as [j|] eqn:Ej; [|reflexivity].
      exfalso. apply indexOf_occurrence in Ej. destruct Ej as (a & b & Heq & _).
      destruct (StringFacts.trim_infix text) as (a' & b' & Htrim).
      assert (Htext : text = (a' +:+ a) +:+ m +:+ (b +:+ b')).
      { rewrite Htrim at 1. rewrite Heq. rewrite !StringFacts.app_assoc. reflexivity. }
      destruct (indexOf_least m (a' +:+ a) (b +:+ b')) as (i & Hi & _).
      rewrite <- Htext in Hi. rewrite (Hnone m Hm) in Hi. discriminate. }
  split.
  - eapply Forall_impl; [exact Hclean|]. intros m Hm. unfold includes. rewrite Hm. reflexivity.
  - set (r := stripModelProvidedEvidenceSections text) in *.
    assert (Htrimmed : trim r = r).
    { subst r. unfold stripModelProvidedEvidenceSections.
      destruct (foldl _ _ _); apply ChunkerFacts.trim_idem. }
    unfold stripModelProvidedEvidenceSections at 1.
    pose proof (earliest_fold r SECTION_MARKERS None) as Hfold.
    destruct (foldl (earliest r) None SECTION_MARKERS) as [cut|] eqn:Ef; [|exact Htrimmed].
    exfalso. clear Hfold.
    assert (Hnone : forall markers acc, Forall (fun m => indexOf m r = None) markers ->
              foldl (earliest r) acc markers = acc).
    { induction markers as [|m rest IH]; intros acc Hall; [reflexivity|].
      apply Forall_cons in Hall. destruct Hall as [Hm Hall]. simpl.
      unfold earliest at 2. rewrite Hm. apply IH, Hall. }
    rewrite (Hnone _ _ Hclean) in Ef. discriminate.
Qed.

End ReferenceFacts.

(* ===================================================================== *)
(** * Text normalization                                                  *)
(* ===================================================================== *)

Module NormalizeFacts.
Import Js Rag Agent.
#[local] Arguments append !_ _ / : simpl nomatch.

(** Every character of class [C] in the text is a space, and no two of them
    are adjacent; [after] tells that the character before the text is of
    class [C]. *)
Fixpoint spaced (C : ascii -> bool) (after : bool) (s : string) : bool :=
  match s with
  | EmptyString => true
  | String c r =>
      if C c then ascii_eqb c " " && negb after && spaced C true r
      else spaced C false r
  end.

Lemma collapse_spaced C b s :
  C " "%char = true -> spaced C b (collapse_runs C b s) = true.
Proof.
  intros Hsp. revert b. induction s as [|c r IH]; intros b; simpl; [reflexivity|].
  destruct (C c) eqn:Ec.
  - destruct b; [apply IH|]. simpl. rewrite Hsp. simpl. apply IH.
  - simpl. rewrite Ec. apply IH.
Qed.

Lemma collapse_fixed C b s : spaced C b s = true -> collapse_runs C b s = s.
Proof.
  revert b. induction s as [|c r IH]; intros b; simpl; [reflexivity|].
  destruct (C c) eqn:Ec.
  - intros Hs. apply andb_prop in Hs. destruct Hs as [Hs Hr].
    apply andb_prop in Hs. destruct Hs as [Hc Hb].
    apply StringFacts.ascii_eqb_eq in Hc. apply negb_true_iff in Hb. subst b c.
    rewrite (IH true Hr). reflexivity.
  - intros Hr. rewrite (IH false Hr). reflexivity.
Qed.

Lemma spaced_relax C b s : spaced C b s = true -> spaced C false s = true.
Proof.
  destruct s as [|c r]; simpl; [auto|]. destruct (C c); [|auto].
  intros Hs. apply andb_prop in Hs. destruct Hs as [Hs Hr].
  apply andb_prop in Hs. destruct Hs as [Hc _]. rewrite Hc, Hr. reflexivity.
Qed.

Lemma spaced_suffix C b a s : spaced C b (a +:+ s) = true -> spaced C false s = true.
Proof.
  revert b. induction a as [|c a IH]; intros b; simpl; [apply spaced_relax|].
  destruct (C c).
  - intros Hs. apply andb_prop in Hs. destruct Hs as [_ Hr]. eapply IH, Hr.
  - apply IH.
Qed.

Lemma spaced_prefix C b s t : spaced C b (s +:+ t) = true -> spaced C b s = true.
Proof.
  revert b. induction s as [|c s IH]; intros b; simpl; [reflexivity|].
  destruct (C c).
  - intros Hs. apply andb_prop in Hs. destruct Hs as [Hs Hr].
    rewrite Hs, (IH true Hr). reflexivity.
  - apply IH.
Qed.

Lemma spaced_trim C s : spaced C false s = true -> spaced C false (trim s) = true.
Proof.
  destruct (StringFacts.trim_infix s) as (a & b & Hs). intros Hsp. rewrite Hs in Hsp.
  apply spaced_suffix in Hsp. apply spaced_prefix in Hsp. exact Hsp.
Qed.

(** A smaller class inherits the spacing. *)
Lemma spaced_subclass (C D : ascii -> bool) s :
  (forall c, D c = true -> C c = true) ->
  forall b b', (b' = true -> b = true) ->
  spaced C b s = true -> spaced D b' s = true.
Proof.
  intros HDC. induction s as [|c r IH]; intros b b' Hb; simpl; [reflexivity|].
  destruct (C c) eqn:Ec, (D c) eqn:Ed.
  - intros Hs. apply andb_prop in Hs. destruct Hs as [Hs Hr].
    apply andb_prop in Hs. destruct Hs as [Hc Hneg]. rewrite Hc. simpl.
    apply negb_true_iff in Hneg.
    destruct b'; [rewrite (Hb eq_refl) in Hneg; discriminate|]. simpl.
    apply (IH true true); auto.
  - intros Hs. apply andb_prop in Hs. destruct Hs as [_ Hr].
    apply (IH true false); [discriminate | exact Hr].
  - rewrite (HDC c Ed) in Ec. discriminate.
  - apply IH. discriminate.
Qed.

Lemma all_chars_collapse (D C : ascii -> bool) b s :
  D " "%char = true -> all_chars D s = true -> all_chars D (collapse_runs C b s) = true.
Proof.
  intros Hsp. revert b. induction s as [|c r IH]; intros b; simpl; [reflexivity|].
  intros Hs. apply andb_prop in Hs. destruct Hs as [Hc Hr].
  destruct (C c); [destruct b|]; simpl; rewrite ?Hsp, ?Hc; simpl; apply IH, Hr.
Qed.

Lemma all_chars_trim D s : all_chars D s = true -> all_chars D (trim s) = true.
Proof.
  destruct (StringFacts.trim_infix s) as (a & b & Hs). intros Hall. rewrite Hs in Hall.
  rewrite !StringFacts.all_chars_app in Hall.
  apply andb_prop in Hall. destruct Hall as [_ Hall].
  apply andb_prop in Hall. tauto.
Qed.

Definition not_upper (c : ascii) : bool := negb (is_upper c).

Lemma toLowerCase_not_upper s : all_chars not_upper (toLowerCase s) = true.
Proof.
  induction s as [|c r IH]; simpl; [reflexivity|]. rewrite IH, andb_true_r.
  unfold not_upper, lower_char. destruct (is_upper c) eqn:Eu; [|rewrite Eu; reflexivity].
  unfold is_upper, in_range, code in *.
  apply andb_prop in Eu. destruct Eu as [Hlo Hhi].
  apply N.leb_le in Hlo, Hhi.
  rewrite N_ascii_embedding by lia.
  apply negb_true_iff, andb_false_iff. right. apply N.leb_gt. lia.
Qed.

Lemma toLowerCase_fixed s : all_chars not_upper s = true -> toLowerCase s = s.
Proof.
  induction s as [|c r IH]; simpl; [reflexivity|].
  intros Hs. apply andb_prop in Hs. destruct Hs as [Hc Hr].
  unfold not_upper in Hc. apply negb_true_iff in Hc.
  unfold lower_char. rewrite Hc, (IH Hr). reflexivity.
Qed.

Lemma collapse_key_chars b s :
  all_chars is_key_char
    (collapse_runs (fun c => negb (Publications.is_lower_alnum c)) b s) = true.
Proof.
  revert b. induction s as [|c r IH]; intros b; simpl; [reflexivity|].
  destruct (Publications.is_lower_alnum c) eqn:Ec; simpl.
  - unfold is_key_char at 1. rewrite Ec. simpl. apply IH.
  - destruct b; [apply IH|]. simpl. apply IH.
Qed.

Lemma key_char_not_upper c : is_key_char c = true -> not_upper c = true.
Proof.
  unfold is_key_char, not_upper, Publications.is_lower_alnum, is_lower, is_digit, is_upper,
    in_range, ascii_eqb, code.
  intros Hk. apply negb_true_iff, andb_false_iff.
  apply orb_prop in Hk. destruct Hk as [Hk|Hk].
  - apply orb_prop in Hk. destruct Hk as [Hk|Hk]; apply andb_prop in Hk; destruct Hk as [Hlo Hhi];
      apply N.leb_le in Hlo, Hhi; [right | left]; apply N.leb_gt; lia.
  - apply N.eqb_eq in Hk. left. apply N.leb_gt. rewrite Hk. simpl. lia.
Qed.

Lemma nonalnum_space : negb (Publications.is_lower_alnum " ") = true.
Proof. reflexivity. Qed.

Lemma space_is_nonalnum c : is_space c = true -> negb (Publications.is_lower_alnum c) = true.
Proof.
  unfold is_space, Publications.is_lower_alnum, is_lower, is_digit, in_range, code.
  intros Hs. apply negb_true_iff, orb_false_iff.
  apply orb_prop in Hs. destruct Hs as [Hs|Hs].
  - apply andb_prop in Hs. destruct Hs as [Hlo Hhi]. apply N.leb_le in Hlo, Hhi.
    split; apply andb_false_iff; left; apply N.leb_gt; lia.
  - apply N.eqb_eq in Hs. rewrite Hs. split; reflexivity.
Qed.

(** The shape of a normalized key: no class character other than single
    spaces between the words, and nothing to trim. *)
Lemma key_shape value :
  let key := trim (replace_runs (fun c => negb (Publications.is_lower_alnum c))
                     (toLowerCase value)) in
  spaced (fun c => negb (Publications.is_lower_alnum c)) false key = true
  /\ all_chars is_key_char key = true
  /\ trim key = key
  /\ replace_runs is_space key = key.
Proof.
  cbv zeta. set (key := trim _).
  assert (Hsp : spaced (fun c => negb (Publications.is_lower_alnum c)) false key = true).
  { subst key. apply spaced_trim. unfold replace_runs. apply collapse_spaced. reflexivity. }
  split; [exact Hsp|]. split; [|split].
  - subst key. apply all_chars_trim. apply collapse_key_chars.
  - subst key. apply ChunkerFacts.trim_idem.
  - unfold replace_runs. apply collapse_fixed.
    eapply spaced_subclass; [apply space_is_nonalnum | | exact Hsp]. auto.
Qed.

(** The match normalizer returns lower-case letters, digits and single
    spaces between words only, with no space at either end, and applying it
    again changes nothing; the catalog normalizer is the same function. *)
Lemma normalizeMatchText_shape value :
  normalizeMatchText (normalizeMatchText value) = normalizeMatchText value
  /\ all_chars is_key_char (normalizeMatchText value) = true
  /\ trim (normalizeMatchText value) = normalizeMatchText value
  /\ includes (normalizeMatchText value) "  " = false
  /\ Publications.normalizeCatalogText value = normalizeMatchText value.
Proof.
  destruct (key_shape value) as (Hsp & Hkey & Htrim & Hfix). cbv zeta in *.
  assert (Heq : normalizeMatchText value
                = trim (replace_runs (fun c => negb (Publications.is_lower_alnum c))
                          (toLowerCase value))).
  { unfold normalizeMatchText. exact Hfix. }
  rewrite Heq. set (key := trim _) in *.
  split; [|split; [exact Hkey | split; [exact Htrim | split]]].
  - unfold normalizeMatchText.
    rewrite (toLowerCase_fixed key)
      by (eapply StringFacts.all_chars_weaken; [apply key_char_not_upper | exact Hkey]).
    unfold replace_runs at 2. rewrite (collapse_fixed _ false key Hsp).
    rewrite Htrim. exact Hfix.
  - clear -Hsp. unfold includes.
    assert (Hgen : forall b s, spaced (fun c => negb (Publications.is_lower_alnum c)) b s = true ->
              indexOf "  " s = None).
    { intros b s. revert b. induction s as [|c r IH]; intros b Hs; [reflexivity|].
      assert (Htail : indexOf "  " r = None).
      { simpl in Hs. destruct (negb (Publications.is_lower_alnum c)).
        - apply andb_prop in Hs. destruct Hs as [_ Hr]. apply (IH true Hr).
        - apply (IH false Hs). }
      assert (Hstart : startsWith "  " (String c r) = false).
      { cbn [startsWith]. destruct (ascii_eqb " " c) eqn:Ec; [|reflexivity].
        apply StringFacts.ascii_eqb_eq in Ec. subst c.
        destruct r as [|d r]; [reflexivity|]. simpl.
        destruct (ascii_eqb " " d) eqn:Ed; [|reflexivity].
        apply StringFacts.ascii_eqb_eq in Ed. subst d.
        cbn [spaced] in Hs. change (negb (Publications.is_lower_alnum " ")) with true in Hs.
        cbv iota in Hs. rewrite !andb_false_r in Hs. discriminate. }
      change (indexOf "  " (String c r))
        with (if startsWith "  " (String c r) then Some 0%nat else S <$> indexOf "  " r).
      rewrite Hstart, Htail. reflexivity. }
    rewrite (Hgen false key Hsp). reflexivity.
  - subst key. rewrite <- Heq. reflexivity.
Qed.

Lemma catalog_text_idem value :
  Publications.normalizeCatalogText (Publications.normalizeCatalogText value)
  = Publications.normalizeCatalogText value.
Proof.
  destruct (key_shape value) as (Hsp & Hkey & Htrim & Hfix). cbv zeta in *.
  set (key := trim _) in *.
  assert (Heq : Publications.normalizeCatalogText value = key) by exact Hfix.
  rewrite Heq. unfold Publications.normalizeCatalogText.
  rewrite (toLowerCase_fixed key)
    by (eapply StringFacts.all_chars_weaken;
        [apply key_char_not_upper | exact Hkey]).
  unfold replace_runs at 2. rewrite (collapse_fixed _ false key Hsp).
  rewrite Htrim. exact Hfix.
Qed.

Lemma key_char_no_dot c : is_key_char c = true -> (code c =? 46)%N = false.
Proof.
  destruct c as [[|] [|] [|] [|] [|] [|] [|] [|]]; try reflexivity; discriminate.
Qed.

Lemma strip_extension_fixed s : all_chars is_key_char s = true -> strip_extension s = s.
Proof.
  induction s as [|c r IH]; [reflexivity|]. cbn [all_chars strip_extension]. intros Hs.
  apply andb_prop in Hs. destruct Hs as [Hc Hr].
  rewrite (key_char_no_dot c Hc), (IH Hr). reflexivity.
Qed.

Lemma strip_extension_not_upper s :
  all_chars not_upper s = true ->
  all_chars not_upper (strip_extension s) = true.
Proof.
  induction s as [|c r IH]; [reflexivity|]. cbn [all_chars strip_extension]. intros Hs.
  apply andb_prop in Hs. destruct Hs as [Hc Hr].
  destruct (_ && _); [reflexivity|]. cbn [all_chars]. rewrite Hc, (IH Hr). reflexivity.
Qed.

Lemma match_text_idem value :
  normalizeMatchText (normalizeMatchText value) = normalizeMatchText value.
Proof. exact (catalog_text_idem value). Qed.

Lemma paper_key_match_text input :
  Store.normalizePaperKey input = normalizeMatchText (strip_extension (toLowerCase input)).
Proof.
  unfold Store.normalizePaperKey, normalizeMatchText.
  rewrite (toLowerCase_fixed (strip_extension (toLowerCase input)))
    by apply strip_extension_not_upper, toLowerCase_not_upper.
  reflexivity.
Qed.

Lemma paper_key_idem input :
  Store.normalizePaperKey (Store.normalizePaperKey input) = Store.normalizePaperKey input.
Proof.
  rewrite (paper_key_match_text input).
  set (v := strip_extension (toLowerCase input)).
  destruct (key_shape v) as (_ & Hkey & _ & Hfix). cbv zeta in *.
  assert (Hk : all_chars is_key_char (normalizeMatchText v) = true).
  { unfold normalizeMatchText. rewrite Hfix. exact Hkey. }
  rewrite paper_key_match_text.
  rewrite (toLowerCase_fixed (normalizeMatchText v))
    by (eapply StringFacts.all_chars_weaken; [apply key_char_not_upper | exact Hk]).
  rewrite (strip_extension_fixed _ Hk). apply match_text_idem.
Qed.
(** X27. The key normalizers. The match normalizer returns lower-case
    letters, digits and single spaces between words only, with no space at
    either end, and applying it again changes nothing; the catalog
    normalizer is the same function. The paper key of a name is the match
    text of the lower-cased name without its final extension, normalizing a
    paper key again changes nothing, and a resolved paper key is never
    empty. *)
Theorem normalizeMatchText_idempotent value :
  normalizeMatchText (normalizeMatchText value) = normalizeMatchText value
  /\ all_chars is_key_char (normalizeMatchText value) = true
  /\ trim (normalizeMatchText value) = normalizeMatchText value
  /\ includes (normalizeMatchText value) "  " = false
  /\ Publications.normalizeCatalogText value = normalizeMatchText value
  /\ Store.normalizePaperKey value
     = normalizeMatchText (strip_extension (toLowerCase value))
  /\ Store.normalizePaperKey (Store.normalizePaperKey value) = Store.normalizePaperKey value
  /\ (forall metadata,
        match Store.resolvePaperKey value metadata with
        | Some key => key <> "" /\ Store.normalizePaperKey key = key
        | None => True
        end).
Proof.
  destruct (normalizeMatchText_shape value) as (Hidem & Hchars & Htrim & Hspaces & Hcat).
  repeat (split; [assumption|]).
  split; [apply paper_key_match_text|]. split; [apply paper_key_idem|].
  intros metadata. unfold Store.resolvePaperKey. cbv zeta.
  set (base := str_or _ value).
  destruct (String.length (Store.normalizePaperKey base) =? 0)%nat eqn:E; [exact I|].
  split; [|apply paper_key_idem].
  intros Hk. rewrite Hk in E. discriminate.
Qed.

Section WithServices.
Context `{Services}.

(** X28. Hash normalization is idempotent, so the hash of a text is the hash of
    its normalized form: texts that differ in letter case or in the amount
    of white space only have the same hash. *)
Theorem textHash_normalized text :
  normalizeTextForHash (normalizeTextForHash text) = normalizeTextForHash text
  /\ getTextHash (normalizeTextForHash text) = getTextHash text
  /\ getTextHash (toLowerCase text) = getTextHash text
  /\ getTextHash (replace_runs is_space text) = getTextHash text.
Proof.
  assert (Hidem : normalizeTextForHash (normalizeTextForHash text) = normalizeTextForHash text).
  { unfold normalizeTextForHash.
    set (key := trim (replace_runs is_space (toLowerCase text))).
    assert (Hsp : spaced is_space false key = true).
    { subst key. apply spaced_trim. unfold replace_runs. apply collapse_spaced. reflexivity. }
    assert (Hlow : all_chars not_upper key = true).
    { subst key. apply all_chars_trim. unfold replace_runs.
      apply all_chars_collapse; [reflexivity | apply toLowerCase_not_upper]. }
    rewrite (toLowerCase_fixed key Hlow).
    unfold replace_runs. rewrite (collapse_fixed _ false key Hsp).
    subst key. apply ChunkerFacts.trim_idem. }
  split; [exact Hidem|]. split; [unfold getTextHash; rewrite Hidem; reflexivity|].
  split.
  - unfold getTextHash, normalizeTextForHash.
    rewrite (toLowerCase_fixed (toLowerCase text)) by apply toLowerCase_not_upper.
    reflexivity.
  - unfold getTextHash, normalizeTextForHash. f_equal. f_equal.
    assert (Hcomm : forall b s, toLowerCase (collapse_runs is_space b s)
                                = collapse_runs is_space b (toLowerCase s)).
    { intros b s. revert b. induction s as [|c r IH]; intros b; simpl; [reflexivity|].
      assert (Hc : is_space (lower_char c) = is_space c).
      { unfold lower_char. destruct (is_upper c) eqn:Eu; [|reflexivity].
        unfold is_upper, is_space, in_range, code in *.
        apply andb_prop in Eu. destruct Eu as [Hlo Hhi]. apply N.leb_le in Hlo, Hhi.
        rewrite N_ascii_embedding by lia.
        transitivity false; [|symmetry]; apply orb_false_iff; split;
          try (apply andb_false_iff; right; apply N.leb_gt; lia);
          apply N.eqb_neq; lia. }
      rewrite Hc. destruct (is_space c); [destruct b|]; simpl; rewrite IH; reflexivity. }
    unfold replace_runs. rewrite Hcomm.
    apply collapse_fixed, collapse_spaced. reflexivity.
Qed.

End WithServices.
End NormalizeFacts.

(* ===================================================================== *)
(** * Document mentions and the canonical catalog                         *)
(* ===================================================================== *)

Module MentionFacts.
Import Js Rag Agent.

Lemma filter_scored {A} (score : A -> Q) (P : Q -> bool) (l : list A) :
  fst <$> filter (fun item => P (snd item) = true) ((fun x => (x, score x)) <$> l)
  = filter (fun x => P (score x) = true) l.
Proof.
  induction l as [|x l IH]; [reflexivity|].
  rewrite fmap_cons, !filter_cons. simpl.
  destruct (decide (P (score x) = true)); [rewrite fmap_cons, IH|]; auto.
Qed.

(** X29. The mentioned documents are the documents of positive mention score,
    each as often as the listing holds it, ordered best first. *)
Theorem mentioned_documents_ranked query documents :
  let queryNorm := normalizeMatchText query in
  let score :=
    scoreDocumentMention queryNorm (list_to_set (tokenizeNormalized queryNorm)) in
  findMentionedDocuments query documents
  ≡ₚ filter (fun doc => Qltb 0 (score doc) = true) documents
  /\ best_first score (findMentionedDocuments query documents).
Proof.
  cbv zeta. unfold findMentionedDocuments. cbv zeta.
  set (score := scoreDocumentMention _ _).
  set (scored := filter _ _).
  split.
  - rewrite RetrieveFacts.sort_ranked_perm. subst scored.
    rewrite (filter_scored score (Qltb 0)). reflexivity.
  - intros i j di dj Hij Hi Hj.
    rewrite list_lookup_fmap in Hi, Hj.
    destruct (sort_ranked scored !! i) as [x|] eqn:Ex; [|discriminate].
    destruct (sort_ranked scored !! j) as [y|] eqn:Ey; [|discriminate].
    simpl in Hi, Hj. inversion Hi; inversion Hj; subst.
    assert (Hscore : forall z, z ∈ sort_ranked scored -> snd z = score (fst z)).
    { intros z Hz. rewrite RetrieveFacts.sort_ranked_perm in Hz. subst scored.
      apply list_elem_of_filter in Hz. destruct Hz as [_ Hz].
      apply list_elem_of_fmap in Hz. destruct Hz as (d & -> & _). reflexivity. }
    rewrite <- (Hscore x), <- (Hscore y) by (eapply list_elem_of_lookup_2; eassumption).
    apply (RankingFacts.Ranked_lookup (sort_ranked scored) i j);
      [apply RankingFacts.sort_ranked_Ranked | assumption..].
Qed.

(** X30. Resolution against the catalog looks at the normalized form of a
    candidate only, so letter case and punctuation play no part, and it
    returns entries of the catalog only. No entry of the catalog shadows
    another: the title and every alias of an entry resolve to that entry,
    as a candidate and as a file name, and an upload under such a name gets
    the metadata of the entry. *)
Theorem catalog_names_resolve :
  (forall candidates,
      Publications.resolveCanonicalPublicationFromCandidates
        (Publications.normalizeCatalogText <$> candidates)
      = Publications.resolveCanonicalPublicationFromCandidates candidates)
  /\ (forall candidates pub,
        Publications.resolveCanonicalPublicationFromCandidates candidates = Some pub ->
        pub ∈ Publications.CANONICAL_PUBLICATIONS)
  /\ (forall fileName pub,
        Publications.resolveCanonicalPublicationByFileName fileName = Some pub ->
        pub ∈ Publications.CANONICAL_PUBLICATIONS)
  /\ Forall (fun pub =>
            Forall (fun name =>
                      Publications.resolveCanonicalPublicationFromCandidates [name] = Some pub
                      /\ Publications.resolveCanonicalPublicationByFileName name = Some pub
                      /\ Publications.withCanonicalMetadata name None
                         = Some (Publications.canonical_metadata pub))
              (Publications.pub_title pub :: Publications.aliases pub))
    Publications.CANONICAL_PUBLICATIONS.
Proof.
  split; [|split; [|split]].
  - intros candidates. unfold Publications.resolveCanonicalPublicationFromCandidates.
    cbv zeta. rewrite <- list_fmap_compose.
    rewrite (list_fmap_ext (Publications.normalizeCatalogText ∘ Publications.normalizeCatalogText)
               Publications.normalizeCatalogText candidates)
      by (intros; apply NormalizeFacts.catalog_text_idem).
    reflexivity.
  - intros candidates pub. unfold Publications.resolveCanonicalPublicationFromCandidates.
    cbv zeta. intros Hhead.
    apply head_Some_elem_of in Hhead.
    apply list_elem_of_bind in Hhead. destruct Hhead as (candidate & Hpub & _).
    apply list_elem_of_bind in Hpub. destruct Hpub as (publication & Hpub & Hin).
    apply list_elem_of_bind in Hpub. destruct Hpub as (alias & Hpub & _).
    destruct (Publications.alias_matches candidate alias); [|inversion Hpub].
    apply list_elem_of_singleton in Hpub. subst pub. exact Hin.
  - intros fileName pub. unfold Publications.resolveCanonicalPublicationByFileName.
    cbv zeta. intros Hhead.
    apply head_Some_elem_of in Hhead.
    apply list_elem_of_bind in Hhead. destruct Hhead as (publication & Hpub & Hin).
    apply list_elem_of_bind in Hpub. destruct Hpub as (alias & Hpub & _).
    destruct (Publications.file_alias_matches _ _ alias); [|inversion Hpub].
    apply list_elem_of_singleton in Hpub. subst pub. exact Hin.
  - unfold Publications.CANONICAL_PUBLICATIONS.
    repeat first
      [ apply List.Forall_nil
      | apply List.Forall_cons; cbn [Publications.pub_title Publications.aliases]
      | split
      | vm_compute; reflexivity ].
Qed.
End MentionFacts.

(* ===================================================================== *)
(** * HTML to text                                                        *)
(* ===================================================================== *)
Module HtmlFacts.
Import Js Html.
#[local] Arguments append !_ _ / : simpl nomatch.

Ltac each_char c :=
  destruct c as [[|] [|] [|] [|] [|] [|] [|] [|]]; try reflexivity; try discriminate.

Lemma lower_char_lt c : ascii_eqb "<" (lower_char c) = ascii_eqb c "<".
Proof. each_char c. Qed.

Lemma lower_char_amp c : ascii_eqb "&" (lower_char c) = ascii_eqb c "&".
Proof. each_char c. Qed.

Lemma space_not_lt c : is_space c = true -> ascii_eqb c "<" = false.
Proof. each_char c. Qed.

Lemma space_not_gt c : is_space c = true -> ascii_eqb c ">" = false.
Proof. each_char c. Qed.

Lemma gt_not_space c : ascii_eqb ">" c = true -> is_space c = false.
Proof. each_char c. Qed.

Lemma gt_sym c : ascii_eqb ">" c = ascii_eqb c ">".
Proof. unfold ascii_eqb. apply N.eqb_sym. Qed.

(** ** A text without the first character of a pattern is left alone *)

Lemma replace_matches_fixed pattern replacement ch s :
  (forall c r, ascii_eqb c ch = false -> pattern (String c r) = None) ->
  lacks ch s = true -> replace_matches pattern replacement 0 s = s.
Proof.
  intros Hpat. induction s as [|c r IH]; [reflexivity|].
  unfold lacks. cbn [all_chars]. intros Hs. apply andb_prop in Hs. destruct Hs as [Hc Hr].
  apply negb_true_iff in Hc. cbn [replace_matches]. rewrite (Hpat c r Hc), (IH Hr).
  reflexivity.
Qed.

Lemma block_needs_lt name c r : ascii_eqb c "<" = false -> block name (String c r) = None.
Proof.
  intros Hc. unfold block. cbv zeta. cbn [toLowerCase append startsWith].
  rewrite lower_char_lt, Hc. reflexivity.
Qed.

Lemma tag_needs_lt c r : ascii_eqb c "<" = false -> tag (String c r) = None.
Proof. intros Hc. cbn [tag]. rewrite Hc. reflexivity. Qed.

Lemma literal_needs_amp text c r :
  ascii_eqb c "&" = false -> literal (String "&" text) (String c r) = None.
Proof.
  intros Hc. unfold literal. cbn [toLowerCase startsWith].
  rewrite lower_char_amp, Hc. reflexivity.
Qed.

(** ** A replacement brings in no character that it does not hold *)

Lemma replace_matches_lacks pattern replacement ch s : forall skip,
  lacks ch replacement = true -> lacks ch s = true ->
  lacks ch (replace_matches pattern replacement skip s) = true.
Proof.
  unfold lacks. induction s as [|c r IH]; intros skip Hrep Hs; [reflexivity|].
  cbn [all_chars] in Hs. apply andb_prop in Hs. destruct Hs as [Hc Hr].
  cbn [replace_matches]. destruct skip as [|k]; [|apply IH; assumption].
  destruct (pattern (String c r)) as [n|].
  - rewrite StringFacts.all_chars_app, Hrep. apply IH; assumption.
  - cbn [all_chars]. rewrite Hc. apply IH; assumption.
Qed.

(** ** No tag is left after the tags are replaced *)

Lemma indexOf_none_lacks ch s :
  indexOf (String ch "") s = None <-> lacks ch s = true.
Proof.
  unfold lacks. induction s as [|c r IH]; [split; reflexivity|].
  cbn [indexOf startsWith all_chars].
  replace (ascii_eqb ch c) with (ascii_eqb c ch) by (unfold ascii_eqb; apply N.eqb_sym).
  destruct (ascii_eqb c ch); cbn [andb negb].
  - split; discriminate.
  - rewrite <- IH. destruct (indexOf (String ch "") r); cbn; split; congruence.
Qed.

Lemma indexOf_zero_head ch s :
  indexOf (String ch "") s = Some 0%nat ->
  exists c r, s = String c r /\ ascii_eqb ch c = true.
Proof.
  destruct s as [|c r]; [discriminate|]. cbn [indexOf startsWith].
  destruct (ascii_eqb ch c) eqn:E; [eauto|]. cbn [andb].
  destruct (indexOf (String ch "") r); discriminate.
Qed.

Lemma head_indexOf_zero ch c r : ascii_eqb ch c = true -> indexOf (String ch "") (String c r) = Some 0%nat.
Proof. intros Hc. cbn [indexOf startsWith]. rewrite Hc. reflexivity. Qed.

(** A [<] starts no tag exactly when a [>] follows at once or not at
    all. *)
Lemma tag_none c r :
  tag (String c r) = None <->
  ascii_eqb c "<" = false \/ indexOf ">" r = None \/ indexOf ">" r = Some 0%nat.
Proof.
  cbn [tag]. destruct (ascii_eqb c "<"); [|split; auto].
  destruct (indexOf ">" r) as [[|k]|]; split; auto; try discriminate.
  intros [H|[H|H]]; discriminate.
Qed.

Lemma tag_free_cons c r : tag_free (String c r) = true <-> tag (String c r) = None /\ tag_free r = true.
Proof.
  cbn [tag_free]. destruct (tag (String c r)); split; try tauto; try discriminate.
  intros [H _]; discriminate.
Qed.

Lemma tags_replaced_free s : forall skip, tag_free (replace_matches tag " " skip s) = true.
Proof.
  induction s as [|c r IH]; intros skip; [reflexivity|].
  cbn [replace_matches]. destruct skip as [|k]; [|apply IH].
  destruct (tag (String c r)) as [n|] eqn:E.
  - cbn [append]. apply tag_free_cons. split; [reflexivity | apply IH].
  - apply tag_free_cons. split; [|apply IH].
    apply tag_none. apply tag_none in E. destruct E as [E|[E|E]]; [left; exact E| |].
    + right. left. apply indexOf_none_lacks.
      apply replace_matches_lacks; [reflexivity | apply indexOf_none_lacks, E].
    + right. right. apply indexOf_zero_head in E. destruct E as (d & r' & -> & Hd).
      cbn [replace_matches].
      rewrite tag_needs_lt by (revert Hd; clear; each_char d).
      apply head_indexOf_zero, Hd.
Qed.

(** ** White-space normalization makes no tag *)

Lemma collapse_lacks_gt b s :
  lacks ">" s = true -> lacks ">" (collapse_runs is_space b s) = true.
Proof.
  unfold lacks. revert b. induction s as [|c r IH]; intros b; [reflexivity|].
  cbn [all_chars collapse_runs]. intros Hs. apply andb_prop in Hs. destruct Hs as [Hc Hr].
  destruct (is_space c); [destruct b|]; cbn [all_chars]; rewrite ?Hc; cbn [andb negb];
    apply IH, Hr.
Qed.

Lemma collapse_tag_free s : forall b,
  tag_free s = true -> tag_free (collapse_runs is_space b s) = true.
Proof.
  induction s as [|c r IH]; intros b; [reflexivity|].
  intros Hs. apply tag_free_cons in Hs. destruct Hs as [Htag Hr].
  cbn [collapse_runs]. destruct (is_space c) eqn:Ec.
  - destruct b; [apply IH, Hr|]. apply tag_free_cons. split; [reflexivity | apply IH, Hr].
  - apply tag_free_cons. split; [|apply IH, Hr].
    apply tag_none. apply tag_none in Htag. destruct Htag as [E|[E|E]]; [left; exact E| |].
    + right. left. apply indexOf_none_lacks, collapse_lacks_gt, indexOf_none_lacks, E.
    + right. right. apply indexOf_zero_head in E. destruct E as (d & r' & -> & Hd).
      cbn [collapse_runs]. rewrite (gt_not_space d Hd). apply head_indexOf_zero, Hd.
Qed.

Lemma trimStart_tag_free s : tag_free s = true -> tag_free (trimStart s) = true.
Proof.
  induction s as [|c r IH]; [reflexivity|]. intros Hs. cbn [trimStart].
  destruct (is_space c); [|exact Hs]. apply IH. apply tag_free_cons in Hs. tauto.
Qed.

Lemma trimEnd_lacks ch s : lacks ch s = true -> lacks ch (trimEnd s) = true.
Proof.
  unfold lacks. induction s as [|c r IH]; [reflexivity|].
  cbn [all_chars trimEnd]. intros Hs. apply andb_prop in Hs. destruct Hs as [Hc Hr].
  destruct (is_space c && is_empty (trimEnd r)); [reflexivity|].
  cbn [all_chars]. rewrite Hc. apply IH, Hr.
Qed.

Lemma trimEnd_tag_free s : tag_free s = true -> tag_free (trimEnd s) = true.
Proof.
  induction s as [|c r IH]; [reflexivity|].
  intros Hs. apply tag_free_cons in Hs. destruct Hs as [Htag Hr].
  cbn [trimEnd]. destruct (is_space c && is_empty (trimEnd r)) eqn:Ec; [reflexivity|].
  apply tag_free_cons. split; [|apply IH, Hr].
  apply tag_none. apply tag_none in Htag. destruct Htag as [E|[E|E]]; [left; exact E| |].
  - right. left. apply indexOf_none_lacks, trimEnd_lacks, indexOf_none_lacks, E.
  - right. right. apply indexOf_zero_head in E. destruct E as (d & r' & -> & Hd).
    cbn [trimEnd]. rewrite (gt_not_space d Hd). cbn [andb]. apply head_indexOf_zero, Hd.
Qed.

(** X8. The text that [stripHtmlToText] returns is normalized in its white
    space: trimming it or collapsing its white space again changes nothing.
    For a page without [&] no tag is left in the text, and a page with
    neither [<] nor [&] is returned with its white space normalized and
    nothing else changed. *)
Theorem stripHtmlToText_text (html : string) :
  (trim (stripHtmlToText html) = stripHtmlToText html
   /\ replace_runs is_space (stripHtmlToText html) = stripHtmlToText html)
  /\ (lacks "&" html = true -> tag_free (stripHtmlToText html) = true)
  /\ (lacks "&" html = true -> lacks "<" html = true ->
      stripHtmlToText html = trim (replace_runs is_space html)).
Proof.
  split; [|split].
  - unfold stripHtmlToText. cbv zeta. set (s := replace_matches (literal "&gt;") _ _ _).
    split; [apply ChunkerFacts.trim_idem|].
    unfold replace_runs at 1. apply NormalizeFacts.collapse_fixed.
    apply NormalizeFacts.spaced_trim. unfold replace_runs.
    apply NormalizeFacts.collapse_spaced. reflexivity.
  - intros Hamp. unfold stripHtmlToText. cbv zeta.
    set (s3 := replace_matches (block "noscript") _ _ _).
    assert (Hamp3 : lacks "&" s3 = true).
    { subst s3. repeat (apply replace_matches_lacks; [reflexivity|]). exact Hamp. }
    set (s4 := replace_matches tag " " 0 s3).
    assert (Hamp4 : lacks "&" s4 = true)
      by (subst s4; apply replace_matches_lacks; [reflexivity | exact Hamp3]).
    assert (Hfree : tag_free s4 = true) by apply tags_replaced_free.
    rewrite !(replace_matches_fixed _ _ "&" s4) by (try apply literal_needs_amp; exact Hamp4).
    unfold trim. apply trimEnd_tag_free, trimStart_tag_free, collapse_tag_free, Hfree.
  - intros Hamp Hlt. unfold stripHtmlToText. cbv zeta.
    rewrite !(replace_matches_fixed _ _ "<" html) by (try apply block_needs_lt; exact Hlt).
    rewrite (replace_matches_fixed tag _ "<" html tag_needs_lt Hlt).
    rewrite !(replace_matches_fixed _ _ "&" html) by (try apply literal_needs_amp; exact Hamp).
    reflexivity.
Qed.

Lemma stripHtmlToText_text_witness :
  tag_free (stripHtmlToText "<p>One <b>fine</b> day</p><script>alert(1)</script>") = true.
Proof.
  apply (stripHtmlToText_text "<p>One <b>fine</b> day</p><script>alert(1)</script>").
  reflexivity.
Defined.

End HtmlFacts.

(* ===================================================================== *)
(** * File names                                                          *)
(* ===================================================================== *)
Module RouteFacts.
Import Js Text Route.
#[local] Arguments append !_ _ / : simpl nomatch.

(** The characters of a stem: letters, digits, underscore and dash. *)
Definition is_stem_char (c : ascii) : bool :=
  is_alnum c || is_underscore c || (code c =? 45)%N.

(** The digits of base 36. *)
Definition is_digit36 (c : ascii) : bool := is_digit c || is_lower c.

Ltac each_char c :=
  destruct c as [[|] [|] [|] [|] [|] [|] [|] [|]]; try reflexivity; try discriminate.

Lemma stem_char_replaced c :
  let c1 := if negb (is_path_char c) then "_"%char else c in
  is_stem_char (if (code c1 =? 47)%N then "_"%char else c1) = true.
Proof. each_char c. Qed.

Lemma stem_char_no_dot c : is_stem_char c = true -> (code c =? 46)%N = false.
Proof. each_char c. Qed.

Lemma stem_char_file_char c : is_stem_char c = true -> is_file_char c = true.
Proof. each_char c. Qed.

Lemma digit36_file_char c : is_digit36 c = true -> is_file_char c = true.
Proof. each_char c. Qed.

Lemma replaced_stem_chars s :
  all_chars is_stem_char
    (replace_chars (fun c => (code c =? 47)%N) "_"
       (replace_chars (fun c => negb (is_path_char c)) "_" s)) = true.
Proof.
  induction s as [|c s IH]; [reflexivity|].
  cbn [replace_chars all_chars]. rewrite IH, andb_true_r. apply stem_char_replaced.
Qed.

Lemma strip_leading_chars C s :
  all_chars C s = true -> all_chars C (strip_leading s) = true.
Proof.
  induction s as [|c s IH]; [reflexivity|]. cbn [strip_leading].
  destruct (is_underscore c); [|auto]. cbn [all_chars]. intros Hs.
  apply andb_prop in Hs. tauto.
Qed.

Lemma strip_trailing_chars C s :
  all_chars C s = true -> all_chars C (strip_trailing s) = true.
Proof.
  induction s as [|c s IH]; [reflexivity|]. cbn [strip_trailing all_chars]. intros Hs.
  apply andb_prop in Hs. destruct Hs as [Hc Hs].
  destruct (is_underscore c && is_empty (strip_trailing s)); [reflexivity|].
  cbn [all_chars]. rewrite Hc, (IH Hs). reflexivity.
Qed.

Lemma stem_no_extension s : all_chars is_stem_char s = true -> has_extension s = false.
Proof.
  induction s as [|c s IH]; [reflexivity|]. cbn [all_chars]. intros Hs.
  apply andb_prop in Hs. destruct Hs as [Hc Hs].
  cbn [has_extension extension_here]. rewrite (stem_char_no_dot c Hc), (IH Hs). reflexivity.
Qed.

Lemma insert_after_stem inserted stem ext :
  all_chars is_stem_char stem = true ->
  insert_before_extension inserted (stem +:+ "." +:+ ext_name ext)
  = stem +:+ inserted +:+ "." +:+ ext_name ext.
Proof.
  induction stem as [|c s IH].
  - intros _. destruct ext; reflexivity.
  - cbn [all_chars]. intros Hs. apply andb_prop in Hs. destruct Hs as [Hc Hs].
    cbn [append insert_before_extension extension_here].
    rewrite (stem_char_no_dot c Hc). cbn [andb]. f_equal. exact (IH Hs).
Qed.

(** ** The hash suffix *)

Lemma to_int32_range z : - 2 ^ 31 <= to_int32 z < 2 ^ 31.
Proof.
  unfold to_int32. pose proof (Z.mod_pos_bound (z + 2 ^ 31) (2 ^ 32) ltac:(lia)). lia.
Qed.

Lemma to_int32_congruent a b :
  a mod 2 ^ 32 = b mod 2 ^ 32 -> to_int32 a = to_int32 b.
Proof.
  intros Hab. unfold to_int32.
  rewrite <- (Zplus_mod_idemp_l a), Hab, Zplus_mod_idemp_l. reflexivity.
Qed.

Lemma to_int32_mod z : to_int32 z mod 2 ^ 32 = z mod 2 ^ 32.
Proof.
  unfold to_int32.
  rewrite Zminus_mod_idemp_l.
  replace (z + 2 ^ 31 - 2 ^ 31) with z by lia. reflexivity.
Qed.

(** One round multiplies by 31 and adds the character code, modulo 2^32. *)
Lemma hash_step_31 hash c : hash_step hash c = to_int32 (31 * hash + Z.of_N (code c)).
Proof.
  unfold hash_step. apply to_int32_congruent.
  rewrite Z.shiftl_mul_pow2 by lia.
  rewrite <- Zplus_mod_idemp_l, <- Zminus_mod_idemp_l, to_int32_mod.
  rewrite <- Zmult_mod_idemp_l, to_int32_mod, Zmult_mod_idemp_l.
  rewrite Zminus_mod_idemp_l, Zplus_mod_idemp_l.
  f_equal. lia.
Qed.

Lemma hash_loop_range input : forall hash,
  - 2 ^ 31 <= hash < 2 ^ 31 -> - 2 ^ 31 <= hash_loop hash input < 2 ^ 31.
Proof.
  induction input as [|c rest IH]; intros hash Hh; [exact Hh|].
  cbn [hash_loop]. apply IH. apply to_int32_range.
Qed.

Lemma digit36_class d : 0 <= d < 36 -> is_digit36 (digit36 d) = true.
Proof.
  intros Hd. unfold digit36.
  assert (Hcases : d = 0 \/ d = 1 \/ d = 2 \/ d = 3 \/ d = 4 \/ d = 5 \/ d = 6 \/ d = 7
                   \/ d = 8 \/ d = 9 \/ d = 10 \/ d = 11 \/ d = 12 \/ d = 13 \/ d = 14
                   \/ d = 15 \/ d = 16 \/ d = 17 \/ d = 18 \/ d = 19 \/ d = 20 \/ d = 21
                   \/ d = 22 \/ d = 23 \/ d = 24 \/ d = 25 \/ d = 26 \/ d = 27 \/ d = 28
                   \/ d = 29 \/ d = 30 \/ d = 31 \/ d = 32 \/ d = 33 \/ d = 34 \/ d = 35)
    by lia.
  repeat (destruct Hcases as [->|Hcases]; [reflexivity|]). subst d. reflexivity.
Qed.

Lemma toString36_go_chars fuel : forall n acc,
  0 <= n -> all_chars is_digit36 acc = true ->
  all_chars is_digit36 (toString36_go fuel n acc) = true.
Proof.
  induction fuel as [|fuel IH]; intros n acc Hn Hacc; [exact Hacc|].
  cbn [toString36_go]. cbv zeta.
  assert (Hacc' : all_chars is_digit36 (String (digit36 (n mod 36)) acc) = true).
  { cbn [all_chars]. rewrite Hacc, andb_true_r. apply digit36_class.
    apply Z.mod_pos_bound. lia. }
  destruct (n <? 36); [exact Hacc'|].
  apply IH; [apply Z.div_pos; lia | exact Hacc'].
Qed.

Lemma toString36_go_length fuel : forall (k : nat) n acc,
  (0 < k)%nat -> 0 <= n < 36 ^ Z.of_nat k ->
  (String.length acc <= String.length (toString36_go fuel n acc) <= String.length acc + k)%nat.
Proof.
  induction fuel as [|fuel IH]; intros k n acc Hk Hn; [cbn [toString36_go]; lia|].
  cbn [toString36_go]. cbv zeta.
  destruct (n <? 36) eqn:E; [cbn [String.length]; lia|].
  apply Z.ltb_ge in E.
  destruct k as [|[|k]]; [lia | simpl in Hn; lia |].
  assert (Hdiv : 0 <= n / 36 < 36 ^ Z.of_nat (S k)).
  { split; [apply Z.div_pos; lia|].
    apply Z.div_lt_upper_bound; [lia|].
    replace (Z.of_nat (S (S k))) with (Z.succ (Z.of_nat (S k))) in Hn by lia.
    rewrite Z.pow_succ_r in Hn by lia. lia. }
  specialize (IH (S k) (n / 36) (String (digit36 (n mod 36)) acc) ltac:(lia) Hdiv).
  cbn [String.length] in IH. lia.
Qed.

Lemma toString36_go_nonempty fuel n acc :
  (1 <= String.length (toString36_go (S fuel) n acc))%nat.
Proof.
  cbn [toString36_go]. cbv zeta. destruct (n <? 36); [cbn [String.length]; lia|].
  destruct fuel as [|fuel]; [cbn [toString36_go String.length]; lia|].
  set (acc' := String _ acc).
  assert (Hgen : forall f m a, (String.length a <= String.length (toString36_go f m a))%nat).
  { induction f as [|f IH]; intros m a; [cbn [toString36_go]; lia|].
    cbn [toString36_go]. cbv zeta. destruct (m <? 36); [cbn [String.length]; lia|].
    specialize (IH (m / 36) (String (digit36 (m mod 36)) a)).
    cbn [String.length] in IH. lia. }
  specialize (Hgen (S fuel) (n / 36) acc'). subst acc'. cbn [String.length] in Hgen. lia.
Qed.

Lemma substring_short n s : (String.length s <= n)%nat -> String.substring 0 n s = s.
Proof.
  revert s. induction n as [|n IH]; intros [|c s]; cbn [String.substring String.length];
    try reflexivity; try lia.
  intros Hs. rewrite IH by lia. reflexivity.
Qed.

Lemma hashSuffix_digits input :
  hashSuffix input = toString36 (Z.abs (hash_loop 0 input))
  /\ (1 <= String.length (hashSuffix input) <= 6)%nat
  /\ all_chars is_digit36 (hashSuffix input) = true.
Proof.
  pose proof (hash_loop_range input 0 ltac:(lia)) as Hrange.
  set (n := Z.abs (hash_loop 0 input)).
  assert (Hn : 0 <= n < 36 ^ Z.of_nat 6) by (subst n; simpl; lia).
  assert (Hlen : (1 <= String.length (toString36 n) <= 6)%nat).
  { unfold toString36. split; [apply toString36_go_nonempty|].
    pose proof (toString36_go_length (S (Z.to_nat (Z.log2 n))) 6%nat n EmptyString
                  ltac:(lia) Hn) as Hl.
    cbn [String.length] in Hl. lia. }
  assert (Heq : hashSuffix input = toString36 n).
  { unfold hashSuffix. cbv zeta. fold n. unfold slice.
    change (Z.to_nat 0) with 0%nat. apply substring_short.
    change (Z.to_nat (7 - 0)) with 7%nat. lia. }
  rewrite Heq. split; [reflexivity|]. split; [exact Hlen|].
  unfold toString36. apply toString36_go_chars; [lia | reflexivity].
Qed.

(** X3. The name of a crawled file is a stem of letters, digits,
    underscores and dashes that is not empty, then, when the URL has a
    query, an underscore and the hash of the query in at most six digits of
    base 36, then a dot and the extension that was asked for: the test for
    an extension in the stem never succeeds, and the seven-character cut of
    the hash never removes anything. Such a name is left as it is by
    [sanitizeFileName], which in general keeps the length of a name, leaves
    only letters, digits, dots, underscores and dashes, and is
    idempotent. *)
Theorem file_names_safe :
  (forall url ext, exists stem,
      urlToFileName url ext
      = stem
        +:+ (if truthy (search url) then "_" +:+ hashSuffix (search url) else "")
        +:+ "." +:+ ext_name ext
      /\ stem <> ""
      /\ all_chars is_stem_char stem = true
      /\ sanitizeFileName (urlToFileName url ext) = urlToFileName url ext)
  /\ (forall input,
        hashSuffix input = toString36 (Z.abs (hash_loop 0 input))
        /\ (1 <= String.length (hashSuffix input) <= 6)%nat
        /\ all_chars is_digit36 (hashSuffix input) = true)
  /\ (forall fileName,
        String.length (sanitizeFileName fileName) = String.length fileName
        /\ all_chars is_file_char (sanitizeFileName fileName) = true
        /\ includes (sanitizeFileName fileName) "/" = false
        /\ sanitizeFileName (sanitizeFileName fileName) = sanitizeFileName fileName).
Proof.
  split; [|split; [exact hashSuffix_digits|]].
  - intros url ext. unfold urlToFileName. cbv zeta.
    set (raw := strip_trailing (strip_leading _)).
    assert (Hraw : all_chars is_stem_char raw = true).
    { subst raw. apply strip_trailing_chars, strip_leading_chars, replaced_stem_chars. }
    set (stem := if truthy raw then raw else "crawled_page").
    assert (Hstem : all_chars is_stem_char stem = true).
    { subst stem. destruct (truthy raw); [exact Hraw | reflexivity]. }
    assert (Hne : stem <> "").
    { subst stem. destruct raw; [discriminate|]. cbn [truthy is_empty negb]. discriminate. }
    exists stem. rewrite (stem_no_extension stem Hstem).
    assert (Heq : (if negb (truthy (search url)) then stem +:+ "." +:+ ext_name ext
                   else insert_before_extension ("_" +:+ hashSuffix (search url))
                          (stem +:+ "." +:+ ext_name ext))
                  = stem
                    +:+ (if truthy (search url) then "_" +:+ hashSuffix (search url) else "")
                    +:+ "." +:+ ext_name ext).
    { destruct (truthy (search url)); cbn [negb]; [|reflexivity].
      rewrite (insert_after_stem _ stem ext Hstem). reflexivity. }
    rewrite Heq. split; [reflexivity|]. split; [exact Hne|]. split; [exact Hstem|].
    unfold sanitizeFileName. apply TextFacts.replace_chars_fixed.
    rewrite !StringFacts.all_chars_app.
    assert (Hfile : all_chars (fun c => negb (negb (is_file_char c))) stem = true).
    { eapply StringFacts.all_chars_weaken; [|exact Hstem].
      intros c Hc. rewrite (stem_char_file_char c Hc). reflexivity. }
    rewrite Hfile. cbn [andb].
    assert (Hhash : all_chars (fun c => negb (negb (is_file_char c)))
                      (if truthy (search url) then "_" +:+ hashSuffix (search url) else "")
                    = true).
    { destruct (truthy (search url)); [|reflexivity].
      rewrite StringFacts.all_chars_app. cbn [all_chars andb].
      change (negb (negb (is_file_char "_"))) with true. cbn [andb].
      destruct (hashSuffix_digits (search url)) as (_ & _ & Hd).
      eapply StringFacts.all_chars_weaken; [|exact Hd].
      intros c Hc. rewrite (digit36_file_char c Hc). reflexivity. }
    rewrite Hhash. destruct ext; reflexivity.
  - exact TextFacts.sanitizeFileName_chars.
Qed.

End RouteFacts.

(* ===================================================================== *)
(** * The store file                                                      *)
(* ===================================================================== *)
Module StoreFileFacts.
Import Js StoreFile.

(** The property of a written object, read off the list of its
    properties. *)
Fixpoint property (key : string) (properties : list (string * option Json.t))
  : option Json.t :=
  match properties with
  | [] => None
  | (k, v) :: rest =>
      if String.eqb key k
      then match property key rest with Some w => Some w | None => v end
      else property key rest
  end.

Lemma get_object key properties :
  Json.get key (Json.object properties) = property key properties.
Proof.
  unfold Json.object. cbn [Json.get].
  induction properties as [|[k v] rest IH]; [reflexivity|].
  cbn [omap list_omap property].
  destruct v as [x|]; cbn [fmap option_fmap option_map Json.lookup_last];
    rewrite IH; (destruct (String.eqb key k); [|reflexivity]);
    destruct (property key rest); reflexivity.
Qed.

Ltac read_properties :=
  rewrite ?get_object; cbn [property String.eqb Ascii.eqb Bool.eqb].

(** ** Text fields *)

Lemma text_field_trimmed value s :
  Store.normalizeTextField value = Some s -> trimmed s.
Proof.
  destruct value as [s0|]; [|discriminate]. cbn [Store.normalizeTextField]. cbv zeta.
  destruct (String.length (trim s0) =? 0)%nat eqn:E; [discriminate|].
  intros [= <-]. split.
  - intros Hs. rewrite Hs in E. discriminate.
  - apply ChunkerFacts.trim_idem.
Qed.

Lemma text_field_fixed s : trimmed s -> Store.normalizeTextField (Some s) = Some s.
Proof.
  intros [Hne Htrim]. cbn [Store.normalizeTextField]. cbv zeta. rewrite Htrim.
  destruct s; [contradiction|]. reflexivity.
Qed.

Lemma text_field_idem value :
  Store.normalizeTextField (Store.normalizeTextField value) = Store.normalizeTextField value.
Proof.
  destruct (Store.normalizeTextField value) as [s|] eqn:E; [|reflexivity].
  apply text_field_fixed, (text_field_trimmed value), E.
Qed.

Lemma trimmed_truthy s : trimmed s -> truthy s = true.
Proof. intros [Hne _]. destruct s; [contradiction|reflexivity]. Qed.

Lemma text_field_written (o : option string) :
  normalizeTextField (Json.Str <$> o) = Store.normalizeTextField o.
Proof. destruct o; reflexivity. Qed.

Lemma text_field_of_string s :
  normalizeTextField (Some (Json.Str s)) = Store.normalizeTextField (Some s).
Proof. reflexivity. Qed.

(** ** Metadata *)

Lemma topics_written (o : option (list string)) :
  normalizeTopics ((fun items => Json.Arr (Json.Str <$> items)) <$> o)
  = Store.normalizeTopics o.
Proof.
  destruct o as [items|]; [|reflexivity].
  cbn [fmap option_fmap option_map normalizeTopics Store.normalizeTopics]. cbv zeta.
  assert (Heq : omap (fun item => normalizeTextField (Some item)) (Json.Str <$> items)
                = omap (fun item => Store.normalizeTextField (Some item)) items).
  { induction items as [|a items IH]; [reflexivity|].
    cbn [fmap list_fmap omap list_omap]. rewrite text_field_of_string.
    change (list_fmap _ _ Json.Str items) with (Json.Str <$> items).
    change (list_omap ?f ?l) with (omap f l). rewrite IH. reflexivity. }
  rewrite Heq. reflexivity.
Qed.

(** Reading written metadata is the normalization of the typed value. *)
Lemma metadata_written (m : option RagDocumentMetadata) :
  normalizeMetadata (json_of_metadata <$> m) = Store.normalizeMetadata m.
Proof.
  destruct m as [v|]; [|reflexivity].
  cbn [fmap option_fmap option_map normalizeMetadata Store.normalizeMetadata].
  unfold json_of_metadata at 1. cbn [Json.object Json.is_object negb]. cbv zeta.
  fold (json_of_metadata v). unfold json_of_metadata. read_properties.
  rewrite !text_field_written, topics_written. reflexivity.
Qed.

Lemma topics_idem (o : option (list string)) :
  Store.normalizeTopics (Store.normalizeTopics o) = Store.normalizeTopics o.
Proof.
  destruct o as [items|]; [|reflexivity]. cbn [Store.normalizeTopics]. cbv zeta.
  set (normalized := omap _ items).
  destruct (length normalized =? 0)%nat eqn:E; [reflexivity|].
  cbn [Store.normalizeTopics]. cbv zeta.
  assert (Hfix : omap (fun item => Store.normalizeTextField (Some item)) normalized
                 = normalized).
  { subst normalized. clear E. induction items as [|a items IH]; [reflexivity|].
    cbn [omap list_omap].
    destruct (Store.normalizeTextField (Some a)) as [s|] eqn:Ea; [|exact IH].
    cbn [omap list_omap].
    rewrite (text_field_fixed s) by (eapply text_field_trimmed, Ea).
    change (list_omap ?f ?l) with (omap f l) in *. rewrite IH. reflexivity. }
  rewrite Hfix, E. reflexivity.
Qed.

Lemma metadata_idem (m : option RagDocumentMetadata) :
  Store.normalizeMetadata (Store.normalizeMetadata m) = Store.normalizeMetadata m.
Proof.
  destruct m as [v|]; [|reflexivity]. cbn [Store.normalizeMetadata]. cbv zeta.
  set (normalized := Build_RagDocumentMetadata _ _ _ _ _ _ _ _).
  destruct (Publications.metadata_blank normalized) eqn:E; [reflexivity|].
  cbn [Store.normalizeMetadata]. cbv zeta.
  assert (Hfix : {| title := Store.normalizeTextField (title normalized);
                    year := Store.normalizeTextField (year normalized);
                    venue := Store.normalizeTextField (venue normalized);
                    chapter := Store.normalizeTextField (chapter normalized);
                    section := Store.normalizeTextField (section normalized);
                    subsection := Store.normalizeTextField (subsection normalized);
                    topics := Store.normalizeTopics (topics normalized);
                    canonicalCitation :=
                      Store.normalizeTextField (canonicalCitation normalized) |}
                 = normalized).
  { subst normalized. cbn [title year venue chapter section subsection topics
                           canonicalCitation].
    rewrite !text_field_idem, topics_idem. reflexivity. }
  rewrite Hfix, E. reflexivity.
Qed.

Lemma metadata_read_fixed raw :
  Store.normalizeMetadata (normalizeMetadata raw) = normalizeMetadata raw.
Proof.
  destruct raw as [value|]; [|reflexivity]. cbn [normalizeMetadata]. cbv zeta.
  destruct (negb (Json.is_object value)); [reflexivity|].
  set (normalized := Build_RagDocumentMetadata _ _ _ _ _ _ _ _).
  destruct (Publications.metadata_blank normalized) eqn:E; [reflexivity|].
  cbn [Store.normalizeMetadata]. cbv zeta.
  assert (Htopics : Store.normalizeTopics (topics normalized) = topics normalized).
  { subst normalized. cbn [topics]. clear E.
    destruct (Json.get "topics" value) as [[| | | | |items|]|]; try reflexivity.
    cbn [normalizeTopics]. cbv zeta.
    set (l := omap _ items).
    destruct (length l =? 0)%nat eqn:El; [reflexivity|].
    cbn [Store.normalizeTopics]. cbv zeta.
    assert (Hfix : omap (fun item => Store.normalizeTextField (Some item)) l = l).
    { subst l. clear El. induction items as [|a items IH]; [reflexivity|].
      cbn [omap list_omap].
      destruct (normalizeTextField (Some a)) as [s|] eqn:Ea; [|exact IH].
      cbn [omap list_omap].
      rewrite (text_field_fixed s) by (eapply text_field_trimmed, Ea).
      change (list_omap ?f ?l) with (omap f l) in *. rewrite IH. reflexivity. }
    rewrite Hfix, El. reflexivity. }
  assert (Hfix : {| title := Store.normalizeTextField (title normalized);
                    year := Store.normalizeTextField (year normalized);
                    venue := Store.normalizeTextField (venue normalized);
                    chapter := Store.normalizeTextField (chapter normalized);
                    section := Store.normalizeTextField (section normalized);
                    subsection := Store.normalizeTextField (subsection normalized);
                    topics := Store.normalizeTopics (topics normalized);
                    canonicalCitation :=
                      Store.normalizeTextField (canonicalCitation normalized) |}
                 = normalized).
  { rewrite Htopics. subst normalized.
    cbn [title year venue chapter section subsection topics canonicalCitation].
    unfold normalizeTextField. rewrite !text_field_idem. reflexivity. }
  rewrite Hfix, E. reflexivity.
Qed.

(** ** Documents *)

(** The form in which [readStore] holds a document. *)
Definition doc_ok (doc : RagDocument) : Prop :=
  trimmed (Doc.id doc) /\ trimmed (Doc.ragId doc) /\ trimmed (Doc.fileName doc)
  /\ trimmed (Doc.uploadedAt doc)
  /\ Store.normalizeTextField (Doc.sourceRef doc) = Doc.sourceRef doc
  /\ Store.normalizeMetadata (Doc.metadata doc) = Doc.metadata doc.

Lemma role_written role : as_role (Some (Json.Str (role_name role))) = Some role.
Proof. destruct role; reflexivity. Qed.

Lemma fileType_written fileType :
  as_fileType (Some (Json.Str (fileType_name fileType))) = fileType.
Proof. destruct fileType; reflexivity. Qed.

Lemma status_written status : as_status (Some (Json.Str (status_name status))) = status.
Proof. destruct status; reflexivity. Qed.

Lemma sourceType_written sourceType :
  as_sourceType (Some (Json.Str (sourceType_name sourceType))) = sourceType.
Proof. destruct sourceType; reflexivity. Qed.

Section WithServices.
Context `{Services} `{Numbers}.

Lemma integer_written n : parseInteger (Some (Json.Num (inject_Z n))) = Some n.
Proof. cbn [parseInteger]. rewrite Qfloor_Z. reflexivity. Qed.

Lemma integer_option_written (o : option Z) :
  parseInteger ((fun n => Json.Num (inject_Z n)) <$> o) = o.
Proof. destruct o as [n|]; [apply integer_written | reflexivity]. Qed.

Lemma number_option_written (o : option Q) : parseNumber (Json.Num <$> o) = o.
Proof. destruct o; reflexivity. Qed.

Lemma normalizeDocument_ok raw doc : normalizeDocument raw = Some doc -> doc_ok doc.
Proof.
  unfold normalizeDocument. destruct (negb (Json.is_object raw)); [discriminate|].
  cbv zeta.
  destruct (normalizeTextField (Json.get "id" raw)) as [id|] eqn:Eid; [|discriminate].
  destruct (normalizeTextField (Json.get "ragId" raw)) as [ragId|] eqn:Erag;
    [|discriminate].
  destruct (normalizeTextField (Json.get "fileName" raw)) as [fileName|] eqn:Efile;
    [|discriminate].
  intros [= <-]. unfold doc_ok. cbn [Doc.id Doc.ragId Doc.fileName Doc.uploadedAt
                                      Doc.sourceRef Doc.metadata].
  repeat split; try (eapply text_field_trimmed; eassumption).
  - destruct (normalizeTextField (Json.get "uploadedAt" raw)) as [s|] eqn:E;
      [|discriminate].
    cbn [str_or]. apply text_field_trimmed in E. rewrite (trimmed_truthy s E).
    destruct E as [E _]. exact E.
  - destruct (normalizeTextField (Json.get "uploadedAt" raw)) as [s|] eqn:E;
      [|reflexivity].
    cbn [str_or]. apply text_field_trimmed in E. rewrite (trimmed_truthy s E).
    destruct E as [_ E]. exact E.
  - apply text_field_idem.
  - apply metadata_read_fixed.
Qed.

Lemma document_written doc : doc_ok doc -> normalizeDocument (json_of_document doc) = Some doc.
Proof.
  intros (Hid & Hrag & Hfile & Hup & Href & Hmeta).
  unfold normalizeDocument.
  unfold json_of_document at 1. cbn [Json.object Json.is_object negb]. cbv zeta.
  fold (json_of_document doc). unfold json_of_document. read_properties.
  rewrite !text_field_of_string, text_field_written.
  rewrite (text_field_fixed _ Hid), (text_field_fixed _ Hrag), (text_field_fixed _ Hfile),
    (text_field_fixed _ Hup), Href.
  cbn [str_or]. rewrite (trimmed_truthy _ Hup).
  rewrite fileType_written, status_written, sourceType_written, integer_written.
  unfold normalizeSourceRole. rewrite role_written.
  rewrite metadata_written, Hmeta.
  destruct doc; reflexivity.
Qed.

Lemma documents_written (docs : list RagDocument) :
  Forall doc_ok docs -> omap normalizeDocument (json_of_document <$> docs) = docs.
Proof.
  induction 1 as [|doc docs Hdoc _ IH]; [reflexivity|].
  cbn [fmap list_fmap omap list_omap]. rewrite (document_written doc Hdoc).
  change (list_omap ?f ?l) with (omap f l). change (list_fmap _ _ ?f ?l) with (f <$> l).
  rewrite IH. reflexivity.
Qed.

Lemma documents_read_ok (items : list Json.t) :
  Forall doc_ok (omap normalizeDocument items).
Proof.
  induction items as [|raw items IH]; [constructor|].
  cbn [omap list_omap]. destruct (normalizeDocument raw) as [doc|] eqn:E; [|exact IH].
  constructor; [eapply normalizeDocument_ok, E | exact IH].
Qed.

Lemma by_id_ok (docs : list RagDocument) :
  Forall doc_ok docs -> map_Forall (fun _ doc => doc_ok doc) (by_id docs).
Proof.
  unfold by_id. intros Hdocs.
  assert (Hgen : forall m : gmap string RagDocument,
            map_Forall (fun _ doc => doc_ok doc) m ->
            map_Forall (fun _ doc => doc_ok doc)
              (foldl (fun m doc => <[Doc.id doc := doc]> m) m docs)).
  { induction Hdocs as [|doc docs Hdoc _ IH]; intros m Hm; [exact Hm|].
    cbn [foldl]. apply IH. apply map_Forall_insert_2; assumption. }
  apply Hgen, map_Forall_empty.
Qed.

(** ** Chunks *)

(** The hash of the text of the chunk has no white space at its ends, as
    is the case for a digest in hexadecimal. *)
Definition hash_trimmed (chunk : RagChunk) : Prop :=
  trim (Rag.getTextHash (Chunk.text chunk)) = Rag.getTextHash (Chunk.text chunk).

(** The form in which [readStore] holds a chunk, given the documents by
    id. *)
Definition chunk_ok (documentsById : gmap string RagDocument) (chunk : RagChunk) : Prop :=
  let sourceDoc := documentsById !! Chunk.documentId chunk in
  trimmed (Chunk.id chunk) /\ trimmed (Chunk.ragId chunk)
  /\ trimmed (Chunk.documentId chunk) /\ trimmed (Chunk.text chunk)
  /\ trimmed (Chunk.sourceName chunk)
  /\ (exists h, Chunk.textHash chunk = Some h
                /\ str_or (Store.normalizeTextField (Some h))
                     (Rag.getTextHash (Chunk.text chunk)) = h)
  /\ Chunk.embedding chunk <> Some []
  /\ opt_or (Store.normalizeTextField (Chunk.paperKey chunk))
       (Store.resolvePaperKey (Chunk.sourceName chunk) (doc_metadata sourceDoc))
     = Chunk.paperKey chunk
  /\ opt_or (Store.normalizeTextField (Chunk.documentTitle chunk))
       (Publications.meta_get title (doc_metadata sourceDoc))
     = Chunk.documentTitle chunk
  /\ Store.normalizeTextField (Chunk.headingPath chunk) = Chunk.headingPath chunk
  /\ Store.normalizeTextField (Chunk.redundantOf chunk) = Chunk.redundantOf chunk
  /\ is_Some (Chunk.isRedundant chunk).

Lemma opt_or_text_field (a b : option string) :
  opt_or (Store.normalizeTextField b) b = b ->
  opt_or (Store.normalizeTextField (opt_or (Store.normalizeTextField a) b)) b
  = opt_or (Store.normalizeTextField a) b.
Proof.
  intros Hb. destruct (Store.normalizeTextField a) as [s|] eqn:Ea.
  - pose proof (text_field_trimmed _ _ Ea) as Hs.
    unfold opt_or at 2 3. cbn [opt_truthy]. rewrite (trimmed_truthy s Hs).
    rewrite (text_field_fixed s Hs). unfold opt_or. cbn [opt_truthy].
    rewrite (trimmed_truthy s Hs). reflexivity.
  - unfold opt_or at 2 3. cbn [opt_truthy]. exact Hb.
Qed.

Lemma paper_key_trimmed input :
  trim (Store.normalizePaperKey input) = Store.normalizePaperKey input.
Proof.
  unfold Store.normalizePaperKey.
  set (key := trim (replace_runs (fun c => negb _) _)).
  assert (Hsp : NormalizeFacts.spaced (fun c => negb (Publications.is_lower_alnum c))
                  false key = true).
  { subst key. apply NormalizeFacts.spaced_trim. unfold replace_runs.
    apply NormalizeFacts.collapse_spaced. reflexivity. }
  assert (Hfix : replace_runs is_space key = key).
  { unfold replace_runs. apply NormalizeFacts.collapse_fixed.
    apply (NormalizeFacts.spaced_subclass (fun c => negb (Publications.is_lower_alnum c))
             is_space key NormalizeFacts.space_is_nonalnum false false);
      [auto | exact Hsp]. }
  rewrite Hfix. subst key. apply ChunkerFacts.trim_idem.
Qed.

Lemma paper_key_fixed fileName metadata :
  let key := Store.resolvePaperKey fileName metadata in
  opt_or (Store.normalizeTextField key) key = key.
Proof.
  cbv zeta. unfold Store.resolvePaperKey. cbv zeta.
  set (key := Store.normalizePaperKey _).
  destruct (String.length key =? 0)%nat eqn:E; [reflexivity|].
  assert (Hkey : trimmed key).
  { split; [intros Hk; rewrite Hk in E; discriminate | apply paper_key_trimmed]. }
  rewrite (text_field_fixed key Hkey). unfold opt_or. cbn [opt_truthy].
  rewrite (trimmed_truthy key Hkey). reflexivity.
Qed.

Lemma title_fixed (sourceDoc : option RagDocument) :
  match sourceDoc with Some doc => doc_ok doc | None => True end ->
  let t := Publications.meta_get title (doc_metadata sourceDoc) in
  opt_or (Store.normalizeTextField t) t = t.
Proof.
  intros Hdoc. cbv zeta. destruct sourceDoc as [doc|]; [|reflexivity].
  destruct Hdoc as (_ & _ & _ & _ & _ & Hmeta). cbn [doc_metadata].
  destruct (Doc.metadata doc) as [m|]; [|reflexivity].
  cbn [Publications.meta_get].
  cbn [Store.normalizeMetadata] in Hmeta. cbv zeta in Hmeta.
  destruct (Publications.metadata_blank _); [discriminate|].
  injection Hmeta as Hm. apply (f_equal title) in Hm. cbn [title] in Hm.
  destruct (title m) as [s|]; [|reflexivity].
  rewrite Hm. unfold opt_or. cbn [opt_truthy].
  rewrite (trimmed_truthy s) by (eapply text_field_trimmed, Hm). reflexivity.
Qed.

Lemma numbers_written (e : list Q) :
  omap (fun item => parseNumber (Some item)) (Json.Num <$> e) = e.
Proof.
  induction e as [|q e IH]; [reflexivity|].
  cbn [fmap list_fmap omap list_omap].
  change (list_omap ?f ?l) with (omap f l). change (list_fmap _ _ ?f ?l) with (f <$> l).
  rewrite IH. reflexivity.
Qed.

Lemma normalizeChunk_ok raw documentsById chunk :
  map_Forall (fun _ doc => doc_ok doc) documentsById ->
  normalizeChunk raw documentsById = Some chunk ->
  hash_trimmed chunk ->
  chunk_ok documentsById chunk.
Proof.
  intros Hdocs. unfold normalizeChunk, hash_trimmed.
  destruct (negb (Json.is_object raw)); [discriminate|]. cbv zeta.
  destruct (normalizeTextField (Json.get "id" raw)) as [id|] eqn:Eid; [|discriminate].
  destruct (normalizeTextField (Json.get "ragId" raw)) as [ragId|] eqn:Erag;
    [|discriminate].
  destruct (normalizeTextField (Json.get "documentId" raw)) as [documentId|] eqn:Edoc;
    [|discriminate].
  destruct (normalizeTextField (Json.get "text" raw)) as [text|] eqn:Etext;
    [|discriminate].
  destruct (normalizeTextField (Json.get "sourceName" raw)) as [sourceName|] eqn:Ename;
    [|discriminate].
  intros [= <-]. unfold chunk_ok. cbv zeta.
  cbn [Chunk.id Chunk.ragId Chunk.documentId Chunk.text Chunk.sourceName Chunk.textHash
       Chunk.embedding Chunk.paperKey Chunk.documentTitle Chunk.headingPath
       Chunk.redundantOf Chunk.isRedundant].
  intros Hg.
  assert (Hsource : match documentsById !! documentId with
                    | Some doc => doc_ok doc | None => True end).
  { destruct (documentsById !! documentId) as [doc|] eqn:E; [|exact I].
    apply (Hdocs _ _ E). }
  split; [eapply text_field_trimmed; eassumption|].
  split; [eapply text_field_trimmed; eassumption|].
  split; [eapply text_field_trimmed; eassumption|].
  split; [eapply text_field_trimmed; eassumption|].
  split; [eapply text_field_trimmed; eassumption|].
  split.
  { eexists. split; [reflexivity|].
    destruct (normalizeTextField (Json.get "textHash" raw)) as [h|] eqn:Eh.
    - apply text_field_trimmed in Eh. cbn [str_or]. rewrite (trimmed_truthy h Eh).
      rewrite (text_field_fixed h Eh). cbn [str_or]. rewrite (trimmed_truthy h Eh).
      reflexivity.
    - cbn [str_or]. set (g := Rag.getTextHash text) in *.
      cbn [Store.normalizeTextField]. cbv zeta. rewrite Hg.
      destruct (String.length g =? 0)%nat; [reflexivity|]. cbn [str_or].
      destruct (truthy g); reflexivity. }
  split.
  { destruct (Json.get "embedding" raw) as [[| | | | |items|]|]; try discriminate.
    destruct (omap _ items) as [|q e]; [discriminate|]. cbn [length Nat.ltb Nat.leb].
    discriminate. }
  split; [apply opt_or_text_field, paper_key_fixed|].
  split; [apply opt_or_text_field, title_fixed, Hsource|].
  split; [apply text_field_idem|].
  split; [apply text_field_idem|].
  eexists; reflexivity.
Qed.

Lemma chunk_written documentsById chunk :
  chunk_ok documentsById chunk ->
  normalizeChunk (json_of_chunk chunk) documentsById = Some chunk.
Proof.
  intros (Hid & Hrag & Hdoc & Htext & Hname & (h & Hh & Hhash) & Hemb & Hkey & Htitle
          & Hhead & Hof & (b & Hb)).
  cbv zeta in *. unfold normalizeChunk.
  unfold json_of_chunk at 1. cbn [Json.object Json.is_object negb]. cbv zeta.
  fold (json_of_chunk chunk). unfold json_of_chunk. read_properties.
  rewrite !text_field_of_string, !text_field_written.
  rewrite (text_field_fixed _ Hid), (text_field_fixed _ Hrag), (text_field_fixed _ Hdoc),
    (text_field_fixed _ Htext), (text_field_fixed _ Hname).
  rewrite Hkey, Htitle, Hhead, Hof, integer_written, !integer_option_written,
    number_option_written.
  unfold normalizeSourceRole. rewrite role_written. cbn [Store.normalizeSourceRole default].
  rewrite Hh, Hhash, Hb. cbn [fmap option_fmap option_map].
  assert (Hembedding :
            match
              match (fun e => Json.Arr (Json.Num <$> e)) <$> Chunk.embedding chunk with
              | Some (Json.Arr items) =>
                  Some (omap (fun item => parseNumber (Some item)) items)
              | _ => None
              end
            with
            | Some e => if (0 <? length e)%nat then Some e else None
            | None => None
            end = Chunk.embedding chunk).
  { destruct (Chunk.embedding chunk) as [e|]; [|reflexivity].
    cbn [fmap option_fmap option_map]. rewrite numbers_written.
    destruct e; [contradiction|reflexivity]. }
  rewrite Hembedding.
  destruct chunk. cbn in *. subst. reflexivity.
Qed.

Lemma normalizeChunk_complete raw documentsById chunk :
  normalizeChunk raw documentsById = Some chunk ->
  trimmed (Chunk.id chunk) /\ trimmed (Chunk.ragId chunk)
  /\ trimmed (Chunk.documentId chunk) /\ trimmed (Chunk.text chunk)
  /\ trimmed (Chunk.sourceName chunk)
  /\ is_Some (Chunk.textHash chunk) /\ is_Some (Chunk.isRedundant chunk)
  /\ Chunk.embedding chunk <> Some [].
Proof.
  unfold normalizeChunk.
  destruct (negb (Json.is_object raw)); [discriminate|]. cbv zeta.
  destruct (normalizeTextField (Json.get "id" raw)) as [id|] eqn:Eid; [|discriminate].
  destruct (normalizeTextField (Json.get "ragId" raw)) as [ragId|] eqn:Erag;
    [|discriminate].
  destruct (normalizeTextField (Json.get "documentId" raw)) as [documentId|] eqn:Edoc;
    [|discriminate].
  destruct (normalizeTextField (Json.get "text" raw)) as [text|] eqn:Etext;
    [|discriminate].
  destruct (normalizeTextField (Json.get "sourceName" raw)) as [sourceName|] eqn:Ename;
    [|discriminate].
  intros [= <-].
  cbn [Chunk.id Chunk.ragId Chunk.documentId Chunk.text Chunk.sourceName Chunk.textHash
       Chunk.embedding Chunk.isRedundant].
  split; [eapply text_field_trimmed; eassumption|].
  split; [eapply text_field_trimmed; eassumption|].
  split; [eapply text_field_trimmed; eassumption|].
  split; [eapply text_field_trimmed; eassumption|].
  split; [eapply text_field_trimmed; eassumption|].
  split; [eexists; reflexivity|]. split; [eexists; reflexivity|].
  destruct (Json.get "embedding" raw) as [[| | | | |items|]|]; try discriminate.
  destruct (omap _ items) as [|q e]; [discriminate|]. cbn [length Nat.ltb Nat.leb].
  discriminate.
Qed.

Lemma chunks_written documentsById (cs : list RagChunk) :
  Forall (chunk_ok documentsById) cs ->
  omap (fun item => normalizeChunk item documentsById) (json_of_chunk <$> cs) = cs.
Proof.
  induction 1 as [|chunk cs Hchunk _ IH]; [reflexivity|].
  cbn [fmap list_fmap omap list_omap]. rewrite (chunk_written _ chunk Hchunk).
  change (list_omap ?f ?l) with (omap f l). change (list_fmap _ _ ?f ?l) with (f <$> l).
  rewrite IH. reflexivity.
Qed.

Lemma readStore_unfold rawStore :
  rawStore <> Json.Null ->
  readStore rawStore
  = let documents := omap normalizeDocument (rows (Json.get "documents" rawStore)) in
    Some {| documents := documents;
            chunks := omap (fun item => normalizeChunk item (by_id documents))
                        (rows (Json.get "chunks" rawStore)) |}.
Proof. destruct rawStore; [contradiction|reflexivity..]. Qed.

(** The rows that [readStore] keeps are complete. *)
Lemma readStore_complete (rawStore : Json.t) :
  match readStore rawStore with
  | None => rawStore = Json.Null
  | Some store =>
      Forall (fun doc =>
                trimmed (Doc.id doc) /\ trimmed (Doc.ragId doc)
                /\ trimmed (Doc.fileName doc) /\ trimmed (Doc.uploadedAt doc)
                /\ Store.normalizeMetadata (Doc.metadata doc) = Doc.metadata doc)
        (documents store)
      /\ Forall (fun chunk =>
                   trimmed (Chunk.id chunk) /\ trimmed (Chunk.ragId chunk)
                   /\ trimmed (Chunk.documentId chunk) /\ trimmed (Chunk.text chunk)
                   /\ trimmed (Chunk.sourceName chunk)
                   /\ is_Some (Chunk.textHash chunk)
                   /\ is_Some (Chunk.isRedundant chunk)
                   /\ Chunk.embedding chunk <> Some [])
           (chunks store)
  end.
Proof.
  assert (Hcases : rawStore = Json.Null \/ rawStore <> Json.Null)
    by (destruct rawStore; auto; right; discriminate).
  destruct Hcases as [->|Hraw]; [reflexivity|].
  rewrite (readStore_unfold rawStore Hraw). cbv zeta. cbn [documents chunks]. split.
  - eapply Forall_impl; [apply documents_read_ok|].
    intros doc (Hid & Hrag & Hfile & Hup & _ & Hmeta). auto.
  - generalize (by_id (omap normalizeDocument (rows (Json.get "documents" rawStore)))).
    intros m. induction (rows (Json.get "chunks" rawStore)) as [|raw items IH];
      [constructor|].
    cbn [omap list_omap]. destruct (normalizeChunk raw m) as [chunk|] eqn:E; [|exact IH].
    constructor; [eapply normalizeChunk_complete, E | exact IH].
Qed.

(** What [readStore] returns is stable under writing and reading. *)
Lemma write_then_read (rawStore : Json.t) (store : RagStore) :
  readStore rawStore = Some store ->
  Forall hash_trimmed (chunks store) ->
  readStore (writeStore store) = Some store.
Proof.
  intros Hread Hhash.
  assert (Hraw : rawStore <> Json.Null) by (intros ->; discriminate).
  rewrite (readStore_unfold rawStore Hraw) in Hread. cbv zeta in Hread.
  injection Hread as <-. cbn [chunks] in Hhash.
  set (docs := omap normalizeDocument (rows (Json.get "documents" rawStore))) in *.
  assert (Hdocs : Forall doc_ok docs) by apply documents_read_ok.
  rewrite readStore_unfold by discriminate. cbv zeta.
  unfold writeStore. read_properties. cbn [rows documents chunks].
  rewrite (documents_written docs Hdocs). f_equal. f_equal.
  apply chunks_written.
  pose proof (by_id_ok docs Hdocs) as Hmap. revert Hhash.
  generalize (by_id docs) Hmap. intros m Hm.
  induction (rows (Json.get "chunks" rawStore)) as [|raw items IH]; [constructor|].
  cbn [omap list_omap]. destruct (normalizeChunk raw m) as [chunk|] eqn:E; [|exact IH].
  intros Hall. apply Forall_cons in Hall. destruct Hall as [Hc Hall].
  constructor; [eapply normalizeChunk_ok; eassumption | apply IH, Hall].
Qed.

(** X7. Whatever the store file holds, the rows that [readStore] keeps are
    complete: every document has an id, a namespace, a file name and a time
    stamp that are not empty and carry no white space at their ends, and
    normalized metadata; every chunk has such an id, namespace, document
    id, text and source name, a text hash, a redundancy flag and no empty
    embedding. The store is stable under writing and reading: when the
    hashes of the chunk texts have no white space at their ends, the store
    that was read, written to the file and read again is the same store.
    Only for the file [null] there is no store. *)
Theorem readStore_normal_form (rawStore : Json.t) :
  match readStore rawStore with
  | None => rawStore = Json.Null
  | Some store =>
      Forall (fun doc =>
                trimmed (Doc.id doc) /\ trimmed (Doc.ragId doc)
                /\ trimmed (Doc.fileName doc) /\ trimmed (Doc.uploadedAt doc)
                /\ Store.normalizeMetadata (Doc.metadata doc) = Doc.metadata doc)
        (documents store)
      /\ Forall (fun chunk =>
                   trimmed (Chunk.id chunk) /\ trimmed (Chunk.ragId chunk)
                   /\ trimmed (Chunk.documentId chunk) /\ trimmed (Chunk.text chunk)
                   /\ trimmed (Chunk.sourceName chunk)
                   /\ is_Some (Chunk.textHash chunk)
                   /\ is_Some (Chunk.isRedundant chunk)
                   /\ Chunk.embedding chunk <> Some [])
           (chunks store)
      /\ (Forall hash_trimmed (chunks store) ->
          readStore (writeStore store) = Some store)
  end.
Proof.
  pose proof (readStore_complete rawStore) as Hcomplete.
  pose proof (write_then_read rawStore) as Hstable.
  destruct (readStore rawStore) as [store|]; [|exact Hcomplete].
  destruct Hcomplete as [Hdocs Hchunks]. auto.
Qed.

End WithServices.

Lemma readStore_normal_form_witness :
  exists store,
    @readStore Scenario.services Scenario.numbers Scenario.stored_file = Some store
    /\ length (documents store) = 1%nat /\ length (chunks store) = 1%nat
    /\ @readStore Scenario.services Scenario.numbers (writeStore store) = Some store.
Proof.
  pose proof (@readStore_normal_form Scenario.services Scenario.numbers
                Scenario.stored_file) as Hform.
  destruct (@readStore Scenario.services Scenario.numbers Scenario.stored_file)
    as [store|] eqn:Eread; [|discriminate].
  exists store. split; [reflexivity|].
  destruct Hform as (_ & _ & Hstable).
  vm_compute in Eread. injection Eread as <-.
  split; [reflexivity|]. split; [reflexivity|].
  apply Hstable. repeat constructor.
Defined.

End StoreFileFacts.
